(** * AutoGluon: the CI batch job submitter and the categorical MLP

    A shallow embedding of two source files of the repository,

    - [CI/batch/submit-job.py]: job-type registry, job-name sanitisation,
      the polling loop of [main] and the paginated log fetch [printLogs];
    - [multimodal/src/autogluon/multimodal/models/categorical_mlp.py]:
      the constructor and the forward pass of [CategoricalMLP];

    together with the properties the specification states about them.

    Conventions.  Python [int] is [Z]; [dict] is a [gmap] (or an
    association list where the order of the items matters); [set] is a
    [gset]; text whose characters are never inspected is a [string]; the job
    name, whose characters are inspected, is its list of Unicode code
    points.  Python [float] arithmetic is idealised by the real numbers,
    and the one result that depends on it is shown to survive rounding error.
    Remote services are parameters of a section: a world state and one
    transition function per API call. *)

From Stdlib Require Import ZArith List String Ascii Reals Lra Lia R_Ifp Rpower QArith.
From stdpp Require Import gmap strings list fin_maps sorting.

Open Scope Z_scope.

(* ===================================================================== *)
(** * Part I: CI/batch/submit-job.py *)
(* ===================================================================== *)

Module SubmitJob.

(** ** The job-type registry *)

Record JobInfo := mkJobInfo { job_definition : string; job_queue : string }.

(** The module-level dict [job_type_info]; the eight keys are distinct, so
    the dict literal is the map of its items. *)
Definition job_type_items : list (string * JobInfo) :=
  [ ("CI-CPU",            mkJobInfo "autogluon-ci-cpu:3"            "CI-CPU");
    ("CI-GPU",            mkJobInfo "autogluon-ci-gpu:3"            "CI-GPU");
    ("CI-WASM",           mkJobInfo "autogluon-ci-wasm:1"           "CI-CPU");
    ("CI-MULTI-GPU",      mkJobInfo "autogluon-ci-multi-gpu:6"      "CI-MULTI-GPU");
    ("CI-CPU-PUSH",       mkJobInfo "autogluon-ci-cpu-push:3"       "CI-CPU");
    ("CI-GPU-PUSH",       mkJobInfo "autogluon-ci-gpu-push:4"       "CI-GPU");
    ("CI-WASM-PUSH",      mkJobInfo "autogluon-ci-wasm-push:2"      "CI-CPU");
    ("CI-MULTI-GPU-PUSH", mkJobInfo "autogluon-ci-multi-gpu-push:2" "CI-MULTI-GPU") ].

Definition job_type_info : gmap string JobInfo := list_to_map job_type_items.

(** [choices=job_type_info.keys()] of the [--job-type] argument: the parser
    accepts exactly the keys of the registry. *)
Definition job_type_choices : list string := job_type_items.*1.

Definition parser_accepts (job_type : string) : bool :=
  bool_decide (job_type ∈ job_type_choices).

(** ** Job-name sanitisation *)

(** A Python [str] whose characters matter: its Unicode code points. *)
Definition pystr := list N.

Definition codepoints (s : string) : pystr :=
  map (fun a => N_of_ascii a) (list_ascii_of_string s).

(** The character class [A-Za-z0-9_\-] (ranges are by code point). *)
Definition in_class (c : N) : bool :=
  (((65 <=? c) && (c <=? 90)) || ((97 <=? c) && (c <=? 122))
   || ((48 <=? c) && (c <=? 57)) || (c =? 95) || (c =? 45))%N.

(** [re.sub('[^A-Za-z0-9_\-]', '', s)]: every character outside the class is
    replaced by the empty string. *)
Definition re_sub_outside_class (s : pystr) : pystr :=
  List.filter in_class s.

(** [re.sub('[^A-Za-z0-9_\-]', '', args.name)[:128]] *)
Definition sanitize_jobName (name : pystr) : pystr :=
  take 128 (re_sub_outside_class name).

(** ** Command line, requests and responses *)

Record Args := mkArgs {
  name : pystr;
  job_type : string;
  source_ref : string;
  work_dir : string;
  saved_output : string;
  save_path : string;
  command : string;
  remote : string;
  safe_to_use_script : bool;
  wait : bool;
  timeout : option Z
}.

(** The keyword arguments of [batch.submit_job]. *)
Record SubmitRequest := mkSubmit {
  sj_jobName : pystr;
  sj_jobQueue : string;
  sj_jobDefinition : string;
  sj_parameters : list (string * string);
  sj_timeout : option Z       (* {'attemptDurationSeconds': t} when given *)
}.

(** [describeJobsResponse['jobs'][0]], as far as [main] reads it: the
    status, and what is under [['container']['logStreamName']]: [None]
    when a key of that path is absent, as it is until the service has a
    stream for the job. *)
Record JobDescription := mkJob {
  status : string;
  container_logStreamName : option string
}.

Record LogEvent := mkEvent { timestamp : Z; message : string }.

(** The [kwargs] dict of [printLogs]; [kw_nextToken] is [None] while the key
    is absent, which is what [kwargs.get('nextToken')] returns. *)
Record LogRequest := mkLogRequest {
  kw_logGroupName : string;
  kw_logStreamName : string;
  kw_startTime : Z;
  kw_startFromHead : bool;
  kw_nextToken : option string
}.

(** The response of [get_log_events]; both keys are always there, and
    [nextForwardToken] is [None] for Python's [None]. *)
Record LogResponse := mkLogResponse {
  events : list LogEvent;
  nextForwardToken : option string
}.

(** What the script prints, one constructor per [print] call. *)
Inductive Line :=
| Submitted (jobName : pystr) (jobId jobQueue : string)
| LogLine (ts : Z) (msg : string)
| Rule80
| JobFinished (jobName : pystr) (jobId status : string)
| JobRunning (jobName : pystr) (jobId : string)
| OutputHeader (logStreamName : string)
| StatusUpdate (jobName : pystr) (jobId status glyph : string).

(** The exceptions the script raises itself and does not catch. *)
Inductive exn := KeyError.

(** What the process does, in order: prints and service calls. *)
Inductive Event :=
| Print (l : Line)
| CallSubmitJob (kwargs : SubmitRequest) (jobId : string)
| CallDescribeJobs (jobId : string) (job : JobDescription)
| CallGetLogEvents (kwargs : LogRequest) (r : LogResponse).

(** Truth value of a Python string-or-[None]. *)
Definition truthy (s : option string) : option string :=
  match s with
  | Some s => if String.eqb s EmptyString then None else Some s
  | None => None
  end.

Definition set_nextToken (tok : string) (kwargs : LogRequest) : LogRequest :=
  mkLogRequest (kw_logGroupName kwargs) (kw_logStreamName kwargs)
               (kw_startTime kwargs) (kw_startFromHead kwargs) (Some tok).

(** [nextToken and kwargs.get('nextToken') != nextToken]: the token to
    continue with, if any. *)
Definition new_token (kwargs : LogRequest) (r : LogResponse) : option string :=
  match truthy (nextForwardToken r) with
  | Some tok =>
      if bool_decide (kw_nextToken kwargs = Some tok) then None else Some tok
  | None => None
  end.

Definition spin : list string := ["-"; "/"; "|"; "\"; "-"; "/"; "|"; "\"].

Definition logGroupName : string := "/aws/batch/job".

(** The local variables of the polling loop of [main]. *)
Record Locals := mkLocals {
  spinner : nat;
  running : bool;
  status_set : gset string;
  startTime : Z;
  logStreamName : option string
}.

(** The character [chr(34)]. *)
Definition dquote : ascii := ascii_of_nat 34.

(** The dict [parameters]; the command is wrapped in double quotes. *)
Definition parameters_of (args : Args) : list (string * string) :=
  [ ("SOURCE_REF", source_ref args);
    ("WORK_DIR", work_dir args);
    ("SAVED_OUTPUT", saved_output args);
    ("SAVE_PATH", save_path args);
    ("COMMAND", String dquote (command args ++ String dquote EmptyString));
    ("REMOTE", remote args);
    ("SAFE_TO_USE_SCRIPT", if safe_to_use_script args then "True" else "False") ].

Definition submit_kwargs (args : Args) (info : JobInfo) : SubmitRequest :=
  mkSubmit (sanitize_jobName (name args)) (job_queue info) (job_definition info)
           (parameters_of args) (timeout args).

(** ** Reading a trace *)

(** The requests and responses of [get_log_events], in order. *)
Definition log_calls (tr : list Event) : list (LogRequest * LogResponse) :=
  omap (fun e => match e with CallGetLogEvents k r => Some (k, r) | _ => None end) tr.

(** The [startTime] of every log request, in order: the log watermark. *)
Definition watermarks (tr : list Event) : list Z :=
  omap (fun e => match e with CallGetLogEvents k _ => Some (kw_startTime k) | _ => None end) tr.

(** The statuses [describe_jobs] reported, in order. *)
Definition observed (tr : list Event) : list string :=
  omap (fun e => match e with CallDescribeJobs _ job => Some (status job) | _ => None end) tr.

(** The statuses of the one-line status updates printed, in order. *)
Definition status_updates (tr : list Event) : list string :=
  omap (fun e => match e with Print (StatusUpdate _ _ s _) => Some s | _ => None end) tr.

(** The requests handed to [submit_job]. *)
Definition submissions (tr : list Event) : list SubmitRequest :=
  omap (fun e => match e with CallSubmitJob k _ => Some k | _ => None end) tr.

(** A status that is neither terminal nor RUNNING. *)
Definition other_status (s : string) : Prop :=
  s <> "SUCCEEDED"%string /\ s <> "FAILED"%string /\ s <> "RUNNING"%string.

#[global] Instance other_status_dec (s : string) : Decision (other_status s).
Proof. unfold other_status. apply _. Defined.

(** The events one call of [printLogs] with watermark [t] may add. *)
Definition fetch_event (t : Z) (e : Event) : Prop :=
  match e with
  | CallGetLogEvents k _ => kw_startTime k = t
  | Print (LogLine _ _) => True
  | _ => False
  end.

(** *** The pagination protocol, as the specification words it

    These definitions say what a paginated fetch is without the code of
    [printLogs]: they do not use [set_nextToken] or [new_token]. *)

(** The response brings no new token: none, an empty one, or the one the
    request carried. *)
Definition no_new_token (kwargs : LogRequest) (r : LogResponse) : Prop :=
  forall tok, nextForwardToken r = Some tok ->
              tok = EmptyString \/ kw_nextToken kwargs = Some tok.

(** [next] asks for the page after the one [kwargs] asked for, whose
    response brought the forward token [tok]: the same group, stream,
    [startTime] and direction, and that token. *)
Definition asks_next_page (kwargs : LogRequest) (tok : string)
    (next : LogRequest) : Prop :=
  kw_nextToken next = Some tok /\
  kw_logGroupName next = kw_logGroupName kwargs /\
  kw_logStreamName next = kw_logStreamName kwargs /\
  kw_startTime next = kw_startTime kwargs /\
  kw_startFromHead next = kw_startFromHead kwargs.

(** The calls of one fetch follow the protocol: the first request is
    [kwargs]; while the response brings a token that is non-empty and
    differs from the one the request carried, the next request asks for the
    next page with that token; the last response brings no such token. *)
Inductive paged : LogRequest -> list (LogRequest * LogResponse) -> Prop :=
| paged_stop kwargs r :
    no_new_token kwargs r ->
    paged kwargs [(kwargs, r)]
| paged_next kwargs r tok next rest :
    nextForwardToken r = Some tok ->
    tok <> EmptyString ->
    kw_nextToken kwargs <> Some tok ->
    asks_next_page kwargs tok next ->
    paged next rest ->
    paged kwargs ((kwargs, r) :: rest).

(** ** A scripted service, for running the script on concrete inputs *)

Module Scripted.

(** The world is the number of [describe_jobs] calls made so far. *)
Definition statuses : list string :=
  ["SUBMITTED"; "RUNNABLE"; "RUNNABLE"; "STARTING"; "RUNNING"; "RUNNING"]%string.

Definition stream : list LogEvent :=
  [mkEvent 100 "cloning"; mkEvent 200 "testing"; mkEvent 300 "done"].

Definition submit_job (k : SubmitRequest) (w : nat) : string * nat :=
  ("job-1"%string, w).

Definition describe_jobs (final : string) (jobId : string) (w : nat)
  : JobDescription * nat :=
  (mkJob (nth w statuses final)
         (if (4 <=? w)%nat then Some "stream-1"%string else None), S w).

(** Two events per page, only events at or after [startTime]; the token
    is the number of events already delivered. *)
Definition get_log_events (k : LogRequest) (w : nat) : LogResponse * nat :=
  let evs := List.filter (fun e => kw_startTime k <=? timestamp e) stream in
  match kw_nextToken k with
  | None => (mkLogResponse (take 2 evs) (Some "f/2"%string), w)
  | Some tok =>
      if String.eqb tok "f/2"
      then (mkLogResponse (drop 2 evs) (Some "f/4"%string), w)
      else (mkLogResponse [] (Some tok), w)
  end.

Definition args (wait0 : bool) : Args :=
  mkArgs (codepoints "pr 512: unit-tests!") "CI-GPU" "master" "scripts"
         "None" "batch/temp" "pytest" "https://github.com/autogluon/autogluon"
         false wait0 None.

End Scripted.

Section Process.

(** The remote services: a state and one transition per API call. *)
Context {World : Type}.
Variable submit_job : SubmitRequest -> World -> string * World.
Variable describe_jobs : string -> World -> JobDescription * World.
Variable get_log_events : LogRequest -> World -> LogResponse * World.

(** The process: the services it talks to, what it has done so far, and the
    module-level registry it holds. *)
Record Proc := mkProc {
  world : World;
  trace : list Event;
  globals : gmap string JobInfo
}.

Definition startup (w : World) : Proc := mkProc w [] job_type_info.

Definition emit (e : Event) (p : Proc) : Proc :=
  mkProc (world p) (trace p ++ [e]) (globals p).

Definition print (l : Line) (p : Proc) : Proc := emit (Print l) p.

Definition call_get_log_events (kwargs : LogRequest) (p : Proc)
  : LogResponse * Proc :=
  let '(r, w) := get_log_events kwargs (world p) in
  (r, emit (CallGetLogEvents kwargs r) (mkProc w (trace p) (globals p))).

Definition call_describe_jobs (jobId : string) (p : Proc)
  : JobDescription * Proc :=
  let '(job, w) := describe_jobs jobId (world p) in
  (job, emit (CallDescribeJobs jobId job) (mkProc w (trace p) (globals p))).

Definition call_submit_job (kwargs : SubmitRequest) (p : Proc)
  : string * Proc :=
  let '(jobId, w) := submit_job kwargs (world p) in
  (jobId, emit (CallSubmitJob kwargs jobId) (mkProc w (trace p) (globals p))).

(** The [for event in logEvents['events']] loop of [printLogs]. *)
Definition print_events (evs : list LogEvent) (lastTimestamp : Z) (p : Proc)
  : Z * Proc :=
  fold_left
    (fun acc event =>
       (timestamp event, print (LogLine (timestamp event) (message event)) acc.2))
    evs (lastTimestamp, p).

(** How far a call of [printLogs] got. *)
Inductive Fetch :=
| Fetched (lastTimestamp : Z) (p : Proc)   (* [return lastTimestamp] *)
| Paging (p : Proc).                       (* still inside [while True] *)

(** The [while True] loop of [printLogs], run for at most [pages]
    requests. *)
Fixpoint printLogs_loop (pages : nat) (kwargs : LogRequest) (lastTimestamp : Z)
    (p : Proc) : Fetch :=
  match pages with
  | O => Paging p
  | S pages' =>
      let '(logEvents, p1) := call_get_log_events kwargs p in
      let '(lastTimestamp', p2) := print_events (events logEvents) lastTimestamp p1 in
      match new_token kwargs logEvents with
      | Some nextToken =>
          printLogs_loop pages' (set_nextToken nextToken kwargs) lastTimestamp' p2
      | None => Fetched lastTimestamp' p2
      end
  end.

Definition printLogs (pages : nat) (logGroupName logStreamName : string)
    (startTime : Z) (p : Proc) : Fetch :=
  printLogs_loop pages
    (mkLogRequest logGroupName logStreamName startTime true None)
    (startTime - 1) p.

(** How far a run of the script got. *)
Inductive Run :=
| Exited (code : Z) (p : Proc)       (* [sys.exit(code)], or the end of [main] *)
| Polling (st : Locals) (p : Proc)   (* at the top of an iteration of the loop *)
| Fetching (p : Proc)                (* inside a call of [printLogs] *)
| Raised (e : exn) (p : Proc).       (* an exception nobody catches ended it *)

(** [if logStreamName: startTime = printLogs(...) + 1] *)
Definition fetch_logs (pages : nat) (logStreamName : option string)
    (startTime : Z) (p : Proc) : Fetch :=
  match truthy logStreamName with
  | Some s =>
      match printLogs pages logGroupName s startTime p with
      | Fetched t p' => Fetched (t + 1) p'
      | Paging p' => Paging p'
      end
  | None => Fetched startTime p
  end.

(** One iteration of [while wait].  [time.sleep(random.randint(5, 10))]
    changes nothing that is modelled: the passing of time is part of what
    [describe_jobs] does to the world. *)
Definition poll_step (pages : nat) (jobName : pystr) (jobId : string)
    (st : Locals) (p : Proc) : Run :=
  let '(job, p) := call_describe_jobs jobId p in
  let status := status job in
  if String.eqb status "SUCCEEDED" || String.eqb status "FAILED" then
    match fetch_logs pages (logStreamName st) (startTime st) p with
    | Paging p => Fetching p
    | Fetched _ p =>
        let p := print Rule80 p in
        let p := print (JobFinished jobName jobId status) p in
        (* sys.exit(status == 'FAILED'): True is 1, False is 0 *)
        Exited (if String.eqb status "FAILED" then 1 else 0) p
    end
  else if String.eqb status "RUNNING" then
    match container_logStreamName job with
    | None => Raised KeyError p   (* the subscript finds no such key *)
    | Some s =>
        let logStreamName := Some s in
        let p :=
          if running st then p
          else
            let p := print (JobRunning jobName jobId) p in
            match truthy logStreamName with
            | Some s => print (OutputHeader s) p
            | None => p
            end in
        match fetch_logs pages logStreamName (startTime st) p with
        | Paging p => Fetching p
        | Fetched startTime p =>
            Polling (mkLocals (spinner st) true (status_set st) startTime
                              logStreamName) p
        end
    end
  else if bool_decide (status ∉ status_set st) then
    let p :=
      print (StatusUpdate jobName jobId status
               (nth (spinner st mod length spin) spin EmptyString)) p in
    Polling (mkLocals (spinner st + 1) (running st) ({[status]} ∪ status_set st)
                      (startTime st) (logStreamName st)) p
  else Polling st p.

(** [fuel] iterations of [while wait] (with [wait] true). *)
Fixpoint poll (fuel pages : nat) (jobName : pystr) (jobId : string)
    (st : Locals) (p : Proc) : Run :=
  match fuel with
  | O => Polling st p
  | S fuel' =>
      match poll_step pages jobName jobId st p with
      | Polling st' p' => poll fuel' pages jobName jobId st' p'
      | r => r
      end
  end.

Definition initial_locals : Locals := mkLocals 0 false ∅ 0 None.

(** [main()], run for at most [fuel] polls.  An unknown job type is a
    [KeyError] nobody catches.  Falling off the end of [main] exits with
    code 0. *)
Definition main (fuel pages : nat) (args : Args) (p : Proc) : Run :=
  let jobName := sanitize_jobName (name args) in
  match globals p !! job_type args with
  | None => Raised KeyError p
  | Some info =>
      let '(jobId, p) := call_submit_job (submit_kwargs args info) p in
      let p := print (Submitted jobName jobId (job_queue info)) p in
      if wait args then poll fuel pages jobName jobId initial_locals p
      else Exited 0 p
  end.

Definition run_proc (r : Run) : Proc :=
  match r with Exited _ p | Polling _ p | Fetching p | Raised _ p => p end.

(** The exit code of the process, once it has ended: the argument of
    [sys.exit], and 1 after an uncaught exception. *)
Definition exit_code (r : Run) : option Z :=
  match r with
  | Exited code _ => Some code
  | Raised _ _ => Some 1
  | Polling _ _ | Fetching _ => None
  end.

Definition fetch_proc (f : Fetch) : Proc :=
  match f with Fetched _ p | Paging p => p end.

(** The service, followed by the protocol: the request and the world of the
    [n]-th page when every request is the previous one with the forward
    token the previous response brought. *)
Fixpoint nth_page (n : nat) (kwargs : LogRequest) (w : World)
  : LogRequest * World :=
  match n with
  | O => (kwargs, w)
  | S n' =>
      let '(r, w') := get_log_events kwargs w in
      match nextForwardToken r with
      | Some tok =>
          nth_page n'
            (mkLogRequest (kw_logGroupName kwargs) (kw_logStreamName kwargs)
                          (kw_startTime kwargs) (kw_startFromHead kwargs)
                          (Some tok))
            w'
      | None => nth_page n' kwargs w'
      end
  end.

(** The [n]-th page brings no new token. *)
Definition token_repeats_at (n : nat) (kwargs : LogRequest) (w : World) : Prop :=
  no_new_token (nth_page n kwargs w).1
               (get_log_events (nth_page n kwargs w).1 (nth_page n kwargs w).2).1.

(** ** Sanitisation *)

Lemma re_sub_outside_class_Forall (s : pystr) :
  Forall (fun c => in_class c = true) (re_sub_outside_class s).
Proof.
  unfold re_sub_outside_class. induction s as [|c s IH]; simpl; [constructor|].
  destruct (in_class c) eqn:E; [constructor|]; assumption.
Qed.

Lemma sanitize_jobName_Forall (name : pystr) :
  Forall (fun c => in_class c = true) (sanitize_jobName name).
Proof. apply Forall_take, re_sub_outside_class_Forall. Qed.

Lemma sanitize_jobName_length (name : pystr) :
  (length (sanitize_jobName name) <= 128)%nat.
Proof. unfold sanitize_jobName. rewrite length_take. lia. Qed.

(** ** What each operation adds to the trace *)

Lemma print_events_eq (evs : list LogEvent) (last : Z) (p : Proc) :
  print_events evs last p =
    (fold_left (fun _ ev => timestamp ev) evs last,
     mkProc (world p)
            (trace p ++ map (fun ev => Print (LogLine (timestamp ev) (message ev))) evs)
            (globals p)).
Proof.
  unfold print_events. revert last p.
  induction evs as [|e evs IH]; intros last p; simpl.
  - rewrite app_nil_r. destruct p; reflexivity.
  - rewrite IH. simpl. rewrite <- app_assoc. reflexivity.
Qed.

Lemma fetch_event_lines (t : Z) (evs : list LogEvent) :
  Forall (fetch_event t)
         (map (fun ev => Print (LogLine (timestamp ev) (message ev))) evs).
Proof. induction evs; simpl; constructor; simpl; auto. Qed.

Lemma printLogs_loop_ext (pages : nat) (kwargs : LogRequest) (last : Z) (p : Proc) :
  exists ext,
    trace (fetch_proc (printLogs_loop pages kwargs last p)) = trace p ++ ext /\
    globals (fetch_proc (printLogs_loop pages kwargs last p)) = globals p /\
    Forall (fetch_event (kw_startTime kwargs)) ext.
Proof.
  revert kwargs last p. induction pages as [|pages IH]; intros kwargs last p.
  - exists []. simpl. rewrite app_nil_r. auto.
  - cbn [printLogs_loop]. unfold call_get_log_events.
    destruct (get_log_events kwargs (world p)) as [r w].
    rewrite print_events_eq. cbn [emit world trace globals].
    set (lines := map _ (events r)).
    assert (Hl : Forall (fetch_event (kw_startTime kwargs))
                        (CallGetLogEvents kwargs r :: lines)).
    { constructor; [reflexivity | apply fetch_event_lines]. }
    destruct (new_token kwargs r) as [tok|].
    + edestruct IH as (ext & Ht & Hg & Hf).
      rewrite Ht, Hg. cbn [trace globals].
      exists (CallGetLogEvents kwargs r :: lines ++ ext).
      split; [|split; [reflexivity|]].
      * rewrite <- !app_assoc. reflexivity.
      * change (Forall (fetch_event (kw_startTime kwargs))
                  ((CallGetLogEvents kwargs r :: lines) ++ ext)).
        apply Forall_app. split; assumption.
    + cbn [fetch_proc trace globals].
      exists (CallGetLogEvents kwargs r :: lines).
      split; [|split; [reflexivity|assumption]].
      rewrite <- !app_assoc. reflexivity.
Qed.

Lemma fetch_logs_ext (pages : nat) (lsn : option string) (t : Z) (p : Proc) :
  exists ext,
    trace (fetch_proc (fetch_logs pages lsn t p)) = trace p ++ ext /\
    globals (fetch_proc (fetch_logs pages lsn t p)) = globals p /\
    Forall (fetch_event t) ext.
Proof.
  unfold fetch_logs. destruct (truthy lsn) as [s|].
  - unfold printLogs.
    destruct (printLogs_loop_ext pages (mkLogRequest logGroupName s t true None) (t - 1) p)
      as (ext & Ht & Hg & Hf).
    exists ext. destruct (printLogs_loop _ _ _ _); simpl in *; auto.
  - exists []. simpl. rewrite app_nil_r. auto.
Qed.

Lemma fetch_event_silent (t : Z) (ext : list Event) :
  Forall (fetch_event t) ext ->
  observed ext = [] /\ status_updates ext = [] /\ submissions ext = [] /\
  Forall (fun x => x = t) (watermarks ext).
Proof.
  induction 1 as [|e ext He _ (Ho & Hs & Hn & Hw)]; [repeat split; constructor|].
  destruct e as [[]| | |k r]; simpl in He; try contradiction; simpl;
    rewrite ?Ho, ?Hs, ?Hn; repeat split; auto.
Qed.


Lemma fetch_ext_app_silent (t : Z) (ext more : list Event) :
  Forall (fetch_event t) ext ->
  observed (ext ++ more) = observed more /\
  status_updates (ext ++ more) = status_updates more /\
  submissions (ext ++ more) = submissions more /\
  watermarks (ext ++ more) = watermarks ext ++ watermarks more /\
  Forall (fun x => x = t) (watermarks ext).
Proof.
  intros H. destruct (fetch_event_silent t ext H) as (Ho & Hs & Hn & Hw).
  unfold observed, status_updates, submissions, watermarks in *.
  rewrite !omap_app, Ho, Hs, Hn. auto.
Qed.

(** One iteration of the loop, by the status [describe_jobs] reports. *)

Lemma call_describe_jobs_eq (jobId : string) (p : Proc) :
  exists job p0,
    call_describe_jobs jobId p = (job, p0) /\
    job = (describe_jobs jobId (world p)).1 /\
    trace p0 = trace p ++ [CallDescribeJobs jobId job] /\
    globals p0 = globals p.
Proof.
  unfold call_describe_jobs. destruct (describe_jobs jobId (world p)) as [job w].
  exists job, (emit (CallDescribeJobs jobId job) (mkProc w (trace p) (globals p))).
  repeat split.
Qed.

Lemma poll_step_terminal (pages : nat) (jobName : pystr) (jobId : string)
    (st : Locals) (p : Proc) (job : JobDescription) (p0 : Proc) :
  call_describe_jobs jobId p = (job, p0) ->
  status job = "SUCCEEDED"%string \/ status job = "FAILED"%string ->
  poll_step pages jobName jobId st p =
    match fetch_logs pages (logStreamName st) (startTime st) p0 with
    | Paging p1 => Fetching p1
    | Fetched _ p1 =>
        Exited (if String.eqb (status job) "FAILED" then 1 else 0)
               (print (JobFinished jobName jobId (status job)) (print Rule80 p1))
    end.
Proof.
  intros E H. unfold poll_step. rewrite E.
  destruct H as [-> | ->]; reflexivity.
Qed.

Lemma poll_step_keyerror (pages : nat) (jobName : pystr) (jobId : string)
    (st : Locals) (p : Proc) (job : JobDescription) (p0 : Proc) :
  call_describe_jobs jobId p = (job, p0) ->
  status job = "RUNNING"%string ->
  container_logStreamName job = None ->
  poll_step pages jobName jobId st p = Raised KeyError p0.
Proof.
  intros E H Hs. unfold poll_step. rewrite E, H, Hs. reflexivity.
Qed.

Lemma poll_step_running (pages : nat) (jobName : pystr) (jobId : string)
    (st : Locals) (p : Proc) (job : JobDescription) (p0 : Proc) (s : string) :
  call_describe_jobs jobId p = (job, p0) ->
  status job = "RUNNING"%string ->
  container_logStreamName job = Some s ->
  poll_step pages jobName jobId st p =
    let p1 :=
      if running st then p0
      else match truthy (container_logStreamName job) with
           | Some s => print (OutputHeader s) (print (JobRunning jobName jobId) p0)
           | None => print (JobRunning jobName jobId) p0
           end in
    match fetch_logs pages (container_logStreamName job) (startTime st) p1 with
    | Paging p2 => Fetching p2
    | Fetched t p2 =>
        Polling (mkLocals (spinner st) true (status_set st) t
                          (container_logStreamName job)) p2
    end.
Proof.
  intros E H Hs. unfold poll_step. rewrite E, H, Hs. reflexivity.
Qed.

Lemma poll_step_other (pages : nat) (jobName : pystr) (jobId : string)
    (st : Locals) (p : Proc) (job : JobDescription) (p0 : Proc) :
  call_describe_jobs jobId p = (job, p0) ->
  other_status (status job) ->
  poll_step pages jobName jobId st p =
    if bool_decide (status job ∉ status_set st) then
      Polling (mkLocals (spinner st + 1) (running st)
                        ({[status job]} ∪ status_set st)
                        (startTime st) (logStreamName st))
              (print (StatusUpdate jobName jobId (status job)
                        (nth (spinner st mod length spin) spin EmptyString)) p0)
    else Polling st p0.
Proof.
  intros E (NS & NF & NR). unfold poll_step. rewrite E.
  apply String.eqb_neq in NS, NF, NR. rewrite NS, NF, NR. reflexivity.
Qed.

Lemma status_cases (s : string) :
  (s = "SUCCEEDED"%string \/ s = "FAILED"%string) \/ s = "RUNNING"%string \/
  other_status s.
Proof.
  unfold other_status.
  destruct (String.eqb_spec s "SUCCEEDED"); auto.
  destruct (String.eqb_spec s "FAILED"); auto.
  destruct (String.eqb_spec s "RUNNING"); auto.
Qed.

Lemma poll_step_spec (pages : nat) (jobName : pystr) (jobId : string)
    (st : Locals) (p : Proc) :
  let job := (describe_jobs jobId (world p)).1 in
  let R := poll_step pages jobName jobId st p in
  exists ext,
    trace (run_proc R) = trace p ++ CallDescribeJobs jobId job :: ext /\
    globals (run_proc R) = globals p /\
    observed ext = [] /\
    submissions ext = [] /\
    Forall (fun x => x = startTime st) (watermarks ext) /\
    ((other_status (status job) /\ (status job ∉ status_set st) /\
      status_updates ext = [status job] /\
      exists st' p', R = Polling st' p' /\
                     status_set st' = {[status job]} ∪ status_set st)
     \/
     ((~ other_status (status job) \/ status job ∈ status_set st) /\
      status_updates ext = [] /\
      forall st' p', R = Polling st' p' -> status_set st' = status_set st)) /\
    (forall code p', R = Exited code p' ->
       (status job = "FAILED"%string /\ code = 1) \/
       (status job = "SUCCEEDED"%string /\ code = 0)).
Proof.
  intros job R. subst R.
  destruct (call_describe_jobs_eq jobId p) as (job' & p0 & E & Ej & Hp0 & Hg0).
  fold job in Ej. subst job'.
  destruct (status_cases (status job)) as [Hterm | [Hrun | Hother]].
  - rewrite (poll_step_terminal _ _ _ _ _ _ _ E Hterm).
    destruct (fetch_logs_ext pages (logStreamName st) (startTime st) p0)
      as (ext & Ht & Hg & Hf).
    assert (Hno : ~ other_status (status job)).
    { intros (NS & NF & _). destruct Hterm; contradiction. }
    destruct (fetch_logs pages (logStreamName st) (startTime st) p0) as [t p1|p1];
      cbn [fetch_proc run_proc print emit trace globals] in *.
    + exists (ext ++ [Print Rule80; Print (JobFinished jobName jobId (status job))]).
      destruct (fetch_ext_app_silent _ ext
                  [Print Rule80; Print (JobFinished jobName jobId (status job))] Hf)
        as (Ho & Hs & Hn & Hw & Hw').
      rewrite Ho, Hs, Hn, Hw, Ht, Hp0, Hg, Hg0, <- !app_assoc. simpl.
      rewrite app_nil_r. repeat split; auto.
      * right. repeat split; auto. discriminate.
      * intros code p' [= <- _]. destruct Hterm as [H|H]; rewrite H; auto.
    + exists ext. destruct (fetch_event_silent _ ext Hf) as (Ho & Hs & Hn & Hw).
      rewrite Ht, Hp0, Hg, Hg0, <- !app_assoc. repeat split; auto.
      * right. repeat split; auto. discriminate.
      * discriminate.
  - destruct (container_logStreamName job) as [sn|] eqn:Hsn.
    2:{ rewrite (poll_step_keyerror _ _ _ _ _ _ _ E Hrun Hsn).
        exists []. cbn [run_proc]. rewrite Hp0, Hg0.
        repeat split; auto; try discriminate. right. repeat split; auto.
        - left. intros (_ & _ & NR). contradiction.
        - discriminate. }
    rewrite (poll_step_running _ _ _ _ _ _ _ _ E Hrun Hsn), <- ?Hsn. cbv zeta.
    set (p1 := if running st then p0 else _).
    assert (Hpre : exists pre,
      trace p1 = trace p0 ++ pre /\ globals p1 = globals p0 /\
      observed pre = [] /\ status_updates pre = [] /\
      submissions pre = [] /\ watermarks pre = []).
    { subst p1. destruct (running st).
      - exists []. rewrite app_nil_r. repeat split.
      - destruct (truthy (container_logStreamName job)) as [s|].
        + exists [Print (JobRunning jobName jobId); Print (OutputHeader s)].
          cbn [print emit trace globals]. rewrite <- app_assoc. repeat split.
        + exists [Print (JobRunning jobName jobId)]. repeat split. }
    destruct Hpre as (pre & Ht1 & Hg1 & Ho1 & Hs1 & Hn1 & Hw1). clearbody p1.
    destruct (fetch_logs_ext pages (container_logStreamName job) (startTime st) p1)
      as (ext & Ht & Hg & Hf).
    destruct (fetch_event_silent _ ext Hf) as (Ho & Hs & Hn & Hw).
    assert (Hno : ~ other_status (status job)).
    { intros (_ & _ & NR). contradiction. }
    exists (pre ++ ext).
    unfold observed, status_updates, submissions, watermarks in *.
    rewrite !omap_app, Ho1, Hs1, Hn1, Hw1, Ho, Hs, Hn. cbn [app].
    destruct (fetch_logs pages (container_logStreamName job) (startTime st) p1)
      as [t p2|p2]; cbn [fetch_proc run_proc trace globals] in *;
      rewrite Ht, Ht1, Hp0, Hg, Hg1, Hg0, <- !app_assoc;
      repeat split; auto; try discriminate.
    + right. repeat split; auto. intros st' p' [= <- _]. reflexivity.
    + right. repeat split; auto. discriminate.
  - rewrite (poll_step_other _ _ _ _ _ _ _ E Hother).
    case_bool_decide as Hin.
    + eexists [Print (StatusUpdate jobName jobId (status job) _)].
      cbn [run_proc print emit trace globals]. rewrite Hp0, Hg0, <- app_assoc.
      repeat split; auto; try discriminate.
      left. split; [exact Hother|]. split; [exact Hin|]. split; [reflexivity|].
      eexists _, _. split; reflexivity.
    + exists []. cbn [run_proc]. rewrite Hp0, Hg0.
      repeat split; auto; try discriminate. right. repeat split; auto.
      intros st' p' [= <- _]. reflexivity.
Qed.

(** ** Invariants of the polling loop *)

Lemma poll_invariant (I : Locals -> Proc -> Prop) (J : Run -> Prop)
    (pages : nat) (jobName : pystr) (jobId : string) :
  (forall st p, I st p ->
     match poll_step pages jobName jobId st p with
     | Polling st' p' => I st' p'
     | r => J r
     end) ->
  forall fuel st p, I st p ->
    match poll fuel pages jobName jobId st p with
    | Polling st' p' => I st' p'
    | r => J r
    end.
Proof.
  intros Hstep fuel. induction fuel as [|fuel IH]; intros st p HI; [exact HI|].
  cbn [poll]. specialize (Hstep st p HI).
  destruct (poll_step pages jobName jobId st p) as [code p'|st' p'|p'|e p'];
    [exact Hstep | apply IH; exact Hstep | exact Hstep | exact Hstep].
Qed.

(** [main] up to the loop. *)
Lemma main_cases (fuel pages : nat) (args : Args) (w : World) :
  (job_type_info !! job_type args = None /\
   main fuel pages args (startup w) = Raised KeyError (startup w))
  \/
  (exists info jobId p1,
     job_type_info !! job_type args = Some info /\
     trace p1 = [CallSubmitJob (submit_kwargs args info) jobId;
                 Print (Submitted (sanitize_jobName (name args)) jobId (job_queue info))] /\
     globals p1 = job_type_info /\
     main fuel pages args (startup w) =
       if wait args
       then poll fuel pages (sanitize_jobName (name args)) jobId initial_locals p1
       else Exited 0 p1).
Proof.
  unfold main, call_submit_job, startup. cbn [world trace globals].
  destruct (job_type_info !! job_type args) as [info|]; [right|left; auto].
  destruct (submit_job (submit_kwargs args info) w) as [jobId w'].
  eexists info, jobId, _. split; [reflexivity|].
  split; [|split; [|reflexivity]]; reflexivity.
Qed.

(** A property of the trace that the loop preserves holds of every run. *)
Lemma main_invariant (I : Locals -> Proc -> Prop) (J : Run -> Prop)
    (fuel pages : nat) (args : Args) (w : World) :
  (job_type_info !! job_type args = None -> J (Raised KeyError (startup w))) ->
  (forall info jobId p1,
     job_type_info !! job_type args = Some info ->
     trace p1 = [CallSubmitJob (submit_kwargs args info) jobId;
                 Print (Submitted (sanitize_jobName (name args)) jobId (job_queue info))] ->
     globals p1 = job_type_info ->
     (wait args = false -> J (Exited 0 p1)) /\
     (wait args = true -> I initial_locals p1)) ->
  (forall st p, I st p -> J (Polling st p)) ->
  (forall jobId st p, I st p ->
     match poll_step pages (sanitize_jobName (name args)) jobId st p with
     | Polling st' p' => I st' p'
     | r => J r
     end) ->
  J (main fuel pages args (startup w)).
Proof.
  intros Hk H0 HIJ Hstep.
  destruct (main_cases fuel pages args w)
    as [[Hn ->] | (info & jobId & p1 & Hl & Ht & Hg & ->)]; [auto|].
  destruct (H0 info jobId p1 Hl Ht Hg) as [Hnw Hw].
  destruct (wait args); [|auto].
  pose proof (poll_invariant I J pages (sanitize_jobName (name args)) jobId
                (Hstep jobId) fuel initial_locals p1 (Hw eq_refl)) as H.
  destruct (poll _ _ _ _ _ _); auto.
Qed.

Lemma main_submissions_globals (fuel pages : nat) (args : Args) (w : World) :
  submissions (trace (run_proc (main fuel pages args (startup w)))) =
    match job_type_info !! job_type args with
    | Some info => [submit_kwargs args info]
    | None => []
    end /\
  globals (run_proc (main fuel pages args (startup w))) = job_type_info.
Proof.
  set (P := fun p : Proc =>
    submissions (trace p) =
      match job_type_info !! job_type args with
      | Some info => [submit_kwargs args info]
      | None => []
      end /\ globals p = job_type_info).
  apply (main_invariant (fun _ p => P p) (fun r => P (run_proc r))).
  - intros Hn. unfold P. rewrite Hn. split; reflexivity.
  - intros info jobId p1 Hl Ht Hg.
    assert (P p1) by (unfold P; rewrite Hl, Ht, Hg; split; reflexivity).
    split; intros _; assumption.
  - intros st p H; exact H.
  - intros jobId st p [Hs Hg].
    destruct (poll_step_spec pages (sanitize_jobName (name args)) jobId st p)
      as (ext & Ht & Hg' & _ & Hn & _).
    assert (HP : P (run_proc (poll_step pages (sanitize_jobName (name args)) jobId st p))).
    { unfold P. rewrite Ht, Hg'. unfold submissions in *.
      rewrite omap_app. cbn [omap list_omap]. rewrite Hn, app_nil_r. auto. }
    destruct (poll_step _ _ _ _ _); exact HP.
Qed.

(** ** The claims about the job submitter *)

(** C2.  Whatever string is given as the job name, the sanitised name
    contains only characters of the class [A-Za-z0-9_-] and has length at
    most 128, and it is this sanitised name, and nothing else, that a run of
    [main] hands to [submit_job]. *)
Theorem jobName_sanitized (name0 : pystr) :
  Forall (fun c : N =>
            (65 <= c <= 90)%N \/ (97 <= c <= 122)%N \/ (48 <= c <= 57)%N \/
            c = 95%N \/ c = 45%N)
         (sanitize_jobName name0) /\
  (length (sanitize_jobName name0) <= 128)%nat /\
  (forall (fuel pages : nat) (args : Args) (w : World),
     Forall (fun k => sj_jobName k = sanitize_jobName (name args))
       (submissions (trace (run_proc (main fuel pages args (startup w)))))).
Proof.
  split; [|split].
  - eapply Forall_impl; [apply sanitize_jobName_Forall|].
    intros c Hc. unfold in_class in Hc. cbv beta in Hc.
    repeat (apply orb_prop in Hc; destruct Hc as [Hc|Hc]);
      try (apply andb_prop in Hc; destruct Hc as [H1 H2];
           apply N.leb_le in H1, H2);
      try apply N.eqb_eq in Hc; auto 6.
  - apply sanitize_jobName_length.
  - intros fuel pages args w.
    destruct (main_submissions_globals fuel pages args w) as [-> _].
    destruct (job_type_info !! job_type args); repeat constructor.
Qed.

(** C6.  The registry has exactly eight job types; the lookup succeeds on
    exactly the job types the parser accepts and yields the definition and
    the queue recorded in the table; a run of [main] submits to that
    definition and queue and leaves the registry as it was at startup. *)
Theorem job_type_lookup_total :
  size job_type_info = 8%nat /\
  (forall jt : string, parser_accepts jt = true <-> is_Some (job_type_info !! jt)) /\
  (forall jt : string,
     parser_accepts jt = true <->
     jt ∈ ["CI-CPU"; "CI-GPU"; "CI-WASM"; "CI-MULTI-GPU"; "CI-CPU-PUSH";
           "CI-GPU-PUSH"; "CI-WASM-PUSH"; "CI-MULTI-GPU-PUSH"]%string) /\
  (job_type_info !! "CI-CPU"%string = Some (mkJobInfo "autogluon-ci-cpu:3" "CI-CPU") /\
   job_type_info !! "CI-GPU"%string = Some (mkJobInfo "autogluon-ci-gpu:3" "CI-GPU") /\
   job_type_info !! "CI-WASM"%string = Some (mkJobInfo "autogluon-ci-wasm:1" "CI-CPU") /\
   job_type_info !! "CI-MULTI-GPU"%string =
     Some (mkJobInfo "autogluon-ci-multi-gpu:6" "CI-MULTI-GPU") /\
   job_type_info !! "CI-CPU-PUSH"%string =
     Some (mkJobInfo "autogluon-ci-cpu-push:3" "CI-CPU") /\
   job_type_info !! "CI-GPU-PUSH"%string =
     Some (mkJobInfo "autogluon-ci-gpu-push:4" "CI-GPU") /\
   job_type_info !! "CI-WASM-PUSH"%string =
     Some (mkJobInfo "autogluon-ci-wasm-push:2" "CI-CPU") /\
   job_type_info !! "CI-MULTI-GPU-PUSH"%string =
     Some (mkJobInfo "autogluon-ci-multi-gpu-push:2" "CI-MULTI-GPU")) /\
  (forall (fuel pages : nat) (args : Args) (w : World),
     globals (run_proc (main fuel pages args (startup w))) = job_type_info /\
     (sj_jobDefinition <$> submissions (trace (run_proc (main fuel pages args (startup w)))),
      sj_jobQueue <$> submissions (trace (run_proc (main fuel pages args (startup w)))))
     = match job_type_info !! job_type args with
       | Some info => ([job_definition info], [job_queue info])
       | None => ([], [])
       end).
Proof.
  split; [vm_compute; reflexivity|].
  split.
  { intros jt. unfold parser_accepts, job_type_choices, job_type_info.
    rewrite bool_decide_eq_true. split.
    - intros Hin. destruct (list_to_map job_type_items !! jt) eqn:E; [eauto|].
      apply not_elem_of_list_to_map_2 in E. contradiction.
    - intros [info E] .
      destruct (decide (jt ∈ job_type_items.*1)) as [|Hn]; [assumption|].
      apply (not_elem_of_list_to_map_1 (M := gmap string)) in Hn. congruence. }
  split.
  { intros jt. unfold parser_accepts. rewrite bool_decide_eq_true. reflexivity. }
  split; [repeat split; vm_compute; reflexivity|].
  intros fuel pages args w.
  destruct (main_submissions_globals fuel pages args w) as [-> ->].
  split; [reflexivity|].
  destruct (job_type_info !! job_type args); reflexivity.
Qed.

Lemma poll_step_updates (pages : nat) (jobName : pystr) (jobId : string)
    (st : Locals) (p : Proc) :
  let s := status (describe_jobs jobId (world p)).1 in
  let R := poll_step pages jobName jobId st p in
  observed (trace (run_proc R)) = observed (trace p) ++ [s] /\
  status_updates (trace (run_proc R)) =
    status_updates (trace p) ++
    (if bool_decide (other_status s /\ s ∉ status_set st) then [s] else []) /\
  match R with
  | Polling st' _ =>
      status_set st' =
        if bool_decide (other_status s /\ s ∉ status_set st)
        then {[s]} ∪ status_set st else status_set st
  | _ => True
  end.
Proof.
  intros s R. subst s R.
  destruct (poll_step_spec pages jobName jobId st p)
    as (ext & Ht & _ & Ho & _ & _ & Hu & _).
  rewrite Ht. unfold observed, status_updates in *.
  rewrite !omap_app. cbn [omap list_omap]. rewrite Ho.
  split; [reflexivity|].
  destruct Hu as [(Hoth & Hin & -> & st' & p' & -> & Hset)
                 | (Hno & -> & Hset)].
  - rewrite bool_decide_eq_true_2 by auto. auto.
  - rewrite bool_decide_eq_false_2 by (intros [? ?]; destruct Hno; auto).
    split; [reflexivity|].
    destruct (poll_step _ _ _ _ _) as [| st' p' | |]; eauto.
Qed.

(** C9.  In every run, whatever its length, the one-line status updates
    printed so far are pairwise distinct; a status has an update exactly
    when it was observed and is neither RUNNING nor terminal; the set of
    seen statuses is the set of statuses with an update; and an iteration
    prints an update exactly when the status it observes is such a status
    and is not in the set. *)
Theorem status_update_once (fuel pages : nat) (args : Args) (w : World) :
  let R := main fuel pages args (startup w) in
  NoDup (status_updates (trace (run_proc R))) /\
  (forall s : string,
     s ∈ status_updates (trace (run_proc R)) <->
     other_status s /\ s ∈ observed (trace (run_proc R))) /\
  match R with
  | Polling st _ =>
      forall s : string, s ∈ status_set st <-> s ∈ status_updates (trace (run_proc R))
  | _ => True
  end /\
  (forall (jobName : pystr) (jobId : string) (st : Locals) (p : Proc),
     status_updates (trace (run_proc (poll_step pages jobName jobId st p))) =
       status_updates (trace p) ++
       (if bool_decide (other_status (status (describe_jobs jobId (world p)).1) /\
                        status (describe_jobs jobId (world p)).1 ∉ status_set st)
        then [status (describe_jobs jobId (world p)).1] else [])).
Proof.
  intros R.
  assert (HJ :
    (fun r : Run =>
       NoDup (status_updates (trace (run_proc r))) /\
       (forall s : string,
          s ∈ status_updates (trace (run_proc r)) <->
          other_status s /\ s ∈ observed (trace (run_proc r))) /\
       match r with
       | Polling st _ =>
           forall s : string, s ∈ status_set st <-> s ∈ status_updates (trace (run_proc r))
       | _ => True
       end) R).
  { subst R.
    apply (main_invariant
      (fun st p =>
         NoDup (status_updates (trace p)) /\
         (forall s : string,
            s ∈ status_updates (trace p) <-> other_status s /\ s ∈ observed (trace p)) /\
         (forall s : string, s ∈ status_set st <-> s ∈ status_updates (trace p)))).
    - intros _. cbn. split; [constructor|]. split; [|exact I].
      intros s. rewrite !elem_of_nil. tauto.
    - intros info jobId p1 _ Ht _. cbn [run_proc initial_locals status_set].
      rewrite Ht. cbn. split; intros _.
      + split; [constructor|]. split; [|exact I].
        intros s. rewrite !elem_of_nil. tauto.
      + split; [constructor|].
        split; intros s; rewrite ?elem_of_nil, ?elem_of_empty; tauto.
    - intros st p H. exact H.
    - intros jobId st p (Hnd & Hiff & Hset).
      destruct (poll_step_updates pages (sanitize_jobName (name args)) jobId st p)
        as (Ho & Hu & Hs).
      set (s := status (describe_jobs jobId (world p)).1) in *.
      set (R' := poll_step pages (sanitize_jobName (name args)) jobId st p) in *.
      assert (HA : NoDup (status_updates (trace (run_proc R'))) /\
        (forall s0 : string,
            s0 ∈ status_updates (trace (run_proc R')) <->
            other_status s0 /\ s0 ∈ observed (trace (run_proc R')))).
      { rewrite Ho, Hu. case_bool_decide as Hc.
        - destruct Hc as [Hoth Hnin]. split.
          + apply NoDup_app. split; [assumption|]. split; [|apply NoDup_singleton].
            intros x Hx Hx'. apply list_elem_of_singleton in Hx'. subst x.
            apply Hnin, Hset, Hx.
          + intros s0. rewrite !elem_of_app, !list_elem_of_singleton, Hiff.
            split; [intros [[? ?]| ->]; auto | intros [? [?| ->]]; auto].
        - rewrite app_nil_r. split; [assumption|].
          intros s0. rewrite elem_of_app, list_elem_of_singleton, Hiff.
          split; [intros [? ?]; auto|].
          intros [Hoth [?| ->]]; [auto|].
          destruct (decide (s ∈ status_set st)) as [Hin|Hnin].
          + apply Hiff, Hset, Hin.
          + exfalso. apply Hc. auto. }
      destruct HA as [HA1 HA2].
      destruct R' as [code p'|st' p'|p'|e p']; cbn [run_proc] in *; auto.
      split; [assumption|]. split; [assumption|].
      intros s0. rewrite Hs, Hu. case_bool_decide.
      + rewrite elem_of_union, elem_of_singleton, elem_of_app, list_elem_of_singleton, Hset.
        tauto.
      + rewrite app_nil_r. apply Hset. }
  destruct HJ as (H1 & H2 & H3). split; [assumption|]. split; [assumption|].
  split; [assumption|].
  intros jobName jobId st p.
  apply (poll_step_updates pages jobName jobId st p).
Qed.

(** More fuel continues the loop where less fuel left it. *)
Lemma poll_add (n k pages : nat) (jobName : pystr) (jobId : string)
    (st : Locals) (p : Proc) :
  poll (n + k) pages jobName jobId st p =
  match poll n pages jobName jobId st p with
  | Polling st' p' => poll k pages jobName jobId st' p'
  | r => r
  end.
Proof.
  revert st p. induction n as [|n IH]; intros st p; cbn [poll Nat.add]; [reflexivity|].
  destruct (poll_step pages jobName jobId st p); auto.
Qed.

(** [main] with a job type of the registry: the submission, then the loop. *)
Lemma main_known (fuel pages : nat) (args : Args) (w : World) (info : JobInfo) :
  job_type_info !! job_type args = Some info ->
  main fuel pages args (startup w) =
    let jobId := (submit_job (submit_kwargs args info) w).1 in
    let p1 := print (Submitted (sanitize_jobName (name args)) jobId (job_queue info))
                    (call_submit_job (submit_kwargs args info) (startup w)).2 in
    if wait args
    then poll fuel pages (sanitize_jobName (name args)) jobId initial_locals p1
    else Exited 0 p1.
Proof.
  intros H. unfold main, call_submit_job, startup. cbn [globals world]. rewrite H.
  destruct (submit_job (submit_kwargs args info) w) as [jobId w']. reflexivity.
Qed.

(** C4.  A run that is not asked to wait ends with exit code 0.  A run
    that waits and has ended through [sys.exit] has seen a terminal status
    last, has printed the rule and the summary of the job with that status
    as its last two lines, and has a nonzero exit code exactly when that
    status is FAILED; the only exception the script raises itself in the
    loop is the [KeyError] of a RUNNING answer without a log stream name
    (what the service calls raise is not modelled).  An iteration
    that observes a terminal status first flushes the log, and is inside
    that flush only as long as [printLogs] has not returned; once it has,
    the iteration prints the summary and exits with 1 for FAILED and 0
    for SUCCEEDED.  So a run that is at the top of the loop when the
    service reports a terminal status ends with that exit code as soon as
    the flush returns, however long it is run, and a run that has exited
    stays as it is. *)
Theorem exit_code_failed_iff (fuel pages : nat) (args : Args) (w : World) :
  parser_accepts (job_type args) = true ->
  (wait args = false ->
   exists p, main fuel pages args (startup w) = Exited 0 p) /\
  (wait args = true ->
   match main fuel pages args (startup w) with
   | Exited code p =>
       exists (pre : list Event) (jobId s : string),
         trace p = pre ++ [Print Rule80;
                           Print (JobFinished (sanitize_jobName (name args)) jobId s)] /\
         last (observed (trace p)) = Some s /\
         (s = "SUCCEEDED"%string \/ s = "FAILED"%string) /\
         (code <> 0 <-> s = "FAILED"%string) /\
         (code = 0 <-> s = "SUCCEEDED"%string)
   | Raised e p =>
       e = KeyError /\ last (observed (trace p)) = Some "RUNNING"%string
   | Polling _ _ | Fetching _ => True
   end) /\
  (forall (jobName : pystr) (jobId : string) (st : Locals) (p : Proc),
     let s := status (call_describe_jobs jobId p).1 in
     s = "SUCCEEDED"%string \/ s = "FAILED"%string ->
     poll_step pages jobName jobId st p =
       match fetch_logs pages (logStreamName st) (startTime st)
                        (call_describe_jobs jobId p).2 with
       | Fetched _ p1 =>
           Exited (if String.eqb s "FAILED" then 1 else 0)
                  (print (JobFinished jobName jobId s) (print Rule80 p1))
       | Paging p1 => Fetching p1
       end) /\
  (forall (info : JobInfo) (st : Locals) (p : Proc),
     wait args = true ->
     job_type_info !! job_type args = Some info ->
     main fuel pages args (startup w) = Polling st p ->
     let jobId := (submit_job (submit_kwargs args info) w).1 in
     let s := status (call_describe_jobs jobId p).1 in
     s = "SUCCEEDED"%string \/ s = "FAILED"%string ->
     forall (t : Z) (p1 : Proc),
       fetch_logs pages (logStreamName st) (startTime st)
                  (call_describe_jobs jobId p).2 = Fetched t p1 ->
       forall fuel' : nat, (fuel < fuel')%nat ->
         main fuel' pages args (startup w) =
           Exited (if String.eqb s "FAILED" then 1 else 0)
                  (print (JobFinished (sanitize_jobName (name args)) jobId s)
                         (print Rule80 p1))) /\
  (forall (code : Z) (p : Proc) (fuel' : nat),
     main fuel pages args (startup w) = Exited code p ->
     (fuel <= fuel')%nat ->
     main fuel' pages args (startup w) = Exited code p).
Proof.
  intros Hacc.
  assert (Hsome : is_Some (job_type_info !! job_type args)).
  { unfold parser_accepts, job_type_choices, job_type_info in *.
    apply bool_decide_eq_true in Hacc.
    destruct (list_to_map job_type_items !! job_type args) eqn:E; [eauto|].
    apply not_elem_of_list_to_map_2 in E. contradiction. }
  destruct Hsome as [info0 Hinfo].
  assert (Hstep : forall (jobName : pystr) (jobId : string) (st : Locals) (p : Proc),
    let s := status (call_describe_jobs jobId p).1 in
    s = "SUCCEEDED"%string \/ s = "FAILED"%string ->
    poll_step pages jobName jobId st p =
      match fetch_logs pages (logStreamName st) (startTime st)
                       (call_describe_jobs jobId p).2 with
      | Fetched _ p1 =>
          Exited (if String.eqb s "FAILED" then 1 else 0)
                 (print (JobFinished jobName jobId s) (print Rule80 p1))
      | Paging p1 => Fetching p1
      end).
  { intros jobName jobId st p s Hs. subst s.
    destruct (call_describe_jobs jobId p) as [job p0] eqn:E. cbn [fst snd] in *.
    rewrite (poll_step_terminal _ _ _ _ _ _ _ E Hs).
    destruct (fetch_logs _ _ _ _); reflexivity. }
  split; [|split; [|split; [exact Hstep|split]]].
  - intros Hwait. rewrite (main_known fuel pages args w info0 Hinfo). cbv zeta.
    rewrite Hwait. eauto.
  - intros Hwait.
    apply (main_invariant (fun _ _ => True)
      (fun r => match r with
                | Exited code p =>
                    exists (pre : list Event) (jobId s : string),
                      trace p = pre ++ [Print Rule80;
                                        Print (JobFinished (sanitize_jobName (name args))
                                                 jobId s)] /\
                      last (observed (trace p)) = Some s /\
                      (s = "SUCCEEDED"%string \/ s = "FAILED"%string) /\
                      (code <> 0 <-> s = "FAILED"%string) /\
                      (code = 0 <-> s = "SUCCEEDED"%string)
                | Raised e p =>
                    e = KeyError /\ last (observed (trace p)) = Some "RUNNING"%string
                | Polling _ _ | Fetching _ => True
                end)).
    + intros Hn. congruence.
    + intros info jobId p1 _ _ _. split; [congruence|auto].
    + auto.
    + intros jobId st p _.
      destruct (call_describe_jobs_eq jobId p) as (job & p0 & E & _ & Hp0 & _).
      destruct (status_cases (status job)) as [Hterm | [Hrun | Hother]].
      * rewrite (poll_step_terminal _ _ _ _ _ _ _ E Hterm).
        destruct (fetch_logs_ext pages (logStreamName st) (startTime st) p0)
          as (ext & Ht & _ & Hf).
        destruct (fetch_event_silent _ ext Hf) as (Ho & _).
        destruct (fetch_logs pages (logStreamName st) (startTime st) p0) as [t p1|p1];
          [|exact I].
        cbn [fetch_proc] in Ht. exists (trace p1), jobId, (status job).
        cbn [print emit trace]. split; [rewrite <- app_assoc; reflexivity|].
        split.
        { rewrite Ht, Hp0. unfold observed in *. rewrite !omap_app, Ho.
          cbn [omap list_omap]. rewrite !app_nil_r. apply last_snoc. }
        split; [exact Hterm|].
        destruct Hterm as [H|H]; rewrite H; cbn; split; split;
          intros; auto; try discriminate; try congruence; try lia.
      * destruct (container_logStreamName job) as [sn|] eqn:Hsn.
        -- rewrite (poll_step_running _ _ _ _ _ _ _ _ E Hrun Hsn). cbv zeta.
           destruct (fetch_logs _ _ _ _); exact I.
        -- rewrite (poll_step_keyerror _ _ _ _ _ _ _ E Hrun Hsn).
           split; [reflexivity|]. rewrite Hp0. unfold observed.
           rewrite omap_app. cbn [omap list_omap]. rewrite Hrun. apply last_snoc.
      * rewrite (poll_step_other _ _ _ _ _ _ _ E Hother).
        case_bool_decide; exact I.
  - intros info st p Hwait Hl Hmain jobId s Hs t p1 Hfetch fuel' Hlt.
    rewrite (main_known fuel pages args w info Hl) in Hmain. cbv zeta in Hmain.
    rewrite Hwait in Hmain.
    rewrite (main_known fuel' pages args w info Hl). cbv zeta. rewrite Hwait.
    replace fuel' with (fuel + S (fuel' - S fuel))%nat by lia.
    rewrite poll_add. fold jobId. fold jobId in Hmain. rewrite Hmain.
    cbn [poll]. rewrite (Hstep _ jobId st p Hs). fold s. rewrite Hfetch. reflexivity.
  - intros code p fuel' Hmain Hle.
    rewrite (main_known fuel pages args w info0 Hinfo) in Hmain.
    rewrite (main_known fuel' pages args w info0 Hinfo).
    cbv zeta in *. destruct (wait args); [|exact Hmain].
    replace fuel' with (fuel + (fuel' - fuel))%nat by lia.
    rewrite poll_add, Hmain. reflexivity.
Qed.

(** ** Pagination *)

Lemma log_calls_lines (evs : list LogEvent) :
  omap (fun e => match e with CallGetLogEvents k r => Some (k, r) | _ => None end)
       (map (fun ev => Print (LogLine (timestamp ev) (message ev))) evs) = [].
Proof. induction evs; simpl; auto. Qed.

Lemma new_token_Some (kwargs : LogRequest) (r : LogResponse) (tok : string) :
  new_token kwargs r = Some tok <->
  nextForwardToken r = Some tok /\ tok <> EmptyString /\
  kw_nextToken kwargs <> Some tok.
Proof.
  unfold new_token, truthy.
  destruct (nextForwardToken r) as [t|]; [|split; [discriminate|intros [? _]; discriminate]].
  destruct (String.eqb_spec t EmptyString) as [->|Hne].
  - split; [discriminate|]. intros ([= <-] & H & _). contradiction.
  - case_bool_decide as Hd.
    + split; [discriminate|]. intros ([= <-] & _ & H). contradiction.
    + split.
      * intros [= <-]. auto.
      * intros ([= <-] & _ & _). reflexivity.
Qed.

Lemma new_token_None (kwargs : LogRequest) (r : LogResponse) :
  new_token kwargs r = None <->
  forall tok, nextForwardToken r = Some tok ->
              tok = EmptyString \/ kw_nextToken kwargs = Some tok.
Proof.
  split.
  - intros Hn tok Htok.
    destruct (String.eqb_spec tok EmptyString) as [|Hne]; [auto|].
    destruct (decide (kw_nextToken kwargs = Some tok)) as [|Hd]; [auto|].
    assert (new_token kwargs r = Some tok) by (apply new_token_Some; auto).
    congruence.
  - intros H. destruct (new_token kwargs r) as [tok|] eqn:E; [|reflexivity].
    apply new_token_Some in E. destruct E as (E1 & E2 & E3).
    destruct (H tok E1); contradiction.
Qed.

Lemma single_page (kwargs : LogRequest) (w w' : World) (r : LogResponse) :
  get_log_events kwargs w = (r, w') ->
  forall (i : nat) (k : LogRequest) (r0 : LogResponse),
    [(kwargs, r)] !! i = Some (k, r0) ->
    k = (nth_page i kwargs w).1 /\
    r0 = (get_log_events k (nth_page i kwargs w).2).1.
Proof.
  intros Eg [|i] k r0 H; [|discriminate H].
  injection H as <- <-. cbn [nth_page fst snd]. rewrite Eg. auto.
Qed.

(** C8.  Provided the service, followed by the protocol, brings no new
    token at some page [n], the loop of [printLogs] returns within [n + 1]
    requests, and the requests it made follow the pagination protocol: the
    first is the request for the given group, stream and [startTime], from
    the head and without a token; each further page is asked for with the
    same request carrying the forward token the previous response brought,
    exactly while that token is present, non-empty and differs from the one
    the request carried; and the loop stops at the first response whose
    token is absent, empty or unchanged.  The [i]-th request made is the
    [i]-th page of the protocol, and the response recorded with it is what
    the service answered. *)
Theorem printLogs_paging (n pages : nat) (logGroupName0 logStreamName0 : string)
    (startTime0 : Z) (p : Proc) :
  token_repeats_at n (mkLogRequest logGroupName0 logStreamName0 startTime0 true None)
                   (world p) ->
  (n < pages)%nat ->
  exists ts p' calls,
    printLogs pages logGroupName0 logStreamName0 startTime0 p = Fetched ts p' /\
    log_calls (trace p') = log_calls (trace p) ++ calls /\
    paged (mkLogRequest logGroupName0 logStreamName0 startTime0 true None) calls /\
    (length calls <= S n)%nat /\
    (forall (i : nat) (k : LogRequest) (r : LogResponse),
       calls !! i = Some (k, r) ->
       k = (nth_page i
              (mkLogRequest logGroupName0 logStreamName0 startTime0 true None)
              (world p)).1 /\
       r = (get_log_events k
              (nth_page i
                 (mkLogRequest logGroupName0 logStreamName0 startTime0 true None)
                 (world p)).2).1).
Proof.
  unfold printLogs.
  generalize (mkLogRequest logGroupName0 logStreamName0 startTime0 true None)
    as kwargs, (startTime0 - 1) as last.
  intros kwargs last.
  revert pages kwargs last p.
  induction n as [|n IH]; intros pages kwargs last p Hrep Hlt;
    (destruct pages as [|pages]; [lia|]);
    cbn [printLogs_loop]; unfold call_get_log_events;
    unfold token_repeats_at in Hrep; cbn [nth_page] in Hrep;
    destruct (get_log_events kwargs (world p)) as [r w'] eqn:Eg;
    rewrite print_events_eq; cbn [emit world trace globals].
  - cbn [fst snd] in Hrep. rewrite Eg in Hrep. cbn [fst] in Hrep.
    rewrite (proj2 (new_token_None kwargs r) Hrep).
    eexists _, _, [(kwargs, r)]. split; [reflexivity|]. cbn [trace].
    split; [|split; [|split; [simpl; lia | exact (single_page _ _ _ _ Eg)]]].
    + unfold log_calls. rewrite !omap_app, log_calls_lines, app_nil_r. reflexivity.
    + apply paged_stop, Hrep.
  - destruct (new_token kwargs r) as [tok|] eqn:Etok.
    + apply new_token_Some in Etok. destruct Etok as (E1 & E2 & E3).
      rewrite E1 in Hrep.
      edestruct (IH pages (set_nextToken tok kwargs)
                   (fold_left (fun _ ev => timestamp ev) (events r) last)
                   (mkProc w'
                      ((trace p ++ [CallGetLogEvents kwargs r]) ++
                       map (fun ev => Print (LogLine (timestamp ev) (message ev)))
                           (events r))
                      (globals p)))
        as (ts & p' & calls & Hrun & Hcalls & Hpaged & Hlen & Hpages);
        [exact Hrep | lia |].
      exists ts, p', ((kwargs, r) :: calls).
      split; [exact Hrun|]. split; [|split; [|split; [simpl; lia|]]].
      * rewrite Hcalls. cbn [trace]. unfold log_calls.
        rewrite !omap_app, log_calls_lines, app_nil_r, <- app_assoc. reflexivity.
      * apply (paged_next kwargs r tok (set_nextToken tok kwargs) calls E1 E2 E3);
          [|exact Hpaged].
        unfold asks_next_page, set_nextToken. cbn. repeat split.
      * intros [|i] k r0 Hi.
        -- injection Hi as <- <-. cbn [nth_page fst snd]. rewrite Eg. auto.
        -- cbn [nth_page]. rewrite Eg, E1. cbn [world] in Hpages.
           exact (Hpages i k r0 Hi).
    + eexists _, _, [(kwargs, r)]. split; [reflexivity|]. cbn [trace].
      split; [|split; [|split; [simpl; lia | exact (single_page _ _ _ _ Eg)]]].
      * unfold log_calls. rewrite !omap_app, log_calls_lines, app_nil_r. reflexivity.
      * apply paged_stop. unfold no_new_token. apply new_token_None, Etok.
Qed.

(** ** The log watermark *)

Section Watermark.

(** The contract of the log service: a request with [startTime = t] is
    answered only with events whose timestamp is at least [t]. *)
Hypothesis events_from_startTime :
  forall (kwargs : LogRequest) (w : World),
    Forall (fun ev => kw_startTime kwargs <= timestamp ev)
           (events (get_log_events kwargs w).1).

Lemma last_timestamp_bound (t : Z) (evs : list LogEvent) (last : Z) :
  Forall (fun ev => t <= timestamp ev) evs ->
  t - 1 <= last ->
  t - 1 <= fold_left (fun _ ev => timestamp ev) evs last.
Proof.
  intros H. revert last. induction H as [|ev evs Hev _ IH]; intros last Hl; simpl.
  - exact Hl.
  - apply IH. lia.
Qed.

Lemma printLogs_loop_bound (pages : nat) (kwargs : LogRequest) (last : Z) (p : Proc) :
  kw_startTime kwargs - 1 <= last ->
  match printLogs_loop pages kwargs last p with
  | Fetched ts _ => kw_startTime kwargs - 1 <= ts
  | Paging _ => True
  end.
Proof.
  revert kwargs last p. induction pages as [|pages IH]; intros kwargs last p Hl.
  - exact I.
  - cbn [printLogs_loop]. unfold call_get_log_events.
    pose proof (events_from_startTime kwargs (world p)) as Hev.
    destruct (get_log_events kwargs (world p)) as [r w']. cbn [fst] in Hev.
    rewrite print_events_eq.
    pose proof (last_timestamp_bound _ _ _ Hev Hl) as Hb.
    destruct (new_token kwargs r) as [tok|]; [|exact Hb].
    apply (IH (set_nextToken tok kwargs)). exact Hb.
Qed.

Lemma fetch_logs_bound (pages : nat) (lsn : option string) (t : Z) (p : Proc) :
  match fetch_logs pages lsn t p with
  | Fetched t' _ => t <= t'
  | Paging _ => True
  end.
Proof.
  unfold fetch_logs. destruct (truthy lsn) as [s|]; [|cbn; lia].
  unfold printLogs.
  pose proof (printLogs_loop_bound pages (mkLogRequest logGroupName s t true None)
                (t - 1) p) as H.
  cbn [kw_startTime] in H. specialize (H (Z.le_refl _)).
  destruct (printLogs_loop _ _ _ _); [lia|exact I].
Qed.

Lemma poll_step_startTime (pages : nat) (jobName : pystr) (jobId : string)
    (st : Locals) (p : Proc) :
  match poll_step pages jobName jobId st p with
  | Polling st' _ => startTime st <= startTime st'
  | _ => True
  end.
Proof.
  destruct (call_describe_jobs_eq jobId p) as (job & p0 & E & _ & _ & _).
  destruct (status_cases (status job)) as [Hterm | [Hrun | Hother]].
  - rewrite (poll_step_terminal _ _ _ _ _ _ _ E Hterm).
    destruct (fetch_logs _ _ _ _); exact I.
  - destruct (container_logStreamName job) as [sn|] eqn:Hsn;
      [|rewrite (poll_step_keyerror _ _ _ _ _ _ _ E Hrun Hsn); exact I].
    rewrite (poll_step_running _ _ _ _ _ _ _ _ E Hrun Hsn). cbv zeta.
    match goal with
    | |- context [fetch_logs ?a ?b ?c ?d] =>
        pose proof (fetch_logs_bound a b c d) as H;
        destruct (fetch_logs a b c d)
    end; [exact H | exact I].
  - rewrite (poll_step_other _ _ _ _ _ _ _ E Hother).
    case_bool_decide; cbn; lia.
Qed.

(** C7.  Given a log service that honours [startTime], every call of
    [printLogs] returns a timestamp no smaller than [startTime - 1], no
    iteration of the polling loop moves the watermark backwards, and the
    [startTime] values of all log requests of a run, in the order they are
    made, are non-decreasing and bounded by the current watermark. *)
Theorem log_watermark_monotone (fuel pages : nat) (args : Args) (w : World) :
  (forall (g s : string) (t : Z) (p : Proc),
     match printLogs pages g s t p with
     | Fetched ts _ => t - 1 <= ts
     | Paging _ => True
     end) /\
  (forall (jobName : pystr) (jobId : string) (st : Locals) (p : Proc),
     match poll_step pages jobName jobId st p with
     | Polling st' _ => startTime st <= startTime st'
     | _ => True
     end) /\
  StronglySorted Z.le (watermarks (trace (run_proc (main fuel pages args (startup w))))) /\
  match main fuel pages args (startup w) with
  | Polling st p => Forall (fun t => t <= startTime st) (watermarks (trace p))
  | _ => True
  end.
Proof.
  split.
  { intros g s t p. unfold printLogs.
    apply (printLogs_loop_bound pages (mkLogRequest g s t true None)). cbn. lia. }
  split; [apply poll_step_startTime|].
  assert (HJ :
    (fun r : Run =>
       StronglySorted Z.le (watermarks (trace (run_proc r))) /\
       match r with
       | Polling st p => Forall (fun t => t <= startTime st) (watermarks (trace p))
       | _ => True
       end) (main fuel pages args (startup w))).
  { apply (main_invariant
      (fun st p =>
         StronglySorted Z.le (watermarks (trace p)) /\
         Forall (fun t => t <= startTime st) (watermarks (trace p)))).
    - intros _. cbn. split; [constructor|exact I].
    - intros info jobId p1 _ Ht _. cbn [run_proc]. rewrite Ht. cbn.
      split; intros _; split; constructor.
    - intros st p H. exact H.
    - intros jobId st p [Hs Hb].
      destruct (poll_step_spec pages (sanitize_jobName (name args)) jobId st p)
        as (ext & Ht & _ & _ & _ & Hw & _).
      pose proof (poll_step_startTime pages (sanitize_jobName (name args)) jobId st p)
        as Hmono.
      set (R := poll_step pages (sanitize_jobName (name args)) jobId st p) in *.
      assert (Hwm : watermarks (trace (run_proc R)) =
                    watermarks (trace p) ++ watermarks ext).
      { rewrite Ht. unfold watermarks. rewrite omap_app. reflexivity. }
      assert (Hsorted : StronglySorted Z.le (watermarks (trace (run_proc R)))).
      { rewrite Hwm. apply StronglySorted_app_2; [|assumption|].
        - intros x1 x2 H1 H2.
          rewrite Forall_forall in Hb, Hw.
          rewrite (Hw x2 H2). apply (Hb x1 H1).
        - clear -Hw. induction Hw as [|x l Hx Hl IH]; constructor; [assumption|].
          subst x. eapply Forall_impl; [exact Hl|]. intros y ->. reflexivity. }
      destruct R as [code p'|st' p'|p'|e p']; cbn [run_proc] in *; auto.
      split; [assumption|]. rewrite Hwm. apply Forall_app. split.
      + eapply Forall_impl; [exact Hb|]. intros x Hx. cbv beta in *. lia.
      + eapply Forall_impl; [exact Hw|]. intros x ->. exact Hmono. }
  exact HJ.
Qed.

End Watermark.

(** ** More about the job name *)

Lemma re_sub_outside_class_valid (s : pystr) :
  Forall (fun c => in_class c = true) s -> re_sub_outside_class s = s.
Proof.
  unfold re_sub_outside_class. induction 1 as [|c s Hc _ IH]; simpl; [reflexivity|].
  rewrite Hc, IH. reflexivity.
Qed.

(** X1.  Sanitising a sanitised job name changes nothing. *)
Theorem sanitize_jobName_idempotent (name0 : pystr) :
  sanitize_jobName (sanitize_jobName name0) = sanitize_jobName name0.
Proof.
  unfold sanitize_jobName at 1.
  rewrite re_sub_outside_class_valid by apply sanitize_jobName_Forall.
  apply take_ge, sanitize_jobName_length.
Qed.

(** A job name that is already made of allowed characters and has at most
    128 of them is submitted as it is. *)
Lemma sanitize_jobName_valid_unchanged (name0 : pystr) :
  Forall (fun c => in_class c = true) name0 ->
  (length name0 <= 128)%nat ->
  sanitize_jobName name0 = name0.
Proof.
  intros Hv Hl. unfold sanitize_jobName.
  rewrite re_sub_outside_class_valid by assumption. apply take_ge, Hl.
Qed.

(** X2.  Sanitising only deletes characters: the sanitised name is the input
    with some characters left out, in the input's order; it keeps the first
    128 allowed characters and is shorter than the input exactly when the
    input has a character that is not allowed or more than 128 that are. *)
Theorem sanitize_jobName_sublist (name0 : pystr) :
  sublist (sanitize_jobName name0) name0 /\
  sanitize_jobName name0 `prefix_of` re_sub_outside_class name0 /\
  (sanitize_jobName name0 = name0 <->
   Forall (fun c => in_class c = true) name0 /\ (length name0 <= 128)%nat).
Proof.
  assert (Hsub : sublist (re_sub_outside_class name0) name0).
  { unfold re_sub_outside_class. induction name0 as [|c s IH]; simpl; [constructor|].
    destruct (in_class c); [apply sublist_skip|apply sublist_cons]; exact IH. }
  split; [|split].
  - unfold sanitize_jobName. etransitivity; [apply sublist_take|exact Hsub].
  - unfold sanitize_jobName. apply prefix_take.
  - split.
    + intros E. split.
      * rewrite <- E. apply sanitize_jobName_Forall.
      * rewrite <- E. apply sanitize_jobName_length.
    + intros [Hv Hl]. apply sanitize_jobName_valid_unchanged; assumption.
Qed.

(** ** More about the trace *)

(** The log lines printed, in order. *)
Definition log_lines (tr : list Event) : list (Z * string) :=
  omap (fun e => match e with Print (LogLine t m) => Some (t, m) | _ => None end) tr.

(** The events the service delivered in the given responses, in order. *)
Definition delivered (calls : list (LogRequest * LogResponse)) : list (Z * string) :=
  flat_map (fun kr => map (fun ev => (timestamp ev, message ev)) (events kr.2)) calls.

(** The job ids [describe_jobs] was asked about, and those [submit_job]
    returned. *)
Definition described_ids (tr : list Event) : list string :=
  omap (fun e => match e with CallDescribeJobs i _ => Some i | _ => None end) tr.

Definition submitted_ids (tr : list Event) : list string :=
  omap (fun e => match e with CallSubmitJob _ i => Some i | _ => None end) tr.

(** The log stream names reported together with the status RUNNING. *)
Definition running_streams (tr : list Event) : list (option string) :=
  omap (fun e => match e with
                 | CallDescribeJobs _ job =>
                     if String.eqb (status job) "RUNNING"
                     then Some (container_logStreamName job) else None
                 | _ => None
                 end) tr.

(** The banners [Job ... is RUNNING] printed. *)
Definition running_banners (tr : list Event) : list unit :=
  omap (fun e => match e with Print (JobRunning _ _) => Some tt | _ => None end) tr.

(** The spinner glyphs printed, in order. *)
Definition glyphs (tr : list Event) : list string :=
  omap (fun e => match e with Print (StatusUpdate _ _ _ g) => Some g | _ => None end) tr.

Definition terminal (s : string) : Prop :=
  s = "SUCCEEDED"%string \/ s = "FAILED"%string.

(** What one call of [printLogs] for stream [s] with watermark [t] adds to
    the trace: requests for that stream, from its head, with that
    [startTime], and log lines. *)
Definition fetch_event_of (s : string) (t : Z) (e : Event) : Prop :=
  match e with
  | CallGetLogEvents k _ =>
      kw_logGroupName k = logGroupName /\ kw_logStreamName k = s /\
      kw_startTime k = t /\ kw_startFromHead k = true
  | Print (LogLine _ _) => True
  | _ => False
  end.

(** A request that continues a fetch carries a token. *)
Definition continued (e : Event) : Prop :=
  match e with
  | CallGetLogEvents k _ => kw_nextToken k <> None
  | _ => True
  end.

(** A fetch opens with a request that carries the token [tok]; every later
    request of the fetch continues it. *)
Definition one_fetch (tok : option string) (ext : list Event) : Prop :=
  match ext with
  | [] => True
  | e :: rest =>
      Forall continued rest /\
      exists k r, e = CallGetLogEvents k r /\ kw_nextToken k = tok
  end.

Lemma fetch_event_of_weaken (s : string) (t : Z) (e : Event) :
  fetch_event_of s t e -> fetch_event t e.
Proof. destruct e as [[]| | |k r]; simpl; tauto. Qed.

Lemma log_lines_app (l1 l2 : list Event) :
  log_lines (l1 ++ l2) = log_lines l1 ++ log_lines l2.
Proof. apply omap_app. Qed.

Lemma log_calls_app (l1 l2 : list Event) :
  log_calls (l1 ++ l2) = log_calls l1 ++ log_calls l2.
Proof. apply omap_app. Qed.

Lemma observed_app (l1 l2 : list Event) :
  observed (l1 ++ l2) = observed l1 ++ observed l2.
Proof. apply omap_app. Qed.

Lemma submissions_app (l1 l2 : list Event) :
  submissions (l1 ++ l2) = submissions l1 ++ submissions l2.
Proof. apply omap_app. Qed.

Lemma status_updates_app (l1 l2 : list Event) :
  status_updates (l1 ++ l2) = status_updates l1 ++ status_updates l2.
Proof. apply omap_app. Qed.

Lemma described_ids_app (l1 l2 : list Event) :
  described_ids (l1 ++ l2) = described_ids l1 ++ described_ids l2.
Proof. apply omap_app. Qed.

Lemma submitted_ids_app (l1 l2 : list Event) :
  submitted_ids (l1 ++ l2) = submitted_ids l1 ++ submitted_ids l2.
Proof. apply omap_app. Qed.

Lemma running_streams_app (l1 l2 : list Event) :
  running_streams (l1 ++ l2) = running_streams l1 ++ running_streams l2.
Proof. apply omap_app. Qed.

Lemma running_banners_app (l1 l2 : list Event) :
  running_banners (l1 ++ l2) = running_banners l1 ++ running_banners l2.
Proof. apply omap_app. Qed.

Lemma glyphs_app (l1 l2 : list Event) :
  glyphs (l1 ++ l2) = glyphs l1 ++ glyphs l2.
Proof. apply omap_app. Qed.

Ltac split_trace :=
  repeat match goal with
         | |- context [?e :: ?l] =>
             lazymatch l with
             | [] => fail
             | _ => change (e :: l) with ([e] ++ l)
             end
         end;
  rewrite ?log_lines_app, ?log_calls_app, ?observed_app, ?submissions_app,
    ?status_updates_app, ?described_ids_app, ?submitted_ids_app,
    ?running_streams_app, ?running_banners_app, ?glyphs_app.

Lemma delivered_app (c1 c2 : list (LogRequest * LogResponse)) :
  delivered (c1 ++ c2) = delivered c1 ++ delivered c2.
Proof. apply flat_map_app. Qed.

Lemma delivered_one (k : LogRequest) (r : LogResponse) :
  delivered [(k, r)] = map (fun ev => (timestamp ev, message ev)) (events r).
Proof. unfold delivered. simpl. apply app_nil_r. Qed.

Lemma last_cons_default {A : Type} (l : list A) (a d : A) :
  List.last (a :: l) d = List.last l a.
Proof.
  revert a d. induction l as [|b l IH]; intros a d; [reflexivity|].
  change (List.last (a :: b :: l) d) with (List.last (b :: l) d).
  rewrite (IH b d), (IH b a). reflexivity.
Qed.

Lemma last_app_default {A : Type} (l1 l2 : list A) (d : A) :
  List.last (l1 ++ l2) d = List.last l2 (List.last l1 d).
Proof.
  revert d. induction l1 as [|a l1 IH]; intros d; [reflexivity|].
  rewrite <- app_comm_cons, !last_cons_default. apply IH.
Qed.

Lemma fold_left_last_timestamp (evs : list LogEvent) (last : Z) :
  fold_left (fun _ ev => timestamp ev) evs last =
  List.last (map (fun ev => (timestamp ev, message ev)) evs).*1 last.
Proof.
  revert last. induction evs as [|e evs IH]; intros last; [reflexivity|].
  simpl fold_left. rewrite IH. cbn [map fmap list_fmap fst].
  symmetry. apply last_cons_default.
Qed.

Lemma log_lines_lines (evs : list LogEvent) :
  log_lines (map (fun ev => Print (LogLine (timestamp ev) (message ev))) evs) =
  map (fun ev => (timestamp ev, message ev)) evs.
Proof. induction evs as [|e evs IH]; simpl; [reflexivity|]. f_equal. exact IH. Qed.

Lemma printLogs_loop_more (pages : nat) (kwargs : LogRequest) (last : Z) (p : Proc) :
  kw_logGroupName kwargs = logGroupName ->
  kw_startFromHead kwargs = true ->
  exists ext,
    trace (fetch_proc (printLogs_loop pages kwargs last p)) = trace p ++ ext /\
    Forall (fetch_event_of (kw_logStreamName kwargs) (kw_startTime kwargs)) ext /\
    one_fetch (kw_nextToken kwargs) ext /\
    log_lines ext = delivered (log_calls ext) /\
    match printLogs_loop pages kwargs last p with
    | Fetched ts _ => ts = List.last (log_lines ext).*1 last
    | Paging _ => True
    end.
Proof.
  revert kwargs last p. induction pages as [|pages IH]; intros kwargs last p Hg Hh.
  - exists []. simpl. rewrite app_nil_r. repeat split; constructor.
  - cbn [printLogs_loop]. unfold call_get_log_events.
    destruct (get_log_events kwargs (world p)) as [r w].
    rewrite print_events_eq. cbn [emit world trace globals].
    set (lines := map (fun ev => Print (LogLine (timestamp ev) (message ev))) (events r)).
    assert (Hl : Forall (fetch_event_of (kw_logStreamName kwargs) (kw_startTime kwargs))
                        (CallGetLogEvents kwargs r :: lines)).
    { constructor; [simpl; auto|].
      subst lines. clear. induction (events r); simpl; constructor; simpl; auto. }
    assert (Hll : log_lines (CallGetLogEvents kwargs r :: lines) =
                  map (fun ev => (timestamp ev, message ev)) (events r)).
    { subst lines. apply log_lines_lines. }
    assert (Hlc : log_calls (CallGetLogEvents kwargs r :: lines) = [(kwargs, r)]).
    { subst lines. unfold log_calls. cbn [omap list_omap].
      rewrite log_calls_lines. reflexivity. }
    assert (Hc : Forall continued lines).
    { subst lines. clear. induction (events r); simpl; constructor; simpl; auto. }
    destruct (new_token kwargs r) as [tok|].
    + edestruct (IH (set_nextToken tok kwargs)) as (ext & Ht & Hf & Ho & Hd & Hts);
        [exact Hg | exact Hh |].
      exists ((CallGetLogEvents kwargs r :: lines) ++ ext).
      split; [rewrite Ht; cbn [trace]; rewrite <- !app_assoc; reflexivity|].
      split; [apply Forall_app; split; assumption|].
      split.
      { split; [|eauto]. apply Forall_app. split; [exact Hc|].
        destruct ext as [|e ext]; [constructor|].
        destruct Ho as [Hrest (k & r' & -> & Hk)].
        constructor; [simpl; rewrite Hk; discriminate | exact Hrest]. }
      split.
      * rewrite log_lines_app, log_calls_app, delivered_app, Hll, Hlc, Hd, delivered_one.
        reflexivity.
      * destruct (printLogs_loop pages _ _ _) as [ts p'|p']; [|exact I].
        rewrite Hts, log_lines_app, Hll, fmap_app.
        rewrite last_app_default, fold_left_last_timestamp. reflexivity.
    + cbn [fetch_proc trace]. exists (CallGetLogEvents kwargs r :: lines).
      split; [rewrite <- !app_assoc; reflexivity|]. split; [assumption|].
      split; [split; [exact Hc | eauto]|].
      split.
      * rewrite Hll, Hlc, delivered_one. reflexivity.
      * rewrite Hll. apply fold_left_last_timestamp.
Qed.

(** X3.  Whether it returns or is still paging, [printLogs] asks only for
    the given stream of the given group, from its head and with the given
    [startTime], and prints exactly the events the service delivered, page
    after page, in order; when it returns, it returns the timestamp of the
    last line it printed, or [startTime - 1] if it printed none. *)
Theorem printLogs_prints_delivered (pages : nat) (g s : string) (t : Z) (p : Proc) :
  exists ext,
    trace (fetch_proc (printLogs pages g s t p)) = trace p ++ ext /\
    Forall (fun k => kw_logGroupName k = g /\ kw_logStreamName k = s /\
                     kw_startTime k = t /\ kw_startFromHead k = true)
           (log_calls ext).*1 /\
    observed ext = [] /\ submissions ext = [] /\
    log_lines ext = delivered (log_calls ext) /\
    match printLogs pages g s t p with
    | Fetched ts _ => ts = List.last (log_lines ext).*1 (t - 1)
    | Paging _ => length (log_calls ext) = pages
    end.
Proof.
  unfold printLogs.
  assert (G : forall pages kwargs last p,
    exists ext,
      trace (fetch_proc (printLogs_loop pages kwargs last p)) = trace p ++ ext /\
      Forall (fun k => kw_logGroupName k = kw_logGroupName kwargs /\
                       kw_logStreamName k = kw_logStreamName kwargs /\
                       kw_startTime k = kw_startTime kwargs /\
                       kw_startFromHead k = kw_startFromHead kwargs)
             (log_calls ext).*1 /\
      observed ext = [] /\ submissions ext = [] /\
      log_lines ext = delivered (log_calls ext) /\
      match printLogs_loop pages kwargs last p with
      | Fetched ts _ => ts = List.last (log_lines ext).*1 last
      | Paging _ => length (log_calls ext) = pages
      end).
  { clear. intros pages. induction pages as [|pages IH]; intros kwargs last p.
    - exists []. simpl. rewrite app_nil_r. repeat split; constructor.
    - cbn [printLogs_loop]. unfold call_get_log_events.
      destruct (get_log_events kwargs (world p)) as [r w].
      rewrite print_events_eq. cbn [emit world trace globals].
      set (lines := map (fun ev => Print (LogLine (timestamp ev) (message ev)))
                        (events r)).
      assert (Hll : log_lines (CallGetLogEvents kwargs r :: lines) =
                    map (fun ev => (timestamp ev, message ev)) (events r)).
      { subst lines. apply log_lines_lines. }
      assert (Hlc : log_calls (CallGetLogEvents kwargs r :: lines) = [(kwargs, r)]).
      { subst lines. unfold log_calls. cbn [omap list_omap].
        rewrite log_calls_lines. reflexivity. }
      assert (Hlo : observed (CallGetLogEvents kwargs r :: lines) = [] /\
                    submissions (CallGetLogEvents kwargs r :: lines) = []).
      { subst lines. unfold observed, submissions. cbn [omap list_omap].
        clear. induction (events r); simpl; auto. }
      destruct Hlo as [Hlo Hls].
      destruct (new_token kwargs r) as [tok|].
      + destruct (IH (set_nextToken tok kwargs)
                    (fold_left (fun _ ev => timestamp ev) (events r) last)
                    (mkProc w ((trace p ++ [CallGetLogEvents kwargs r]) ++ lines)
                            (globals p)))
          as (ext & Ht & Hf & Ho & Hs & Hd & Hts).
        exists ((CallGetLogEvents kwargs r :: lines) ++ ext).
        split; [rewrite Ht; cbn [trace]; rewrite <- !app_assoc; reflexivity|].
        rewrite log_lines_app, log_calls_app, observed_app, submissions_app,
          delivered_app, Hll, Hlc, Hlo, Hls, Hd, Ho, Hs, delivered_one.
        split; [constructor; [auto|exact Hf]|].
        split; [reflexivity|]. split; [reflexivity|].
        split; [reflexivity|].
        destruct (printLogs_loop pages _ _ _) as [ts p'|p'].
        * rewrite Hts, Hd, fmap_app, last_app_default, fold_left_last_timestamp.
          reflexivity.
        * simpl. rewrite Hts. reflexivity.
      + cbn [fetch_proc trace]. exists (CallGetLogEvents kwargs r :: lines).
        split; [rewrite <- !app_assoc; reflexivity|].
        rewrite Hll, Hlc, Hlo, Hls, delivered_one.
        split; [repeat constructor|].
        split; [reflexivity|]. split; [reflexivity|].
        split; [reflexivity|].
        apply fold_left_last_timestamp. }
  apply (G pages (mkLogRequest g s t true None) (t - 1) p).
Qed.

(** ** One iteration, event by event *)

(** What a log fetch with the stream name [lsn] at hand and the watermark
    [t] adds to the trace, and the watermark [t'] it leaves if it returns. *)
Definition fetched_by (lsn : option string) (t : Z) (fetched : list Event)
    (t' : option Z) : Prop :=
  match truthy lsn with
  | Some s => Forall (fetch_event_of s t) fetched
  | None => fetched = []
  end /\
  one_fetch None fetched /\
  log_lines fetched = delivered (log_calls fetched) /\
  match t' with
  | Some t' => t' = List.last (log_lines fetched).*1 (t - 1) + 1
  | None => True
  end.

(** The banner printed when RUNNING is seen for the first time. *)
Definition banner (jobName : pystr) (jobId : string) (st : Locals)
    (job : JobDescription) : list Event :=
  if running st then []
  else Print (JobRunning jobName jobId) ::
       match truthy (container_logStreamName job) with
       | Some s => [Print (OutputHeader s)]
       | None => []
       end.

(** The outcomes of one iteration that starts with the trace [tr] and is
    told [job] by [describe_jobs]. *)
Inductive step_of (jobName : pystr) (jobId : string) (st : Locals)
    (tr : list Event) (job : JobDescription) : Run -> Prop :=
| step_exit fetched t' p' :
    terminal (status job) ->
    fetched_by (logStreamName st) (startTime st) fetched (Some t') ->
    trace p' = tr ++ CallDescribeJobs jobId job :: fetched ++
               [Print Rule80; Print (JobFinished jobName jobId (status job))] ->
    step_of jobName jobId st tr job
      (Exited (if String.eqb (status job) "FAILED" then 1 else 0) p')
| step_exit_paging fetched p' :
    terminal (status job) ->
    fetched_by (logStreamName st) (startTime st) fetched None ->
    trace p' = tr ++ CallDescribeJobs jobId job :: fetched ->
    step_of jobName jobId st tr job (Fetching p')
| step_running fetched t' p' :
    status job = "RUNNING"%string ->
    fetched_by (container_logStreamName job) (startTime st) fetched (Some t') ->
    trace p' = tr ++ CallDescribeJobs jobId job ::
               banner jobName jobId st job ++ fetched ->
    is_Some (container_logStreamName job) ->
    step_of jobName jobId st tr job
      (Polling (mkLocals (spinner st) true (status_set st) t'
                         (container_logStreamName job)) p')
| step_running_paging fetched p' :
    status job = "RUNNING"%string ->
    fetched_by (container_logStreamName job) (startTime st) fetched None ->
    trace p' = tr ++ CallDescribeJobs jobId job ::
               banner jobName jobId st job ++ fetched ->
    is_Some (container_logStreamName job) ->
    step_of jobName jobId st tr job (Fetching p')
| step_new p' :
    other_status (status job) ->
    status job ∉ status_set st ->
    trace p' = tr ++ [CallDescribeJobs jobId job;
                      Print (StatusUpdate jobName jobId (status job)
                               (nth (spinner st mod length spin) spin EmptyString))] ->
    step_of jobName jobId st tr job
      (Polling (mkLocals (spinner st + 1) (running st)
                         ({[status job]} ∪ status_set st)
                         (startTime st) (logStreamName st)) p')
| step_seen p' :
    other_status (status job) ->
    status job ∈ status_set st ->
    trace p' = tr ++ [CallDescribeJobs jobId job] ->
    step_of jobName jobId st tr job (Polling st p')
| step_keyerror p' :
    status job = "RUNNING"%string ->
    container_logStreamName job = None ->
    trace p' = tr ++ [CallDescribeJobs jobId job] ->
    step_of jobName jobId st tr job (Raised KeyError p').

Lemma fetch_logs_more (pages : nat) (lsn : option string) (t : Z) (p : Proc) :
  exists fetched,
    trace (fetch_proc (fetch_logs pages lsn t p)) = trace p ++ fetched /\
    fetched_by lsn t fetched
      match fetch_logs pages lsn t p with
      | Fetched t' _ => Some t'
      | Paging _ => None
      end.
Proof.
  unfold fetch_logs, fetched_by. destruct (truthy lsn) as [s|].
  - unfold printLogs.
    destruct (printLogs_loop_more pages (mkLogRequest logGroupName s t true None)
                (t - 1) p eq_refl eq_refl) as (ext & Ht & Hf & Ho & Hd & Hts).
    exists ext. cbn [kw_logStreamName kw_startTime] in Hf.
    destruct (printLogs_loop _ _ _ _) as [ts p'|p']; cbn [fetch_proc] in *;
      repeat split; auto. rewrite Hts. reflexivity.
  - exists []. cbn. rewrite app_nil_r. repeat split; auto. lia.
Qed.

Lemma poll_step_shape (pages : nat) (jobName : pystr) (jobId : string)
    (st : Locals) (p : Proc) :
  step_of jobName jobId st (trace p) (describe_jobs jobId (world p)).1
          (poll_step pages jobName jobId st p).
Proof.
  destruct (call_describe_jobs_eq jobId p) as (job & p0 & E & Ej & Hp0 & Hg0).
  rewrite <- Ej.
  destruct (status_cases (status job)) as [Hterm | [Hrun | Hother]].
  - rewrite (poll_step_terminal _ _ _ _ _ _ _ E Hterm).
    destruct (fetch_logs_more pages (logStreamName st) (startTime st) p0)
      as (fetched & Ht & Hf).
    destruct (fetch_logs pages (logStreamName st) (startTime st) p0) as [t' p1|p1];
      cbn [fetch_proc] in Ht.
    + eapply step_exit; [exact Hterm | exact Hf |].
      cbn [print emit trace]. rewrite Ht, Hp0, <- !app_assoc. reflexivity.
    + eapply step_exit_paging; [exact Hterm | exact Hf |].
      rewrite Ht, Hp0, <- !app_assoc. reflexivity.
  - destruct (container_logStreamName job) as [sn|] eqn:Hsn.
    2:{ rewrite (poll_step_keyerror _ _ _ _ _ _ _ E Hrun Hsn).
        apply step_keyerror; [exact Hrun | exact Hsn | exact Hp0]. }
    rewrite (poll_step_running _ _ _ _ _ _ _ _ E Hrun Hsn). cbv zeta.
    set (p1 := if running st then p0 else _).
    assert (Hp1 : trace p1 = trace p0 ++ banner jobName jobId st job).
    { subst p1. unfold banner. destruct (running st); [rewrite app_nil_r; reflexivity|].
      destruct (truthy (container_logStreamName job)); cbn [print emit trace];
        rewrite <- ?app_assoc; reflexivity. }
    clearbody p1.
    destruct (fetch_logs_more pages (container_logStreamName job) (startTime st) p1)
      as (fetched & Ht & Hf).
    destruct (fetch_logs pages (container_logStreamName job) (startTime st) p1)
      as [t' p2|p2]; cbn [fetch_proc] in Ht.
    + eapply step_running; [exact Hrun | exact Hf | | eauto].
      rewrite Ht, Hp1, Hp0, <- !app_assoc. reflexivity.
    + eapply step_running_paging; [exact Hrun | exact Hf | | eauto].
      rewrite Ht, Hp1, Hp0, <- !app_assoc. reflexivity.
  - rewrite (poll_step_other _ _ _ _ _ _ _ E Hother).
    case_bool_decide as Hin.
    + apply step_new; [exact Hother | exact Hin |].
      cbn [print emit trace]. rewrite Hp0, <- app_assoc. reflexivity.
    + apply step_seen; [exact Hother | | exact Hp0].
      destruct (decide (status job ∈ status_set st)); [assumption|contradiction].
Qed.

Lemma truthy_Some (o : option string) (s : string) :
  truthy o = Some s <-> o = Some s /\ s <> EmptyString.
Proof.
  unfold truthy. destruct o as [s'|]; [|split; [discriminate|intros [? _]; discriminate]].
  destruct (String.eqb_spec s' EmptyString) as [->|Hne].
  - split; [discriminate|]. intros [[= <-] H]. contradiction.
  - split; [intros [= <-]; auto|]. intros [[= <-] _]. reflexivity.
Qed.

Lemma fetch_event_of_silent (s : string) (t : Z) (ext : list Event) :
  Forall (fetch_event_of s t) ext ->
  observed ext = [] /\ status_updates ext = [] /\ submissions ext = [] /\
  described_ids ext = [] /\ submitted_ids ext = [] /\ running_streams ext = [] /\
  running_banners ext = [] /\ glyphs ext = [].
Proof.
  induction 1 as [|e ext He _ IH]; [repeat split|].
  destruct e as [[]| | |k r]; simpl in He; try contradiction; exact IH.
Qed.

Lemma fetched_by_silent (lsn : option string) (t : Z) (fetched : list Event)
    (t' : option Z) :
  fetched_by lsn t fetched t' ->
  observed fetched = [] /\ status_updates fetched = [] /\ submissions fetched = [] /\
  described_ids fetched = [] /\ submitted_ids fetched = [] /\
  running_streams fetched = [] /\ running_banners fetched = [] /\ glyphs fetched = [].
Proof.
  intros [H _]. destruct (truthy lsn) as [s|].
  - eapply fetch_event_of_silent, H.
  - subst fetched. repeat split.
Qed.

Lemma banner_silent (jobName : pystr) (jobId : string) (st : Locals)
    (job : JobDescription) :
  observed (banner jobName jobId st job) = [] /\
  status_updates (banner jobName jobId st job) = [] /\
  submissions (banner jobName jobId st job) = [] /\
  described_ids (banner jobName jobId st job) = [] /\
  submitted_ids (banner jobName jobId st job) = [] /\
  running_streams (banner jobName jobId st job) = [] /\
  glyphs (banner jobName jobId st job) = [] /\
  log_lines (banner jobName jobId st job) = [] /\
  log_calls (banner jobName jobId st job) = [] /\
  running_banners (banner jobName jobId st job) = if running st then [] else [tt].
Proof.
  unfold banner. destruct (running st); [repeat split|].
  destruct (truthy (container_logStreamName job)); repeat split.
Qed.

(** ** The run as a whole *)

(** Invariants of the polling loop, read off the events an iteration adds. *)
Lemma poll_by_steps (I : Locals -> list Event -> Prop) (J : Run -> Prop)
    (pages : nat) (jobName : pystr) (jobId : string) :
  (forall st tr job r, I st tr -> step_of jobName jobId st tr job r ->
     match r with
     | Polling st' p' => I st' (trace p')
     | r => J r
     end) ->
  forall fuel st p, I st (trace p) ->
    match poll fuel pages jobName jobId st p with
    | Polling st' p' => I st' (trace p')
    | r => J r
    end.
Proof.
  intros Hstep.
  apply (poll_invariant (fun st p => I st (trace p)) J pages jobName jobId).
  intros st p HI.
  pose proof (Hstep st (trace p) _ _ HI (poll_step_shape pages jobName jobId st p)) as H.
  destruct (poll_step pages jobName jobId st p); exact H.
Qed.

Lemma main_by_steps (I : string -> Locals -> list Event -> Prop) (J : Run -> Prop)
    (fuel pages : nat) (args : Args) (w : World) :
  (job_type_info !! job_type args = None -> J (Raised KeyError (startup w))) ->
  (forall info jobId p1,
     job_type_info !! job_type args = Some info ->
     jobId = (submit_job (submit_kwargs args info) w).1 ->
     trace p1 = [CallSubmitJob (submit_kwargs args info) jobId;
                 Print (Submitted (sanitize_jobName (name args)) jobId (job_queue info))] ->
     (wait args = false -> J (Exited 0 p1)) /\
     (wait args = true -> I jobId initial_locals (trace p1))) ->
  (forall jobId st p, I jobId st (trace p) -> J (Polling st p)) ->
  (forall jobId st tr job r, I jobId st tr ->
     step_of (sanitize_jobName (name args)) jobId st tr job r ->
     match r with
     | Polling st' p' => I jobId st' (trace p')
     | r => J r
     end) ->
  J (main fuel pages args (startup w)).
Proof.
  intros Hk H0 HIJ Hstep.
  unfold main, call_submit_job, startup in *. cbn [world trace globals] in *.
  destruct (job_type_info !! job_type args) as [info|]; [|exact (Hk eq_refl)].
  destruct (submit_job (submit_kwargs args info) w) as [jobId w'] eqn:Es.
  cbn [fst print emit world trace globals app] in *.
  destruct (H0 info jobId
              (mkProc w' [CallSubmitJob (submit_kwargs args info) jobId;
                          Print (Submitted (sanitize_jobName (name args)) jobId
                                   (job_queue info))] job_type_info)
              eq_refl (eq_sym (f_equal fst Es)) eq_refl) as [Hnw Hw].
  destruct (wait args); [|exact (Hnw eq_refl)].
  pose proof (poll_by_steps (I jobId) J pages (sanitize_jobName (name args)) jobId
                (Hstep jobId) fuel initial_locals _ (Hw eq_refl)) as H.
  destruct (poll _ _ _ _ _ _) as [c p'|st' p'|p'|e p'];
    [exact H | exact (HIJ jobId st' p' H) | exact H | exact H].
Qed.

(** X4.  A run of [main] with an unknown job type does nothing at all.
    Otherwise it first submits the job, once, and prints the submission;
    everything after that asks [describe_jobs] about the job id that
    [submit_job] returned and about no other; and without [--wait] nothing
    comes after the submission. *)
Theorem main_submits_then_polls (fuel pages : nat) (args : Args) (w : World) :
  match job_type_info !! job_type args with
  | None => trace (run_proc (main fuel pages args (startup w))) = []
  | Some info =>
      exists rest,
        let jobId := (submit_job (submit_kwargs args info) w).1 in
        trace (run_proc (main fuel pages args (startup w))) =
          CallSubmitJob (submit_kwargs args info) jobId ::
          Print (Submitted (sanitize_jobName (name args)) jobId (job_queue info)) ::
          rest /\
        submitted_ids rest = [] /\
        Forall (fun i => i = jobId) (described_ids rest) /\
        (if wait args then True else rest = [])
  end.
Proof.
  set (shape := fun (jobId : string) (tr : list Event) =>
    exists info rest,
      job_type_info !! job_type args = Some info /\
      jobId = (submit_job (submit_kwargs args info) w).1 /\
      tr = [CallSubmitJob (submit_kwargs args info) jobId;
            Print (Submitted (sanitize_jobName (name args)) jobId (job_queue info))]
           ++ rest /\
      submitted_ids rest = [] /\
      Forall (fun i => i = jobId) (described_ids rest) /\
      (if wait args then True else rest = [])).
  enough (H : match job_type_info !! job_type args with
              | None => trace (run_proc (main fuel pages args (startup w))) = []
              | Some _ => exists jobId,
                  shape jobId (trace (run_proc (main fuel pages args (startup w))))
              end).
  { destruct (job_type_info !! job_type args) as [info|]; [|exact H].
    destruct H as (jobId & info' & rest & [= <-] & -> & Ht & Hs & Hd & Hw).
    exists rest. cbv zeta. rewrite Ht. auto. }
  apply (main_by_steps
    (fun jobId _ tr => wait args = true /\ shape jobId tr)
    (fun r => match job_type_info !! job_type args with
              | None => trace (run_proc r) = []
              | Some _ => exists jobId, shape jobId (trace (run_proc r))
              end)).
  - intros ->. reflexivity.
  - intros info jobId p1 Hl Hj Ht. rewrite Hl.
    assert (Hs : wait args = true \/ wait args = false -> shape jobId (trace p1)).
    { intros Hw. exists info, []. rewrite app_nil_r.
      repeat split; auto. destruct (wait args); auto. }
    split; [intros Hw; exists jobId | intros Hw; split]; auto.
  - intros jobId st p [_ Hs]. destruct Hs as (info & rest & Hl & Hs).
    rewrite Hl. exists jobId, info, rest. auto.
  - intros jobId st tr job r [Hw (info & rest & Hl & Hj & Ht & Hs & Hd & _)] Hstep.
    assert (Hext : forall p' ext,
      trace p' = tr ++ ext -> submitted_ids ext = [] ->
      Forall (fun i => i = jobId) (described_ids ext) -> shape jobId (trace p')).
    { intros p' ext Ht' Hse Hde. exists info, (rest ++ ext).
      rewrite Ht', Ht, <- app_assoc, Hw. split_trace. rewrite Hs, Hse.
      repeat split; auto. apply Forall_app; auto. }
    rewrite Hl.
    destruct Hstep as [fetched t' p' _ Hf Ht' | fetched p' _ Hf Ht'
                      | fetched t' p' _ Hf Ht' | fetched p' _ Hf Ht'
                      | p' _ _ Ht' | p' _ _ Ht' | p' _ _ Ht'];
      try (destruct (fetched_by_silent _ _ _ _ Hf) as (_ & _ & _ & Hfd & Hfs & _));
      try (destruct (banner_silent (sanitize_jobName (name args)) jobId st job)
             as (_ & _ & _ & Hbd & Hbs & _));
      try split; try exact Hw; try exists jobId; cbn [run_proc];
      apply (Hext _ _ Ht'); split_trace; rewrite ?Hfs, ?Hbs, ?Hfd, ?Hbd;
      try reflexivity; repeat constructor.
Qed.

(** ** Log requests in their place in the trace *)

(** [P pre k] holds of every log request [k] of the trace, where [pre] is
    what happened before the request. *)
Definition each_request (P : list Event -> LogRequest -> Prop)
    (tr : list Event) : Prop :=
  forall pre k r post, tr = pre ++ CallGetLogEvents k r :: post -> P pre k.

Lemma each_request_app (P : list Event -> LogRequest -> Prop) (tr ext : list Event) :
  each_request P tr ->
  each_request (fun pre => P (tr ++ pre)) ext ->
  each_request P (tr ++ ext).
Proof.
  intros H1 H2 pre k r post E.
  apply app_eq_app in E. destruct E as (l & [[E1 E2] | [E1 E2]]).
  - destruct l as [|e l].
    + rewrite app_nil_r in E1. subst pre. simpl in E2.
      pose proof (H2 [] k r post (eq_sym E2)) as H. cbv beta in H.
      rewrite app_nil_r in H. exact H.
    + injection E2 as <- E2. exact (H1 pre k r l E1).
  - subst pre. exact (H2 l k r post E2).
Qed.

Lemma each_request_silent (P : list Event -> LogRequest -> Prop) (ext : list Event) :
  log_calls ext = [] -> each_request P ext.
Proof.
  intros H pre k r post ->. rewrite log_calls_app in H.
  apply app_eq_nil in H as [_ H]. discriminate H.
Qed.

(** The events of an iteration: some that are no log requests, a fetch, and
    again some that are no log requests. *)
Lemma each_request_step (P : list Event -> LogRequest -> Prop)
    (tr front fetched back : list Event) :
  each_request P tr ->
  log_calls front = [] -> log_calls back = [] ->
  (forall pre k r post, fetched = pre ++ CallGetLogEvents k r :: post ->
                        P (tr ++ front ++ pre) k) ->
  each_request P (tr ++ front ++ fetched ++ back).
Proof.
  intros Htr Hf Hb Hfetched.
  apply each_request_app; [exact Htr|].
  apply (each_request_app (fun pre => P (tr ++ pre)) front (fetched ++ back));
    [apply each_request_silent, Hf|].
  apply (each_request_app (fun pre => P (tr ++ front ++ pre)) fetched back);
    [exact Hfetched|].
  apply each_request_silent, Hb.
Qed.

Lemma fetch_event_of_at (s : string) (t : Z) (fetched pre post : list Event)
    (k : LogRequest) (r : LogResponse) :
  Forall (fetch_event_of s t) fetched ->
  fetched = pre ++ CallGetLogEvents k r :: post ->
  kw_logGroupName k = logGroupName /\ kw_logStreamName k = s /\
  kw_startTime k = t /\ kw_startFromHead k = true.
Proof.
  intros Hf ->. apply Forall_app in Hf as [_ Hf].
  apply Forall_cons in Hf as [Hf _]. exact Hf.
Qed.

Lemma one_fetch_first (fetched pre post : list Event) (k : LogRequest)
    (r : LogResponse) :
  one_fetch None fetched ->
  fetched = pre ++ CallGetLogEvents k r :: post ->
  kw_nextToken k = None -> pre = [].
Proof.
  intros Ho -> Hk. destruct pre as [|e pre]; [reflexivity|].
  destruct Ho as [Hrest _]. apply Forall_app in Hrest as [_ Hrest].
  apply Forall_cons in Hrest as [Hc _]. simpl in Hc. contradiction.
Qed.

(** A log request that is where the code puts it: in the group of batch
    jobs, from the head of a stream with a non-empty name, which
    [describe_jobs] reported together with the status RUNNING before. *)
Definition after_running (pre : list Event) (k : LogRequest) : Prop :=
  kw_logGroupName k = logGroupName /\ kw_startFromHead k = true /\
  kw_logStreamName k <> EmptyString /\
  Some (kw_logStreamName k) ∈ running_streams pre.

(** X5.  Whatever the services answer, every log request of a run goes to
    the log group [/aws/batch/job], reads from the head, and names a
    non-empty stream that an earlier answer of [describe_jobs] reported
    together with the status RUNNING: no log is fetched before the job was
    seen running, not even the logs of a job that failed at once. *)
Theorem log_requests_after_running (fuel pages : nat) (args : Args) (w : World) :
  each_request after_running (trace (run_proc (main fuel pages args (startup w)))).
Proof.
  apply (main_by_steps
    (fun _ st tr =>
       each_request after_running tr /\
       forall s, truthy (logStreamName st) = Some s -> Some s ∈ running_streams tr)
    (fun r => each_request after_running (trace (run_proc r)))).
  - intros _. apply each_request_silent. reflexivity.
  - intros info jobId p1 _ _ Ht. cbn [run_proc]. rewrite Ht.
    assert (H : each_request after_running
                  [CallSubmitJob (submit_kwargs args info) jobId;
                   Print (Submitted (sanitize_jobName (name args)) jobId
                            (job_queue info))])
      by (apply each_request_silent; reflexivity).
    split; [intros _; exact H|]. intros _. split; [exact H|].
    intros s. cbn. discriminate.
  - intros jobId st p [H _]. exact H.
  - intros jobId st tr job r [HQ Hl] Hstep.
    assert (Hold : forall s fetched front,
      truthy (logStreamName st) = Some s \/
        (status job = "RUNNING"%string /\ truthy (container_logStreamName job) = Some s /\
         front = CallDescribeJobs jobId job :: banner (sanitize_jobName (name args))
                                                      jobId st job) ->
      front = CallDescribeJobs jobId job :: banner (sanitize_jobName (name args))
                                                   jobId st job \/
        front = [CallDescribeJobs jobId job] ->
      Forall (fetch_event_of s (startTime st)) fetched ->
      forall pre k r post, fetched = pre ++ CallGetLogEvents k r :: post ->
                           after_running (tr ++ front ++ pre) k).
    { intros s fetched front Hs Hfront Hf pre k r0 post E.
      destruct (fetch_event_of_at _ _ _ _ _ _ _ Hf E) as (Hg & Hn & _ & Hh).
      assert (Hne : s <> EmptyString).
      { destruct Hs as [Hs | (_ & Hs & _)]; apply truthy_Some in Hs; tauto. }
      unfold after_running. rewrite Hn. repeat split; auto.
      rewrite !running_streams_app. destruct Hs as [Hs | (Hr & Hs & ->)].
      - apply elem_of_app. left. auto.
      - apply elem_of_app. right. apply elem_of_app. left.
        apply truthy_Some in Hs as [Hs _].
        change (CallDescribeJobs jobId job :: banner (sanitize_jobName (name args))
                                                    jobId st job)
          with ([CallDescribeJobs jobId job] ++
                banner (sanitize_jobName (name args)) jobId st job).
        rewrite running_streams_app. apply elem_of_app. left.
        unfold running_streams. cbn [omap list_omap]. rewrite Hr, Hs.
        cbn. constructor. }
    assert (Hnone : forall front pre k r post,
      @nil Event = pre ++ CallGetLogEvents k r :: post ->
      after_running (tr ++ front ++ pre) k).
    { intros front pre k r0 post E. destruct pre; discriminate E. }
    assert (Hkeep : forall ext,
      (forall s, truthy (logStreamName st) = Some s -> Some s ∈ running_streams tr) ->
      forall s, truthy (logStreamName st) = Some s ->
                Some s ∈ running_streams (tr ++ ext)).
    { intros ext H s Hs. rewrite running_streams_app. apply elem_of_app. left. auto. }
    destruct (banner_silent (sanitize_jobName (name args)) jobId st job)
      as (_ & _ & _ & _ & _ & _ & _ & _ & Hbc & _).
    destruct Hstep as [fetched t' p' _ Hf Ht' | fetched p' _ Hf Ht'
                      | fetched t' p' Hrun Hf Ht' | fetched p' Hrun Hf Ht'
                      | p' _ _ Ht' | p' _ _ Ht' | p' _ _ Ht']; cbn [run_proc]; rewrite Ht'.
    + change (tr ++ CallDescribeJobs jobId job :: fetched ++
              [Print Rule80;
               Print (JobFinished (sanitize_jobName (name args)) jobId (status job))])
        with (tr ++ [CallDescribeJobs jobId job] ++ fetched ++
              [Print Rule80;
               Print (JobFinished (sanitize_jobName (name args)) jobId (status job))]).
      apply each_request_step; [exact HQ | reflexivity | reflexivity |].
      destruct Hf as [Hf _]. destruct (truthy (logStreamName st)) as [s|] eqn:Es.
      * apply (Hold s); auto.
      * subst fetched. apply Hnone.
    + rewrite <- (app_nil_r fetched).
      change (tr ++ CallDescribeJobs jobId job :: fetched ++ [])
        with (tr ++ [CallDescribeJobs jobId job] ++ fetched ++ []).
      apply each_request_step; [exact HQ | reflexivity | reflexivity |].
      destruct Hf as [Hf _]. destruct (truthy (logStreamName st)) as [s|] eqn:Es.
      * apply (Hold s); auto.
      * subst fetched. apply Hnone.
    + split.
      * replace (tr ++ CallDescribeJobs jobId job ::
                 banner (sanitize_jobName (name args)) jobId st job ++ fetched)
        with (tr ++ (CallDescribeJobs jobId job ::
                     banner (sanitize_jobName (name args)) jobId st job) ++
              fetched ++ [])
        by (rewrite app_nil_r; reflexivity).
        apply each_request_step; [exact HQ | exact Hbc | reflexivity |].
        destruct Hf as [Hf _].
        destruct (truthy (container_logStreamName job)) as [s|] eqn:Es.
        -- apply (Hold s); auto.
        -- subst fetched. apply Hnone.
      * cbn [logStreamName]. intros s Hs.
        rewrite running_streams_app. apply elem_of_app. right.
        change (CallDescribeJobs jobId job ::
                banner (sanitize_jobName (name args)) jobId st job ++ fetched)
          with ([CallDescribeJobs jobId job] ++
                banner (sanitize_jobName (name args)) jobId st job ++ fetched).
        rewrite running_streams_app. apply elem_of_app. left.
        apply truthy_Some in Hs as [Hs _].
        unfold running_streams. cbn [omap list_omap]. rewrite Hrun, Hs.
        cbn. constructor.
    + replace (tr ++ CallDescribeJobs jobId job ::
                 banner (sanitize_jobName (name args)) jobId st job ++ fetched)
        with (tr ++ (CallDescribeJobs jobId job ::
                     banner (sanitize_jobName (name args)) jobId st job) ++
              fetched ++ [])
        by (rewrite app_nil_r; reflexivity).
      apply each_request_step; [exact HQ | exact Hbc | reflexivity |].
      destruct Hf as [Hf _].
      destruct (truthy (container_logStreamName job)) as [s|] eqn:Es.
      * apply (Hold s); auto.
      * subst fetched. apply Hnone.
    + split; [|apply Hkeep, Hl].
      apply each_request_app; [exact HQ|]. apply each_request_silent. reflexivity.
    + split; [|apply Hkeep, Hl].
      apply each_request_app; [exact HQ|]. apply each_request_silent. reflexivity.
    + apply each_request_app; [exact HQ|]. apply each_request_silent. reflexivity.
Qed.

(** Reading a trace that is given event by event. *)
Ltac read_events :=
  split_trace;
  repeat match goal with
         | |- context [?f (@cons Event ?e (@nil Event))] =>
             progress
               (let v := eval cbn [log_lines log_calls observed submissions
                                   status_updates described_ids submitted_ids
                                   running_streams running_banners glyphs
                                   omap list_omap] in (f [e]) in
                change (f [e]) with v)
         end.

Lemma fetched_by_at (lsn : option string) (t : Z) (fetched : list Event)
    (t' : option Z) (pre post : list Event) (k : LogRequest) (r : LogResponse) :
  fetched_by lsn t fetched t' ->
  fetched = pre ++ CallGetLogEvents k r :: post ->
  kw_startTime k = t /\ (kw_nextToken k = None -> pre = []).
Proof.
  intros (Hf & Ho & _) E. split.
  - destruct (truthy lsn) as [s|].
    + destruct (fetch_event_of_at _ _ _ _ _ _ _ Hf E) as (_ & _ & Ht & _). exact Ht.
    + subst fetched. destruct pre; discriminate E.
  - intros Hk. exact (one_fetch_first _ _ _ _ _ Ho E Hk).
Qed.

Lemma last_lt_succ (l : list Z) (a t : Z) :
  a < t -> List.last l a < List.last l (t - 1) + 1.
Proof.
  intros H. destruct l as [|x l]; [simpl; lia|].
  rewrite !last_cons_default. lia.
Qed.

(** A fetch opens above the last line printed so far (-1 stands for no line
    yet). *)
Definition above_last_line (pre : list Event) (k : LogRequest) : Prop :=
  kw_nextToken k = None -> List.last (log_lines pre).*1 (-1) < kw_startTime k.

(** X6.  Whatever the services answer, every fetch opens with a request
    whose [startTime] is greater than the timestamp of the last log line
    printed so far, and at the top of every iteration the watermark is
    greater than that timestamp: the script never asks again for the line it
    printed last, nor for anything as old. *)
Theorem fetch_opens_above_last_line (fuel pages : nat) (args : Args) (w : World) :
  each_request above_last_line
    (trace (run_proc (main fuel pages args (startup w)))) /\
  match main fuel pages args (startup w) with
  | Polling st p => List.last (log_lines (trace p)).*1 (-1) < startTime st
  | _ => True
  end.
Proof.
  apply (main_by_steps
    (fun _ st tr =>
       each_request above_last_line tr /\
       List.last (log_lines tr).*1 (-1) < startTime st)
    (fun r => each_request above_last_line (trace (run_proc r)) /\
              match r with
              | Polling st p => List.last (log_lines (trace p)).*1 (-1) < startTime st
              | _ => True
              end)).
  - intros _. split; [|exact I]. apply each_request_silent. reflexivity.
  - intros info jobId p1 _ _ Ht. cbn [run_proc]. rewrite Ht.
    assert (H : each_request above_last_line
                  [CallSubmitJob (submit_kwargs args info) jobId;
                   Print (Submitted (sanitize_jobName (name args)) jobId
                            (job_queue info))])
      by (apply each_request_silent; reflexivity).
    split; [intros _; split; [exact H | exact I]|].
    intros _. split; [exact H|]. cbn. lia.
  - intros jobId st p H. exact H.
  - intros jobId st tr job r [HQ Hlast] Hstep.
    destruct (banner_silent (sanitize_jobName (name args)) jobId st job)
      as (_ & _ & _ & _ & _ & _ & _ & Hbl & Hbc & _).
    assert (Hopen : forall front fetched o,
      log_lines front = [] ->
      fetched_by o (startTime st) fetched None \/
        (exists t', fetched_by o (startTime st) fetched (Some t')) ->
      forall pre k r post, fetched = pre ++ CallGetLogEvents k r :: post ->
                           above_last_line (tr ++ front ++ pre) k).
    { intros front fetched o Hfl Hf pre k r0 post E Hk.
      assert (Hat : kw_startTime k = startTime st /\ (kw_nextToken k = None -> pre = [])).
      { destruct Hf as [Hf | [t' Hf]]; exact (fetched_by_at _ _ _ _ _ _ _ _ Hf E). }
      destruct Hat as [Ht Hpre]. rewrite (Hpre Hk), app_nil_r, log_lines_app, Hfl,
        app_nil_r, Ht. exact Hlast. }
    destruct Hstep as [fetched t' p' _ Hf Ht' | fetched p' _ Hf Ht'
                      | fetched t' p' Hrun Hf Ht' | fetched p' Hrun Hf Ht'
                      | p' _ _ Ht' | p' _ _ Ht' | p' _ _ Ht']; cbn [run_proc]; rewrite Ht'.
    + split; [|exact I].
      change (tr ++ CallDescribeJobs jobId job :: fetched ++
              [Print Rule80;
               Print (JobFinished (sanitize_jobName (name args)) jobId (status job))])
        with (tr ++ [CallDescribeJobs jobId job] ++ fetched ++
              [Print Rule80;
               Print (JobFinished (sanitize_jobName (name args)) jobId (status job))]).
      apply each_request_step; [exact HQ | reflexivity | reflexivity |].
      apply (Hopen _ _ (logStreamName st)); [reflexivity | eauto].
    + split; [|exact I].
      rewrite <- (app_nil_r fetched).
      change (tr ++ CallDescribeJobs jobId job :: fetched ++ [])
        with (tr ++ [CallDescribeJobs jobId job] ++ fetched ++ []).
      apply each_request_step; [exact HQ | reflexivity | reflexivity |].
      apply (Hopen _ _ (logStreamName st)); [reflexivity | eauto].
    + assert (Hq : each_request above_last_line
                     (tr ++ CallDescribeJobs jobId job ::
                      banner (sanitize_jobName (name args)) jobId st job ++ fetched)).
      { replace (tr ++ CallDescribeJobs jobId job ::
                 banner (sanitize_jobName (name args)) jobId st job ++ fetched)
          with (tr ++ (CallDescribeJobs jobId job ::
                       banner (sanitize_jobName (name args)) jobId st job) ++
                fetched ++ [])
          by (rewrite app_nil_r; reflexivity).
        apply each_request_step; [exact HQ | exact Hbc | reflexivity |].
        apply (Hopen _ _ (container_logStreamName job)); [exact Hbl | eauto]. }
      split; [exact Hq|]. cbn [startTime].
      destruct Hf as (_ & _ & _ & ->).
      read_events. rewrite Hbl. cbn [app]. rewrite fmap_app, last_app_default.
      apply last_lt_succ, Hlast.
    + split; [|exact I].
      replace (tr ++ CallDescribeJobs jobId job ::
               banner (sanitize_jobName (name args)) jobId st job ++ fetched)
        with (tr ++ (CallDescribeJobs jobId job ::
                     banner (sanitize_jobName (name args)) jobId st job) ++
              fetched ++ [])
        by (rewrite app_nil_r; reflexivity).
      apply each_request_step; [exact HQ | exact Hbc | reflexivity |].
      apply (Hopen _ _ (container_logStreamName job)); [exact Hbl | eauto].
    + assert (Hq : each_request above_last_line
                     (tr ++ [CallDescribeJobs jobId job;
                             Print (StatusUpdate (sanitize_jobName (name args)) jobId
                                      (status job)
                                      (nth (spinner st mod length spin) spin
                                           EmptyString))])).
      { apply each_request_app; [exact HQ|]. apply each_request_silent. reflexivity. }
      split; [exact Hq|]. cbn [startTime].
      read_events. rewrite !app_nil_r. exact Hlast.
    + assert (Hq : each_request above_last_line (tr ++ [CallDescribeJobs jobId job])).
      { apply each_request_app; [exact HQ|]. apply each_request_silent. reflexivity. }
      split; [exact Hq|].
      read_events. rewrite !app_nil_r. exact Hlast.
    + split; [|exact I].
      apply each_request_app; [exact HQ|]. apply each_request_silent. reflexivity.
Qed.

Lemma terminal_not_running (s : string) : terminal s -> s <> "RUNNING"%string.
Proof. intros [-> | ->]; discriminate. Qed.

Lemma other_not_terminal (s : string) : other_status s -> ~ terminal s.
Proof. intros (H1 & H2 & _) [H | H]; contradiction. Qed.

Lemma running_not_terminal (s : string) : s = "RUNNING"%string -> ~ terminal s.
Proof. intros -> [H | H]; discriminate. Qed.

Lemma running_streams_describe (jobId : string) (job : JobDescription) :
  running_streams [CallDescribeJobs jobId job] =
  if String.eqb (status job) "RUNNING" then [container_logStreamName job] else [].
Proof.
  unfold running_streams. cbn [omap list_omap].
  destruct (String.eqb (status job) "RUNNING"); reflexivity.
Qed.

Lemma with_stream_snoc (l : list (option string)) (o : option string) :
  bool_decide (Exists is_Some (l ++ [o])) =
  bool_decide (Exists is_Some l) || bool_decide (is_Some o).
Proof.
  destruct (bool_decide (Exists is_Some l)) eqn:El;
    [apply bool_decide_eq_true in El | apply bool_decide_eq_false in El].
  - apply bool_decide_eq_true. apply Exists_app. auto.
  - cbn [orb]. apply bool_decide_ext. rewrite Exists_app, Exists_cons, Exists_nil.
    tauto.
Qed.

(** X7.  The banner that the job is running is printed exactly once if
    [describe_jobs] ever reported RUNNING with a log stream name entry,
    however often it did, and not at all otherwise: a RUNNING answer without
    that entry raises the [KeyError] before the banner is reached. *)
Theorem running_banner_once (fuel pages : nat) (args : Args) (w : World) :
  running_banners (trace (run_proc (main fuel pages args (startup w)))) =
  if bool_decide (Exists is_Some
       (running_streams (trace (run_proc (main fuel pages args (startup w))))))
  then [()] else [].
Proof.
  set (J := fun r : Run =>
    running_banners (trace (run_proc r)) =
    if bool_decide (Exists is_Some (running_streams (trace (run_proc r))))
    then [()] else []).
  change (J (main fuel pages args (startup w))).
  apply (main_by_steps
    (fun _ st tr =>
       running_banners tr =
         (if bool_decide (Exists is_Some (running_streams tr)) then [()] else []) /\
       running st = bool_decide (Exists is_Some (running_streams tr)))
    J); subst J; cbv beta.
  - intros _. reflexivity.
  - intros info jobId p1 _ _ Ht. cbn [run_proc]. rewrite Ht.
    split; [reflexivity|]. intros _. split; reflexivity.
  - intros jobId st p [H _]. exact H.
  - intros jobId st tr job r [Hb Hr] Hstep.
    destruct (banner_silent (sanitize_jobName (name args)) jobId st job)
      as (_ & _ & _ & _ & _ & Hbr & _ & _ & _ & Hbb).
    assert (Hquiet : status job <> "RUNNING"%string ->
      running_streams [CallDescribeJobs jobId job] = []).
    { intros Hne. rewrite running_streams_describe.
      apply String.eqb_neq in Hne. rewrite Hne. reflexivity. }
    assert (Hloud : status job = "RUNNING"%string ->
      running_streams [CallDescribeJobs jobId job] = [container_logStreamName job]).
    { intros He. rewrite running_streams_describe, He. reflexivity. }
    destruct Hstep as [fetched t' p' Hs Hf Ht' | fetched p' Hs Hf Ht'
                      | fetched t' p' Hs Hf Ht' Hsome | fetched p' Hs Hf Ht' Hsome
                      | p' Hs _ Ht' | p' Hs _ Ht' | p' Hs Hnone Ht'];
      try (destruct (fetched_by_silent _ _ _ _ Hf)
             as (_ & _ & _ & _ & _ & Hfr & Hfb & _));
      cbn [run_proc running]; rewrite Ht'; split_trace;
      rewrite ?Hfr, ?Hfb, ?Hbr, ?Hbb.
    + rewrite (Hquiet (terminal_not_running _ Hs)). read_events. cbn [app].
      rewrite ?app_nil_r. exact Hb.
    + rewrite (Hquiet (terminal_not_running _ Hs)). read_events. cbn [app].
      rewrite ?app_nil_r. exact Hb.
    + rewrite (Hloud Hs). read_events. cbn [app].
      rewrite with_stream_snoc, (bool_decide_eq_true_2 _ Hsome), orb_true_r, Hb, <- Hr.
      split; [|reflexivity]. destruct (running st); reflexivity.
    + rewrite (Hloud Hs). read_events. cbn [app].
      rewrite with_stream_snoc, (bool_decide_eq_true_2 _ Hsome), orb_true_r, Hb, <- Hr.
      destruct (running st); reflexivity.
    + destruct Hs as (_ & _ & Hs). rewrite (Hquiet Hs). read_events. cbn [app].
      rewrite ?app_nil_r. auto.
    + destruct Hs as (_ & _ & Hs). rewrite (Hquiet Hs). read_events. cbn [app].
      rewrite ?app_nil_r. auto.
    + rewrite (Hloud Hs), Hnone. read_events. cbn [app].
      rewrite with_stream_snoc, ?app_nil_r.
      rewrite (bool_decide_eq_false_2 (is_Some None)) by (intros [x Hx]; discriminate).
      rewrite orb_false_r. exact Hb.
Qed.

(** The glyph of the [i]-th status line, counting from 0. *)
Definition glyph (i : nat) : string := nth (i mod length spin) spin EmptyString.

(** The list [spin] is two turns of four glyphs. *)
Lemma glyph_period (i : nat) :
  glyph i = nth (i mod 4) ["-"; "/"; "|"; "\"]%string EmptyString.
Proof.
  assert (E : (i mod 4 = (i mod 8) mod 4)%nat).
  { rewrite (Nat.div_mod_eq i 8) at 1.
    replace (8 * (i / 8) + i mod 8)%nat with (i mod 8 + (2 * (i / 8)) * 4)%nat by lia.
    apply Nat.Div0.mod_add. }
  unfold glyph. rewrite E. change (length spin) with 8%nat.
  pose proof (Nat.mod_upper_bound i 8 ltac:(lia)) as Hb.
  destruct (i mod 8)%nat as [|[|[|[|[|[|[|[|n]]]]]]]]; try reflexivity. lia.
Qed.

(** X8.  The one-line status updates of a run carry the glyphs of the
    spinner in rotation: the [i]-th update printed, counting from 0, shows
    [spin[i % 8]], whatever else is printed in between; so the glyphs go
    round [-], [/], [|], [\] with period four. *)
Theorem status_glyphs_rotate (fuel pages : nat) (args : Args) (w : World) :
  glyphs (trace (run_proc (main fuel pages args (startup w)))) =
  map (fun i => nth (i mod 4) ["-"; "/"; "|"; "\"]%string EmptyString)
      (seq 0 (length (status_updates
                        (trace (run_proc (main fuel pages args (startup w))))))).
Proof.
  rewrite <- (map_ext _ _ glyph_period).
  apply (main_by_steps
    (fun _ st tr =>
       glyphs tr = map glyph (seq 0 (spinner st)) /\
       length (status_updates tr) = spinner st)
    (fun r =>
       glyphs (trace (run_proc r)) =
       map glyph (seq 0 (length (status_updates (trace (run_proc r))))))).
  - intros _. reflexivity.
  - intros info jobId p1 _ _ Ht. cbn [run_proc]. rewrite Ht.
    split; [reflexivity|]. intros _. split; reflexivity.
  - intros jobId st p [H Hn]. cbn [run_proc]. rewrite Hn. exact H.
  - intros jobId st tr job r [Hg Hn] Hstep.
    destruct (banner_silent (sanitize_jobName (name args)) jobId st job)
      as (_ & Hbu & _ & _ & _ & _ & Hbg & _).
    destruct Hstep as [fetched t' p' Hs Hf Ht' | fetched p' Hs Hf Ht'
                      | fetched t' p' Hs Hf Ht' | fetched p' Hs Hf Ht'
                      | p' Hs _ Ht' | p' Hs _ Ht' | p' Hs Hnone Ht'];
      try (destruct (fetched_by_silent _ _ _ _ Hf)
             as (_ & Hfu & _ & _ & _ & _ & _ & Hfg));
      cbn [run_proc spinner]; rewrite Ht'; read_events;
      rewrite ?Hfu, ?Hfg, ?Hbu, ?Hbg, ?app_nil_r; cbn [app];
      rewrite ?app_nil_r.
    + rewrite Hn. exact Hg.
    + rewrite Hn. exact Hg.
    + auto.
    + rewrite Hn. exact Hg.
    + rewrite length_app, Hn, Hg, seq_app, map_app. cbn [length seq map Nat.add].
      split; reflexivity.
    + auto.
    + rewrite Hn. exact Hg.
Qed.

Lemma Forall_removelast {A : Type} (P : A -> Prop) (l : list A) :
  Forall P l -> Forall P (removelast l).
Proof.
  induction 1 as [|x l Hx Hl IH]; [constructor|].
  destruct l as [|y l]; [constructor|]. cbn [removelast] in *.
  constructor; assumption.
Qed.

(** X9.  A status SUCCEEDED or FAILED is only ever the last answer of
    [describe_jobs] in a run: once the script has seen a terminal status it
    never polls again, and while it is polling it has seen none. *)
Theorem terminal_status_is_last (fuel pages : nat) (args : Args) (w : World) :
  Forall (fun s => ~ terminal s)
    (removelast (observed (trace (run_proc (main fuel pages args (startup w)))))) /\
  match main fuel pages args (startup w) with
  | Polling _ p => Forall (fun s => ~ terminal s) (observed (trace p))
  | _ => True
  end.
Proof.
  apply (main_by_steps
    (fun _ _ tr => Forall (fun s => ~ terminal s) (observed tr))
    (fun r =>
       Forall (fun s => ~ terminal s) (removelast (observed (trace (run_proc r)))) /\
       match r with
       | Polling _ p => Forall (fun s => ~ terminal s) (observed (trace p))
       | _ => True
       end)).
  - intros _. split; [constructor | exact I].
  - intros info jobId p1 _ _ Ht. cbn [run_proc]. rewrite Ht.
    split; intros _; [split; [constructor | exact I] | constructor].
  - intros jobId st p H. split; [apply Forall_removelast|]; exact H.
  - intros jobId st tr job r Hobs Hstep.
    destruct (banner_silent (sanitize_jobName (name args)) jobId st job)
      as (Hbo & _).
    destruct Hstep as [fetched t' p' Hs Hf Ht' | fetched p' Hs Hf Ht'
                      | fetched t' p' Hs Hf Ht' | fetched p' Hs Hf Ht'
                      | p' Hs _ Ht' | p' Hs _ Ht' | p' Hs Hnone Ht'];
      try (destruct (fetched_by_silent _ _ _ _ Hf) as (Hfo & _));
      cbn [run_proc]; rewrite Ht'; read_events;
      rewrite ?Hfo, ?Hbo, ?app_nil_r; cbn [app]; rewrite ?removelast_last.
    + split; [exact Hobs | exact I].
    + split; [exact Hobs | exact I].
    + apply Forall_app. split; [exact Hobs|].
      constructor; [apply running_not_terminal, Hs | constructor].
    + split; [exact Hobs | exact I].
    + apply Forall_app. split; [exact Hobs|].
      constructor; [apply other_not_terminal, Hs | constructor].
    + apply Forall_app. split; [exact Hobs|].
      constructor; [apply other_not_terminal, Hs | constructor].
    + split; [exact Hobs | exact I].
Qed.

End Process.

(** ** The scripted service satisfies the contracts; concrete runs *)

Lemma scripted_events_from_startTime (kwargs : LogRequest) (w : nat) :
  Forall (fun ev => kw_startTime kwargs <= timestamp ev)
         (events (Scripted.get_log_events kwargs w).1).
Proof.
  assert (H : Forall (fun ev => kw_startTime kwargs <= timestamp ev)
                (List.filter (fun e => kw_startTime kwargs <=? timestamp e)
                             Scripted.stream)).
  { apply List.Forall_forall. intros ev Hin.
    apply List.filter_In in Hin. destruct Hin as [_ Hin]. apply Z.leb_le, Hin. }
  unfold Scripted.get_log_events.
  destruct (kw_nextToken kwargs) as [tok|]; [|apply Forall_take, H].
  destruct (String.eqb tok "f/2"); [apply Forall_drop, H|constructor].
Qed.

Example sanitize_example :
  sanitize_jobName (codepoints "pr 512: unit-tests!") = codepoints "pr512unit-tests".
Proof. vm_compute. reflexivity. Qed.

Example sanitize_truncates :
  length (sanitize_jobName (replicate 200 97%N ++ codepoints "/x")) = 128%nat.
Proof. vm_compute. reflexivity. Qed.

Example scripted_status_updates :
  status_updates (trace (run_proc
    (main Scripted.submit_job (Scripted.describe_jobs "SUCCEEDED")
          Scripted.get_log_events 10 10 (Scripted.args true) (startup 0%nat))))
  = ["SUBMITTED"; "RUNNABLE"; "STARTING"]%string.
Proof. vm_compute. reflexivity. Qed.

Example scripted_watermarks :
  watermarks (trace (run_proc
    (main Scripted.submit_job (Scripted.describe_jobs "SUCCEEDED")
          Scripted.get_log_events 10 10 (Scripted.args true) (startup 0%nat))))
  = [0; 0; 0; 301; 301; 301; 301; 301; 301].
Proof. vm_compute. reflexivity. Qed.

Example scripted_exit_codes :
  (match main Scripted.submit_job (Scripted.describe_jobs "SUCCEEDED")
              Scripted.get_log_events 10 10 (Scripted.args true) (startup 0%nat) with
   | Exited code _ => Some code | _ => None end,
   match main Scripted.submit_job (Scripted.describe_jobs "FAILED")
              Scripted.get_log_events 10 10 (Scripted.args true) (startup 0%nat) with
   | Exited code _ => Some code | _ => None end,
   match main Scripted.submit_job (Scripted.describe_jobs "FAILED")
              Scripted.get_log_events 10 10 (Scripted.args false) (startup 0%nat) with
   | Exited code _ => Some code | _ => None end)
  = (Some 0, Some 1, Some 0).
Proof. vm_compute. reflexivity. Qed.

(** ** Services that are less kind *)

Module Unkind.

Definition submit_job (k : SubmitRequest) (w : nat) : string * nat :=
  ("job-1"%string, w).

(** The job is running at once, and has a log stream. *)
Definition describe_jobs (jobId : string) (w : nat) : JobDescription * nat :=
  (mkJob "RUNNING" (Some "stream-1"%string), w).

(** The job is running, and the answer has no log stream name. *)
Definition describe_jobs_no_stream (jobId : string) (w : nat)
  : JobDescription * nat :=
  (mkJob "RUNNING" None, w).

(** The world is the number of log requests so far.  The first request is
    answered with an event dated 150, every later one with an event dated
    5, whatever [startTime] it asks for. *)
Definition get_log_events (k : LogRequest) (w : nat) : LogResponse * nat :=
  (mkLogResponse [mkEvent (if (w =? 0)%nat then 150 else 5) "line"] None, S w).

End Unkind.

(** C7, as the specification words it, fails: nothing in [printLogs] keeps
    the watermark from moving backwards.  With a service that answers a
    request for the events from 151 on with an event dated 5, [printLogs]
    returns 5, and the log requests of the run ask for the events from 0,
    then from 151, then from 6. *)
Lemma log_watermark_not_monotone :
  (match printLogs Unkind.get_log_events 5 logGroupName "stream-1" 151
                   (startup 1%nat) with
   | Fetched ts _ => Some ts
   | Paging _ => None
   end = Some 5) /\
  watermarks (trace (run_proc
    (main Unkind.submit_job Unkind.describe_jobs Unkind.get_log_events
          3 5 (Scripted.args true) (startup 0%nat))))
  = [0; 151; 6] /\
  ~ StronglySorted Z.le
      (watermarks (trace (run_proc
         (main Unkind.submit_job Unkind.describe_jobs Unkind.get_log_events
               3 5 (Scripted.args true) (startup 0%nat))))).
Proof.
  assert (E : watermarks (trace (run_proc
    (main Unkind.submit_job Unkind.describe_jobs Unkind.get_log_events
          3 5 (Scripted.args true) (startup 0%nat))))
    = [0; 151; 6]) by (vm_compute; reflexivity).
  split; [vm_compute; reflexivity|]. split; [exact E|].
  rewrite E. intros H.
  apply StronglySorted_inv in H as [H _].
  apply StronglySorted_inv in H as [_ H].
  apply Forall_cons in H as [H _]. lia.
Qed.

Example running_without_stream_raises :
  match main Unkind.submit_job Unkind.describe_jobs_no_stream Unkind.get_log_events
             3 5 (Scripted.args true) (startup 0%nat) with
  | Raised KeyError p =>
      Some (observed (trace p), running_banners (trace p), log_calls (trace p))
  | _ => None
  end = Some (["RUNNING"%string], [], []).
Proof. vm_compute. reflexivity. Qed.

Lemma log_watermark_monotone_witness :
  (forall (kwargs : LogRequest) (w : nat),
     Forall (fun ev => kw_startTime kwargs <= timestamp ev)
            (events (Scripted.get_log_events kwargs w).1)) /\
  StronglySorted Z.le
    (watermarks (trace (run_proc
       (main Scripted.submit_job (Scripted.describe_jobs "SUCCEEDED")
             Scripted.get_log_events 10 10 (Scripted.args true) (startup 0%nat))))).
Proof.
  split; [exact scripted_events_from_startTime|].
  pose proof (log_watermark_monotone Scripted.submit_job
                (Scripted.describe_jobs "SUCCEEDED") Scripted.get_log_events
                scripted_events_from_startTime 10 10 (Scripted.args true) 0%nat) as H.
  destruct H as (_ & _ & H & _). exact H.
Defined.

Lemma printLogs_paging_witness :
  token_repeats_at Scripted.get_log_events 2
    (mkLogRequest logGroupName "stream-1" 0 true None) 0%nat /\
  exists ts p' calls,
    printLogs Scripted.get_log_events 5 logGroupName "stream-1" 0 (startup 0%nat)
      = Fetched ts p' /\
    log_calls (trace p') = log_calls (trace (startup 0%nat)) ++ calls /\
    paged (mkLogRequest logGroupName "stream-1" 0 true None) calls /\
    (length calls <= 3)%nat.
Proof.
  assert (H : token_repeats_at Scripted.get_log_events 2
                (mkLogRequest logGroupName "stream-1" 0 true None) 0%nat).
  { intros tok Htok. vm_compute in Htok. injection Htok as <-.
    right. reflexivity. }
  split; [exact H|].
  pose proof (printLogs_paging Scripted.get_log_events 2 5 logGroupName "stream-1" 0
                (startup 0%nat) H ltac:(lia)) as Hp.
  destruct Hp as (ts & p' & calls & H1 & H2 & H3 & H4 & _).
  exists ts, p', calls. auto.
Defined.

Lemma exit_code_failed_iff_witness :
  parser_accepts (job_type (Scripted.args true)) = true /\
  exists p,
    main Scripted.submit_job (Scripted.describe_jobs "FAILED")
         Scripted.get_log_events 10 10 (Scripted.args true) (startup 0%nat)
      = Exited 1 p /\
    forall fuel' : nat, (10 <= fuel')%nat ->
      main Scripted.submit_job (Scripted.describe_jobs "FAILED")
           Scripted.get_log_events fuel' 10 (Scripted.args true) (startup 0%nat)
        = Exited 1 p.
Proof.
  split; [vm_compute; reflexivity|].
  pose proof (exit_code_failed_iff Scripted.submit_job (Scripted.describe_jobs "FAILED")
                Scripted.get_log_events 10 10 (Scripted.args true) 0%nat eq_refl) as H.
  destruct H as (_ & _ & _ & _ & Hkeep).
  assert (Hex : exists p,
    main Scripted.submit_job (Scripted.describe_jobs "FAILED")
         Scripted.get_log_events 10 10 (Scripted.args true) (startup 0%nat)
      = Exited 1 p).
  { destruct (main Scripted.submit_job (Scripted.describe_jobs "FAILED")
                   Scripted.get_log_events 10 10 (Scripted.args true) (startup 0%nat))
      as [code p| | |] eqn:E.
    - exists p. vm_compute in E. injection E as <- _. reflexivity.
    - vm_compute in E. discriminate E.
    - vm_compute in E. discriminate E.
    - vm_compute in E. discriminate E. }
  destruct Hex as [p Hp]. exists p. split; [exact Hp|].
  intros fuel' Hle. exact (Hkeep 1 p fuel' Hp Hle).
Defined.

End SubmitJob.

(* ===================================================================== *)
(** * Part II: multimodal/src/autogluon/multimodal/models/categorical_mlp.py *)
(* ===================================================================== *)

Module CategoricalMLP.

(** ** Exceptions *)

Inductive exn :=
| AssertionError | KeyError | TypeError | RuntimeError | IndexError
| ValueError | OverflowError | ZeroDivisionError.

Inductive result (A : Type) :=
| Ok (a : A)
| Raise (e : exn).
Arguments Ok {A} a.
Arguments Raise {A} e.

(** Sequencing: an exception ends the computation. *)
#[global] Instance result_bind : MBind result :=
  fun A B (k : A -> result B) (r : result A) =>
    match r with
    | Ok a => k a
    | Raise e => Raise e
    end.

(** A [for] loop that appends one result per element and stops at the first
    exception. *)
Fixpoint for_each {A B : Type} (f : A -> result B) (l : list A) : result (list B) :=
  match l with
  | [] => Ok []
  | a :: l' => b ← f a; bs ← for_each f l'; Ok (b :: bs)
  end.

(** ** The embedding width *)

Definition max_embedding_dim : Z := 100.
Definition embed_exponent : R := 0.56%R.
Definition size_factor : R := 1.0%R.

(** Python's [min(a, b)] and [max(a, b)] return [a] unless [b] is strictly
    smaller (larger); [int] truncates towards zero. *)
Definition py_min (a b : R) : R := if Rlt_dec b a then b else a.
Definition py_max (a b : R) : R := if Rlt_dec a b then b else a.
Definition py_int (r : R) : Z :=
  if Rle_dec 0 r then Int_part r else (- Int_part (- r))%Z.

(** [1.6 * num_categories_per_col**embed_exponent] *)
Definition raw_width (c : Z) : R := (1.6 * Rpower (IZR c) embed_exponent)%R.

(** [max(2, min(max_embedding_dim, 1.6 * c**embed_exponent))] *)
Definition clamped_width (c : Z) : R :=
  py_max 2 (py_min (IZR max_embedding_dim) (raw_width c)).

(** The expression of the source, over the reals. *)
Definition embedding_dim_formula (c : Z) : Z :=
  py_int (size_factor * clamped_width c).

(** [c ** 0.56] first converts the [int] to a [float], rounding to the
    nearest float, ties to even; the integers from [2^1024 - 2^970] on, and
    their negatives, round beyond the largest float, and the conversion
    raises [OverflowError]. *)
Definition float_overflow : Z := 2 ^ 1024 - 2 ^ 970.

(** The same number computed in integers: [k <= 1.6 * c**0.56] exactly when
    [(5k)^25 <= 8^25 * c^14], because [0.56 = 14/25] and [1.6 = 8/5]. *)
Definition reaches (c k : Z) : bool := (5 * k) ^ 25 <=? 8 ^ 25 * c ^ 14.

Fixpoint largest_reached (c : Z) (n : nat) : Z :=
  match n with
  | O => 0
  | S n' => if reaches c (Z.of_nat n) then Z.of_nat n else largest_reached c n'
  end.

(** [embedding_dim_per_col], as the constructor computes it for a
    cardinality [c >= 0]: the largest [k <= 100] with [k <= 1.6 * c**0.56],
    and at least 2. *)
Definition embedding_dim_per_col (c : Z) : Z :=
  Z.max 2 (largest_reached c (Z.to_nat max_embedding_dim)).

(** [p/q <= 1.6 * c**0.56], in integers. *)
Definition at_least (c p q : Z) : bool := (5 * p) ^ 25 <=? (8 * q) ^ 25 * c ^ 14.

(** For the [n] cardinalities from [c] on, [1.6 * c**0.56] keeps a distance
    of at least 1/1000 from the integers; [k] is the integer part at
    [c - 1], and the integer part grows by at most one per step. *)
Fixpoint margins_from (n : nat) (c k : Z) : bool :=
  match n with
  | O => true
  | S n' =>
      let k' := if at_least c (k + 1) 1 then k + 1 else k in
      at_least c (1000 * k' + 1) 1000 &&
      negb (at_least c (1000 * (k' + 1) - 1) 1000) &&
      margins_from n' (c + 1) k'
  end.

(** The least cardinality whose width is capped. *)
Definition first_capped : Z := 1611.

(** What the specification says instead of [int]: rounding to a nearest
    integer. *)
Definition is_round (r : R) (z : Z) : Prop := (Rabs (r - IZR z) <= 1 / 2)%R.

(** ** Names *)

(** Modelled from the spec: the module [..constants] is not among the
    sources; the spec gives the input key as [{prefix}_categorical] and the
    keys of the output as [logits] and [features]. *)
Definition CATEGORICAL : string := "categorical".
Definition LOGITS : string := "logits".
Definition FEATURES : string := "features".

(** ** Tensors and layers *)

Record Hyper := mkHyper {
  num_layers : Z;
  activation : string;
  dropout : Q;
  normalization : string
}.

(** The keyword arguments of the constructor of [MLP]. *)
Record MLPArgs := mkMLPArgs {
  mlp_in_features : Z;
  mlp_hidden_features : option Z;
  mlp_out_features : option Z;
  mlp_hyper : Hyper
}.

Section Model.

(** Tensor elements, with the arithmetic a linear layer needs. *)
Context {F : Type}.
Variable fzero : F.
Variable fadd fmul : F -> F -> F.

(** A two-dimensional tensor of shape [(length rows, ncols)]. *)
Record Tensor := mkTensor { ncols : nat; rows : list (list F) }.

(** A one-dimensional tensor of category indices, one per sample. *)
Definition IndexTensor := list Z.

(** Modelled from the spec: the class [MLP] of [.mlp] is not among the
    sources.  It is a feed-forward transform built from its keyword
    arguments; whatever goes wrong inside it is an error of the tensor
    runtime. *)
Context {MLP : Type}.
Variable MLP_new : MLPArgs -> option MLP.
Variable MLP_forward : MLP -> Tensor -> option Tensor.

(** The values [init_weights] leaves in the parameters: entry [(i, j)] of
    the weight and entry [i] of the bias of the head, and entry [(i, j)] of
    the table of the [k]-th embedding. *)
Variable head_weight : nat -> nat -> F.
Variable head_bias : nat -> F.
Variable embedding_weight : nat -> nat -> nat -> F.

Definition runtime {A : Type} (o : option A) : result A :=
  match o with
  | Some a => Ok a
  | None => Raise RuntimeError
  end.

Definition tabulate {A : Type} (n : nat) (f : nat -> A) : list A :=
  map f (seq 0 n).

(** [nn.Embedding(num_embeddings, embedding_dim)] *)
Record Embedding := mkEmbedding {
  num_embeddings : Z;
  embedding_dim : Z;
  emb_weight : list (list F)
}.

Definition nn_Embedding (k : nat) (num_embeddings embedding_dim : Z)
  : result Embedding :=
  if (num_embeddings <? 0) || (embedding_dim <? 0) then Raise RuntimeError
  else Ok (mkEmbedding num_embeddings embedding_dim
             (tabulate (Z.to_nat num_embeddings)
                (fun i => tabulate (Z.to_nat embedding_dim) (embedding_weight k i)))).

Definition Embedding_forward (e : Embedding) (ids : IndexTensor) : result Tensor :=
  rs ← for_each
          (fun i : Z =>
             if (0 <=? i) && (i <? num_embeddings e)
             then match emb_weight e !! Z.to_nat i with
                  | Some r => Ok r
                  | None => Raise IndexError
                  end
             else Raise IndexError) ids;
  Ok (mkTensor (Z.to_nat (embedding_dim e)) rs).

(** [nn.Linear(in_features, out_features)]: [y = x W^T + b] with [W] of
    shape [(out_features, in_features)]. *)
Record Linear := mkLinear {
  lin_in_features : Z;
  lin_out_features : Z;
  lin_weight : list (list F);
  lin_bias : list F
}.

Definition nn_Linear (in_features out_features : Z) : result Linear :=
  if (in_features <? 0) || (out_features <? 0) then Raise RuntimeError
  else Ok (mkLinear in_features out_features
             (tabulate (Z.to_nat out_features)
                (fun i => tabulate (Z.to_nat in_features) (head_weight i)))
             (tabulate (Z.to_nat out_features) head_bias)).

Definition dot (u v : list F) : F :=
  fold_right fadd fzero (zip_with fmul u v).

Definition Linear_forward (l : Linear) (x : Tensor) : result Tensor :=
  if negb (Z.of_nat (ncols x) =? lin_in_features l) then Raise RuntimeError
  else Ok (mkTensor (Z.to_nat (lin_out_features l))
             (map (fun row =>
                     zip_with (fun w b => fadd (dot row w) b)
                              (lin_weight l) (lin_bias l))
                  (rows x))).

(** [self.head]: [nn.Linear] or [nn.Identity]. *)
Inductive Head :=
| LinearHead (l : Linear)
| Identity.

Definition Head_forward (h : Head) (x : Tensor) : result Tensor :=
  match h with
  | LinearHead l => Linear_forward l x
  | Identity => Ok x
  end.

(** [torch.cat(tensors, dim=1)]: the tensors side by side; an empty list is
    a [ValueError], tensors with different numbers of rows are a
    [RuntimeError]. *)
Definition torch_cat_dim1 (ts : list Tensor) : result Tensor :=
  match ts with
  | [] => Raise ValueError
  | t :: _ =>
      if forallb (fun u => Nat.eqb (length (rows u)) (length (rows t))) ts
      then Ok (mkTensor (sum_list (map ncols ts))
                 (fold_right (fun u acc => zip_with app (rows u) acc)
                             (replicate (length (rows t)) []) ts))
      else Raise RuntimeError
  end.

(** ** The module *)

Record CategoricalMLP := mkCategoricalMLP {
  out_features : option Z;
  column_embeddings : list Embedding;
  column_mlps : list MLP;
  num_categories : list (string * Z);
  aggregator_mlp : MLP;
  head : Head;
  prefix : string
}.

(** [init_weights] of [.utils] is not among the sources, so
    [self.apply(init_weights)] is a parameter: it visits every submodule of
    the model it is given and sets the parameters (to the values
    [head_weight], [head_bias] and [embedding_weight] above), and it answers
    [Some e] when that raises [e]. *)
Variable apply_init_weights : CategoricalMLP -> option exn.

(** One turn of the loop over [num_categories.values()].  A cardinality too
    large for a [float] is an [OverflowError]; a negative cardinality makes
    [c ** 0.56] a complex number, which [min] cannot compare: a
    [TypeError]. *)
Definition init_column (out_features : option Z) (hyper : Hyper)
    (kc : nat * Z) : result (Embedding * MLP) :=
  let '(k, num_categories_per_col) := kc in
  if float_overflow <=? Z.abs num_categories_per_col then Raise OverflowError
  else if num_categories_per_col <? 0 then Raise TypeError
  else
    let embedding_dim_per_col := embedding_dim_per_col num_categories_per_col in
    e ← nn_Embedding k num_categories_per_col embedding_dim_per_col;
    m ← runtime (MLP_new (mkMLPArgs embedding_dim_per_col out_features
                                     out_features hyper));
    Ok (e, m).

(** [CategoricalMLP.__init__]; [num_categories] is the dict as the list of
    its items, in order, so [assert isinstance(num_categories, dict)] holds
    by typing.  With [out_features=None] the product
    [out_features * len(num_categories)] is a [TypeError].  The last step
    that can fail is [self.apply(init_weights)]. *)
Definition CategoricalMLP_init (prefix : string) (num_categories : list (string * Z))
    (out_features : option Z) (hyper : Hyper) (num_classes : Z)
  : result CategoricalMLP :=
  cols ← for_each (init_column out_features hyper)
            (imap (fun k kv => (k, kv.2)) num_categories);
  match out_features with
  | None => Raise TypeError
  | Some o =>
      let width := o * Z.of_nat (length num_categories) in
      agg ← runtime (MLP_new (mkMLPArgs width (Some width) (Some o) hyper));
      h ← (if num_classes >? 0
            then l ← nn_Linear o num_classes; Ok (LinearHead l)
            else Ok Identity);
      let self :=
        mkCategoricalMLP out_features cols.*1 cols.*2 num_categories agg h prefix in
      match apply_init_weights self with
      | Some e => Raise e
      | None => Ok self
      end
  end.

Definition categorical_key (self : CategoricalMLP) : string :=
  prefix self +:+ "_" +:+ CATEGORICAL.

(** [zip] of three lists. *)
Fixpoint zip3 {A B C : Type} (la : list A) (lb : list B) (lc : list C)
  : list (A * B * C) :=
  match la, lb, lc with
  | a :: la', b :: lb', c :: lc' => (a, b, c) :: zip3 la' lb' lc'
  | _, _, _ => []
  end.

(** [CategoricalMLP.forward]; [batch] maps keys to lists of index
    tensors. *)
Definition forward (self : CategoricalMLP) (batch : gmap string (list IndexTensor))
  : result (gmap string (gmap string Tensor)) :=
  match batch !! categorical_key self with
  | None => Raise KeyError
  | Some ids =>
      if negb (Nat.eqb (length ids) (length (column_embeddings self)))
      then Raise AssertionError
      else
        features ← for_each
                      (fun '(categorical_id, embed, mlp) =>
                         x ← Embedding_forward embed categorical_id;
                         runtime (MLP_forward mlp x))
                      (zip3 ids (column_embeddings self) (column_mlps self));
        cat_features ← torch_cat_dim1 features;
        features ← runtime (MLP_forward (aggregator_mlp self) cat_features);
        logits ← Head_forward (head self) features;
        Ok {[ prefix self := <[FEATURES := features]> {[ LOGITS := logits ]} ]}
  end.

(** The entries of the output of [forward]. *)
Definition output_of (self : CategoricalMLP) (key : string)
    (out : gmap string (gmap string Tensor)) : option Tensor :=
  inner ← out !! prefix self; inner !! key.

(** ** The embedding width, in integers and over the reals *)

Lemma pow_lt_strict (a b : R) (n : nat) :
  (0 <= a)%R -> (a < b)%R -> (a ^ S n < b ^ S n)%R.
Proof.
  intros Ha Hab. induction n as [|n IH].
  - simpl. lra.
  - change (a * a ^ S n < b * b ^ S n)%R.
    apply Rmult_le_0_lt_compat; auto. apply pow_le; assumption.
Qed.

Lemma pow25_le_iff (a b : R) :
  (0 <= a)%R -> (0 <= b)%R -> (a <= b)%R <-> (a ^ 25 <= b ^ 25)%R.
Proof.
  intros Ha Hb. split.
  - intros H. apply pow_incr. lra.
  - intros H. destruct (Rle_or_lt a b) as [|Hlt]; [assumption|].
    exfalso. pose proof (pow_lt_strict b a 24 Hb Hlt). lra.
Qed.

Lemma Rpower_exponent_pow25 (c : Z) :
  0 < c -> (Rpower (IZR c) embed_exponent ^ 25 = IZR c ^ 14)%R.
Proof.
  intros Hc. assert (0 < IZR c)%R by (apply IZR_lt; assumption).
  rewrite <- (Rpower_pow 25) by apply exp_pos.
  rewrite Rpower_mult.
  replace (embed_exponent * INR 25)%R with (INR 14)
    by (unfold embed_exponent; simpl; lra).
  apply Rpower_pow; assumption.
Qed.

Lemma raw_width_pos c : (0 < raw_width c)%R.
Proof. unfold raw_width. pose proof (exp_pos (embed_exponent * ln (IZR c))). unfold Rpower. lra. Qed.

(** p/q <= 1.6 * c^0.56 decided in integers. *)
Lemma raw_width_ge_iff (c p q : Z) :
  0 < c -> 0 <= p -> 0 < q ->
  (IZR p <= IZR q * raw_width c)%R <-> (5 * p) ^ 25 <= (8 * q) ^ 25 * c ^ 14.
Proof.
  intros Hc Hp Hq.
  pose proof (raw_width_pos c) as Hw.
  assert (Hq' : (0 < IZR q)%R) by (apply IZR_lt; assumption).
  assert (Hp' : (0 <= IZR p)%R) by (apply IZR_le; assumption).
  assert (E : ((5 * (IZR q * raw_width c)) ^ 25 = IZR ((8 * q) ^ 25 * c ^ 14))%R).
  { unfold raw_width.
    replace (5 * (IZR q * (1.6 * Rpower (IZR c) embed_exponent)))%R
      with ((8 * IZR q) * Rpower (IZR c) embed_exponent)%R by lra.
    rewrite Rpow_mult_distr, Rpower_exponent_pow25 by assumption.
    change 25 with (Z.of_nat 25). change 14 with (Z.of_nat 14).
    rewrite mult_IZR, <- !pow_IZR, mult_IZR. reflexivity. }
  assert (E2 : ((5 * IZR p) ^ 25 = IZR ((5 * p) ^ 25))%R).
  { change 25 with (Z.of_nat 25). rewrite <- pow_IZR, mult_IZR. reflexivity. }
  split.
  - intros H. apply le_IZR. rewrite <- E, <- E2.
    apply pow_incr. lra.
  - intros H. apply IZR_le in H. rewrite <- E, <- E2 in H.
    apply pow25_le_iff in H; [lra | lra |].
    apply Rmult_le_pos; [lra|]. apply Rmult_le_pos; lra.
Qed.


Lemma reaches_iff (c k : Z) :
  0 < c -> 0 <= k -> reaches c k = true <-> (IZR k <= raw_width c)%R.
Proof.
  intros Hc Hk. unfold reaches. rewrite Z.leb_le.
  rewrite <- (Rmult_1_l (raw_width c)).
  rewrite (raw_width_ge_iff c k 1 Hc Hk) by lia.
  replace (8 * 1) with 8 by lia. reflexivity.
Qed.

Lemma largest_reached_bounds (c : Z) (n : nat) :
  0 <= largest_reached c n <= Z.of_nat n.
Proof.
  induction n as [|n IH]; [simpl; lia|].
  cbn [largest_reached]. destruct (reaches c (Z.of_nat (S n))); lia.
Qed.

Lemma largest_reached_reaches (c : Z) (n : nat) :
  reaches c (largest_reached c n) = true.
Proof.
  induction n as [|n IH].
  - unfold reaches. simpl largest_reached. apply Z.leb_le.
    change (14) with (2 * 7). rewrite Z.pow_mul_r by lia.
    assert (0 <= (c ^ 2) ^ 7) by (apply Z.pow_nonneg, Z.pow_even_nonneg; exists 1; lia).
    simpl ((5 * 0) ^ 25). lia.
  - cbn [largest_reached]. destruct (reaches c (Z.of_nat (S n))) eqn:E; assumption.
Qed.

Lemma largest_reached_maximal (c : Z) (n : nat) :
  largest_reached c n < Z.of_nat n ->
  reaches c (largest_reached c n + 1) = false.
Proof.
  induction n as [|n IH]; [simpl; lia|].
  cbn [largest_reached]. destruct (reaches c (Z.of_nat (S n))) eqn:E; [lia|].
  intros _. pose proof (largest_reached_bounds c n) as B.
  destruct (Z.eq_dec (largest_reached c n) (Z.of_nat n)) as [->|Hne].
  - replace (Z.of_nat n + 1) with (Z.of_nat (S n)) by lia. exact E.
  - apply IH. lia.
Qed.

Lemma py_int_floor (r : R) (z : Z) :
  (0 <= IZR z)%R -> (IZR z <= r < IZR z + 1)%R -> py_int r = z.
Proof.
  intros Hz [H1 H2]. unfold py_int.
  destruct (Rle_dec 0 r) as [_|Hn]; [|lra].
  symmetry. apply Int_part_spec. lra.
Qed.

Lemma embedding_dim_floor (c : Z) :
  0 < c ->
  (IZR (embedding_dim_per_col c) <= size_factor * clamped_width c
     < IZR (embedding_dim_per_col c) + 1)%R.
Proof.
  intros Hc. unfold embedding_dim_per_col, size_factor, clamped_width, max_embedding_dim.
  set (k := largest_reached c (Z.to_nat 100)).
  pose proof (largest_reached_bounds c (Z.to_nat 100)) as B. fold k in B.
  pose proof (largest_reached_reaches c (Z.to_nat 100)) as Hk. fold k in Hk.
  apply reaches_iff in Hk; [|assumption|lia].
  assert (Hmax : k < 100 -> (raw_width c < IZR k + 1)%R).
  { intros Hlt. pose proof (largest_reached_maximal c (Z.to_nat 100)) as M. fold k in M.
    destruct (Rlt_or_le (raw_width c) (IZR k + 1)) as [|Hge]; [assumption|].
    rewrite <- plus_IZR in Hge. apply reaches_iff in Hge; [|assumption|lia].
    rewrite M in Hge; [discriminate|lia]. }
  assert (B' : (0 <= IZR k <= 100)%R) by (split; apply IZR_le; lia).
  destruct (Z.eq_dec k 100) as [E|NE].
  - rewrite E in *. replace (Z.max 2 100) with 100 by lia.
    unfold py_max, py_min.
    destruct (Rlt_dec (raw_width c) 100); [lra|]. destruct (Rlt_dec 2 100); lra.
  - assert (k < 100) as Hlt by lia. specialize (Hmax Hlt).
    destruct (Z_lt_le_dec k 2) as [Hs|Hs].
    + replace (Z.max 2 k) with 2 by lia.
      assert (IZR k + 1 <= 2)%R by (rewrite <- plus_IZR; apply IZR_le; lia).
      unfold py_max, py_min.
      destruct (Rlt_dec (raw_width c) 100); destruct (Rlt_dec 2 _); lra.
    + replace (Z.max 2 k) with k by lia.
      assert (2 <= IZR k)%R by (apply IZR_le; lia).
      assert (IZR k + 1 <= 100)%R by (rewrite <- plus_IZR; apply IZR_le; lia).
      unfold py_max, py_min.
      destruct (Rlt_dec (raw_width c) 100); destruct (Rlt_dec 2 _); lra.
Qed.

Lemma embedding_dim_formula_eq (c : Z) :
  0 < c -> embedding_dim_formula c = embedding_dim_per_col c.
Proof.
  intros Hc. unfold embedding_dim_formula. apply py_int_floor.
  - apply IZR_le. unfold embedding_dim_per_col. lia.
  - apply embedding_dim_floor; assumption.
Qed.


Lemma largest_reached_top (c : Z) (n : nat) :
  reaches c (Z.of_nat n) = true -> largest_reached c n = Z.of_nat n.
Proof.
  destruct n as [|n]; [reflexivity|].
  cbn [largest_reached]. intros ->. reflexivity.
Qed.

Lemma embedding_dim_per_col_bounds (c : Z) : 2 <= embedding_dim_per_col c <= 100.
Proof.
  unfold embedding_dim_per_col, max_embedding_dim.
  pose proof (largest_reached_bounds c (Z.to_nat 100)). lia.
Qed.

Lemma embedding_dim_per_col_cap (c : Z) :
  0 < c -> (100 <= raw_width c)%R -> embedding_dim_per_col c = 100.
Proof.
  intros Hc H. unfold embedding_dim_per_col, max_embedding_dim.
  rewrite (largest_reached_top c (Z.to_nat 100)); [reflexivity|].
  apply reaches_iff; [assumption|lia|]. exact H.
Qed.

Lemma at_least_iff (c p q : Z) :
  0 < c -> 0 <= p -> 0 < q ->
  at_least c p q = true <-> (IZR p <= IZR q * raw_width c)%R.
Proof.
  intros Hc Hp Hq. unfold at_least. rewrite Z.leb_le.
  symmetry. apply raw_width_ge_iff; assumption.
Qed.

Lemma at_least_mono (c c' p q : Z) :
  0 < c <= c' -> 0 < q -> at_least c p q = true -> at_least c' p q = true.
Proof.
  unfold at_least. rewrite !Z.leb_le. intros Hc Hq H.
  eapply Z.le_trans; [exact H|].
  apply Z.mul_le_mono_nonneg_l; [apply Z.pow_nonneg; lia|].
  apply Z.pow_le_mono_l. lia.
Qed.

Lemma margins_from_S (n : nat) (c k : Z) :
  margins_from (S n) c k =
    at_least c (1000 * (if at_least c (k + 1) 1 then k + 1 else k) + 1) 1000 &&
    negb (at_least c (1000 * ((if at_least c (k + 1) 1 then k + 1 else k) + 1) - 1)
                   1000) &&
    margins_from n (c + 1) (if at_least c (k + 1) 1 then k + 1 else k).
Proof. reflexivity. Qed.

Lemma margins_from_spec (n : nat) (c0 k0 c : Z) :
  0 <= k0 ->
  margins_from n c0 k0 = true ->
  c0 <= c < c0 + Z.of_nat n ->
  exists k, 0 <= k /\
            at_least c (1000 * k + 1) 1000 = true /\
            at_least c (1000 * (k + 1) - 1) 1000 = false.
Proof.
  revert c0 k0. induction n as [|n IH]; intros c0 k0 Hk0 Hm Hc; [lia|].
  rewrite margins_from_S in Hm.
  remember (if at_least c0 (k0 + 1) 1 then k0 + 1 else k0) as k' eqn:Ek'.
  assert (Hk' : 0 <= k') by (subst k'; destruct (at_least c0 (k0 + 1) 1); lia).
  apply andb_prop in Hm. destruct Hm as [Hm Hrest].
  apply andb_prop in Hm. destruct Hm as [Hlo Hhi].
  apply negb_true_iff in Hhi.
  destruct (Z.eq_dec c c0) as [->|Hne].
  - exists k'. auto.
  - apply (IH (c0 + 1) k'); [assumption|assumption|lia].
Qed.

Lemma margins_checked :
  margins_from (Z.to_nat first_capped - 1) 1 1 = true /\
  at_least first_capped 100001 1000 = true.
Proof. split; vm_compute; reflexivity. Qed.

(** Clamping and truncating depend only on the integer part. *)
Lemma clamp_floor (k : Z) (t : R) :
  0 <= k -> (IZR k <= t < IZR k + 1)%R ->
  py_int (size_factor * py_max 2 (py_min (IZR max_embedding_dim) t)) =
    Z.max 2 (Z.min 100 k).
Proof.
  intros Hk Ht. unfold size_factor, max_embedding_dim.
  assert (0 <= IZR k)%R by (apply IZR_le; assumption).
  apply py_int_floor; [apply IZR_le; lia|].
  unfold py_max, py_min.
  destruct (Z_le_gt_dec 100 k) as [Hbig|Hsmall].
  - replace (Z.max 2 (Z.min 100 k)) with 100 by lia.
    assert (100 <= IZR k)%R by (apply IZR_le; assumption).
    destruct (Rlt_dec t 100); [lra|]. destruct (Rlt_dec 2 100); lra.
  - assert (IZR k + 1 <= 100)%R by (rewrite <- plus_IZR; apply IZR_le; lia).
    destruct (Z_lt_le_dec k 2) as [Hs|Hs].
    + replace (Z.max 2 (Z.min 100 k)) with 2 by lia.
      assert (IZR k + 1 <= 2)%R by (rewrite <- plus_IZR; apply IZR_le; lia).
      destruct (Rlt_dec t 100); destruct (Rlt_dec 2 _); lra.
    + replace (Z.max 2 (Z.min 100 k)) with k by lia.
      assert (2 <= IZR k)%R by (apply IZR_le; lia).
      destruct (Rlt_dec t 100); destruct (Rlt_dec 2 _); lra.
Qed.

(** Evaluating [1.6 * c**0.56] with a relative error of up to one
    millionth, which floating-point arithmetic stays far below, gives the
    same width. *)
Lemma embedding_dim_robust (c : Z) (y : R) :
  1 <= c ->
  (Rabs (y - raw_width c) <= raw_width c / 1000000)%R ->
  py_int (size_factor * py_max 2 (py_min (IZR max_embedding_dim) y)) =
    embedding_dim_per_col c.
Proof.
  intros Hc Hy. assert (Hc0 : 0 < c) by lia.
  pose proof (raw_width_pos c) as Hpos.
  assert (Hy' : (raw_width c - raw_width c / 1000000 <= y
                 <= raw_width c + raw_width c / 1000000)%R).
  { unfold Rabs in Hy. destruct (Rcase_abs _); lra. }
  rewrite <- embedding_dim_formula_eq by assumption.
  unfold embedding_dim_formula, clamped_width.
  destruct margins_checked as [Hsweep Htop].
  destruct (Z_lt_le_dec c first_capped) as [Hsmall|Hlarge].
  - destruct (margins_from_spec _ 1 1 c ltac:(lia) Hsweep) as (k & Hk & Hlo & Hhi).
    { unfold first_capped in *. lia. }
    apply at_least_iff in Hlo; [|assumption|lia|lia].
    assert (Hup : (IZR 1000 * raw_width c < IZR (1000 * (k + 1) - 1))%R).
    { destruct (Rlt_or_le (IZR 1000 * raw_width c) (IZR (1000 * (k + 1) - 1)))
        as [|Hge]; [assumption|].
      apply at_least_iff in Hge; [congruence|assumption|lia|lia]. }
    rewrite plus_IZR, mult_IZR in Hlo.
    rewrite minus_IZR, mult_IZR, plus_IZR in Hup.
    assert (Hk100 : k <= 100).
    { destruct (Z_le_gt_dec k 100) as [|Hgt]; [assumption|exfalso].
      assert (at_least c 101 1 = true) as H101.
      { apply at_least_iff; [assumption|lia|lia|].
        assert (101 <= IZR k)%R by (apply IZR_le; lia). lra. }
      apply (at_least_mono c first_capped) in H101; [|lia|lia].
      vm_compute in H101. discriminate H101. }
    assert (IZR k <= 100)%R by (apply IZR_le; assumption).
    assert (0 <= IZR k)%R by (apply IZR_le; assumption).
    rewrite (clamp_floor k y), (clamp_floor k (raw_width c)); try assumption;
      [reflexivity|lra|lra].
  - apply (at_least_mono first_capped c) in Htop; [|unfold first_capped in *; lia|lia].
    apply at_least_iff in Htop; [|assumption|lia|lia].
    unfold size_factor, max_embedding_dim.
    rewrite (py_int_floor _ 100), (py_int_floor _ 100); [reflexivity|lra| |lra|].
    + unfold py_max, py_min.
      destruct (Rlt_dec (raw_width c) 100); [lra|]. destruct (Rlt_dec 2 100); lra.
    + unfold py_max, py_min.
      destruct (Rlt_dec y 100); [lra|]. destruct (Rlt_dec 2 100); lra.
Qed.

(** ** Loops and layers *)

Lemma for_each_length {A B : Type} (f : A -> result B) (l : list A) (bs : list B) :
  for_each f l = Ok bs -> length bs = length l.
Proof.
  revert bs. induction l as [|a l IH]; intros bs; cbn [for_each].
  - intros [= <-]. reflexivity.
  - destruct (f a) as [b|e]; cbn; [|discriminate].
    destruct (for_each f l) as [bs'|e]; cbn; [|discriminate].
    intros [= <-]. cbn. rewrite (IH bs' eq_refl). reflexivity.
Qed.

Lemma for_each_Forall2 {A B : Type} (f : A -> result B) (l : list A) (bs : list B) :
  for_each f l = Ok bs -> Forall2 (fun a b => f a = Ok b) l bs.
Proof.
  revert bs. induction l as [|a l IH]; intros bs; cbn [for_each].
  - intros [= <-]. constructor.
  - destruct (f a) as [b|e] eqn:E; cbn; [|discriminate].
    destruct (for_each f l) as [bs'|e]; cbn; [|discriminate].
    intros [= <-]. constructor; auto.
Qed.

Lemma for_each_raises {A B : Type} (P : exn -> Prop) (f : A -> result B)
    (l : list A) (e : exn) :
  (forall a e', f a = Raise e' -> P e') ->
  for_each f l = Raise e -> P e.
Proof.
  intros Hf. induction l as [|a l IH]; cbn [for_each]; [discriminate|].
  destruct (f a) as [b|e'] eqn:E; cbn.
  - destruct (for_each f l) as [bs'|e'']; cbn; [discriminate|].
    intros [= <-]. apply IH. reflexivity.
  - intros [= <-]. eapply Hf, E.
Qed.

(** The exceptions of the tensor runtime. *)
Definition tensor_error (e : exn) : Prop := e = RuntimeError \/ e = IndexError.

Lemma runtime_raises {A : Type} (o : option A) (e : exn) :
  runtime o = Raise e -> tensor_error e.
Proof. destruct o; cbn; [discriminate|]. intros [= <-]. left. reflexivity. Qed.

Lemma Embedding_forward_raises (emb : Embedding) (ids : IndexTensor) (e : exn) :
  Embedding_forward emb ids = Raise e -> tensor_error e.
Proof.
  unfold Embedding_forward.
  destruct (for_each _ ids) as [rs|e'] eqn:E; cbn; [discriminate|].
  intros [= <-]. eapply (for_each_raises tensor_error); [|exact E].
  intros i e0. cbv beta.
  destruct ((0 <=? i) && (i <? num_embeddings emb)).
  - destruct (emb_weight emb !! Z.to_nat i); [discriminate|].
    intros [= <-]. right. reflexivity.
  - intros [= <-]. right. reflexivity.
Qed.

Lemma torch_cat_dim1_raises (ts : list Tensor) (e : exn) :
  torch_cat_dim1 ts = Raise e ->
  tensor_error e \/ (e = ValueError /\ ts = []).
Proof.
  unfold torch_cat_dim1. destruct ts as [|t ts]; [intros [= <-]; right; auto|].
  destruct (forallb _ _); [discriminate|]. intros [= <-]. left. left. reflexivity.
Qed.

Lemma zip3_nil {A B C : Type} (la : list A) (lb : list B) (lc : list C) :
  zip3 la lb lc = [] -> length la = length lb -> lb = [] \/ lc = [].
Proof.
  destruct la as [|a la], lb as [|b lb], lc as [|c lc]; cbn; auto; discriminate.
Qed.

Lemma tabulate_length {A : Type} (n : nat) (f : nat -> A) :
  length (tabulate n f) = n.
Proof. unfold tabulate. rewrite length_map, length_seq. reflexivity. Qed.

Lemma nn_Linear_shape (i o : Z) (l : Linear) :
  nn_Linear i o = Ok l ->
  0 <= o /\ lin_in_features l = i /\ lin_out_features l = o /\
  length (lin_weight l) = Z.to_nat o /\ length (lin_bias l) = Z.to_nat o.
Proof.
  unfold nn_Linear. destruct ((i <? 0) || (o <? 0)) eqn:E; [discriminate|].
  intros [= <-]. cbn. rewrite !tabulate_length.
  apply orb_false_elim in E. destruct E as [_ E]. apply Z.ltb_ge in E. auto.
Qed.

Lemma Linear_forward_raises (l : Linear) (x : Tensor) (e : exn) :
  Linear_forward l x = Raise e -> tensor_error e.
Proof.
  unfold Linear_forward. destruct (negb _); [|discriminate].
  intros [= <-]. left. reflexivity.
Qed.

Lemma Linear_forward_shape (l : Linear) (x y : Tensor) :
  length (lin_weight l) = Z.to_nat (lin_out_features l) ->
  length (lin_bias l) = Z.to_nat (lin_out_features l) ->
  Linear_forward l x = Ok y ->
  ncols y = Z.to_nat (lin_out_features l) /\
  length (rows y) = length (rows x) /\
  Forall (fun r => length r = Z.to_nat (lin_out_features l)) (rows y).
Proof.
  intros Hw Hb. unfold Linear_forward. destruct (negb _); [discriminate|].
  intros [= <-]. cbn. split; [reflexivity|]. rewrite length_map. split; [reflexivity|].
  apply Forall_map, Forall_forall. intros row _. cbn.
  rewrite length_zip_with, Hw, Hb. lia.
Qed.

(** ** The constructor and the forward pass, by cases *)

Lemma CategoricalMLP_init_Ok (pre : string) (cats : list (string * Z))
    (o : option Z) (hyper : Hyper) (nc : Z) (self : CategoricalMLP) :
  CategoricalMLP_init pre cats o hyper nc = Ok self ->
  exists cols ov,
    for_each (init_column o hyper) (imap (fun k kv => (k, kv.2)) cats) = Ok cols /\
    o = Some ov /\
    column_embeddings self = cols.*1 /\
    column_mlps self = cols.*2 /\
    num_categories self = cats /\
    prefix self = pre /\
    out_features self = o /\
    ((0 < nc /\ exists l, nn_Linear ov nc = Ok l /\ head self = LinearHead l) \/
     (nc <= 0 /\ head self = Identity)).
Proof.
  unfold CategoricalMLP_init.
  destruct (for_each _ _) as [cols|e]; cbn; [|discriminate].
  destruct o as [ov|]; [|discriminate].
  destruct (runtime _) as [agg|e]; cbn; [|discriminate].
  destruct (nc >? 0) eqn:Hnc.
  - destruct (nn_Linear ov nc) as [l|e] eqn:El; cbn; [|discriminate].
    destruct (apply_init_weights _); [discriminate|].
    intros [= <-]. exists cols, ov. cbn. repeat split; auto.
    left. split; [apply Z.gtb_lt in Hnc; lia|]. eauto.
  - cbn. destruct (apply_init_weights _); [discriminate|].
    intros [= <-]. exists cols, ov. cbn. repeat split; auto.
    right. split; [|reflexivity].
    destruct (Z.gtb_spec nc 0); [discriminate|lia].
Qed.

Lemma init_column_embedding_dim (o : option Z) (hyper : Hyper) (k : nat) (c : Z)
    (em : Embedding * MLP) :
  init_column o hyper (k, c) = Ok em ->
  0 <= c /\ num_embeddings em.1 = c /\ embedding_dim em.1 = embedding_dim_per_col c.
Proof.
  unfold init_column. destruct (float_overflow <=? Z.abs c); [discriminate|].
  destruct (Z.ltb_spec c 0); [discriminate|].
  unfold nn_Embedding. destruct (_ || _); cbn; [discriminate|].
  destruct (runtime _) as [m|e]; cbn; [|discriminate].
  intros [= <-]. cbn. auto.
Qed.

Lemma CategoricalMLP_init_columns (pre : string) (cats : list (string * Z))
    (o : option Z) (hyper : Hyper) (nc : Z) (self : CategoricalMLP) :
  CategoricalMLP_init pre cats o hyper nc = Ok self ->
  length (column_embeddings self) = length cats /\
  length (column_mlps self) = length cats /\
  embedding_dim <$> column_embeddings self = (fun kv => embedding_dim_per_col kv.2) <$> cats /\
  num_embeddings <$> column_embeddings self = snd <$> cats.
Proof.
  intros H. apply CategoricalMLP_init_Ok in H.
  destruct H as (cols & ov & Hcols & _ & -> & -> & _).
  pose proof (for_each_length _ _ _ Hcols) as Hlen.
  rewrite length_imap in Hlen. rewrite !length_fmap.
  split; [assumption|]. split; [assumption|].
  apply for_each_Forall2 in Hcols.
  assert (HF : Forall2 (fun kv (em : Embedding * MLP) =>
                          num_embeddings em.1 = kv.2 /\
                          embedding_dim em.1 = embedding_dim_per_col kv.2) cats cols).
  { clear -Hcols.
    assert (G : forall (g : nat -> nat) cats cols,
      Forall2 (fun a b => init_column o hyper a = Ok b)
              (imap (fun k (kv : string * Z) => (g k, kv.2)) cats) cols ->
      Forall2 (fun kv (em : Embedding * MLP) =>
                 num_embeddings em.1 = kv.2 /\
                 embedding_dim em.1 = embedding_dim_per_col kv.2) cats cols).
    { clear. intros g cats. revert g.
      induction cats as [|kv cats IH]; intros g cols H; cbn in H.
      - inversion H. constructor.
      - inversion H as [|x y l l' Hxy Hrest]; subst. constructor.
        + apply init_column_embedding_dim in Hxy. tauto.
        + apply (IH (fun k => g (S k))). exact Hrest. }
    apply (G (fun k => k)). exact Hcols. }
  clear Hcols Hlen. induction HF as [|kv em cats cols [H1 H2] _ [IH1 IH2]]; cbn.
  - split; reflexivity.
  - rewrite H1, H2. split; f_equal; assumption.
Qed.

Lemma forward_Ok (self : CategoricalMLP) (batch : gmap string (list IndexTensor))
    (out : gmap string (gmap string Tensor)) :
  forward self batch = Ok out ->
  exists ids features logits,
    batch !! categorical_key self = Some ids /\
    length ids = length (column_embeddings self) /\
    Head_forward (head self) features = Ok logits /\
    output_of self LOGITS out = Some logits /\
    output_of self FEATURES out = Some features.
Proof.
  unfold forward. destruct (batch !! categorical_key self) as [ids|]; [|discriminate].
  destruct (Nat.eqb_spec (length ids) (length (column_embeddings self))) as [Hlen|];
    cbn [negb]; [|discriminate].
  destruct (for_each _ _) as [fs|e]; cbn; [|discriminate].
  destruct (torch_cat_dim1 fs) as [cat|e]; cbn; [|discriminate].
  destruct (runtime _) as [features|e]; cbn; [|discriminate].
  destruct (Head_forward (head self) features) as [logits|e] eqn:Eh; cbn; [|discriminate].
  intros [= <-]. exists ids, features, logits.
  repeat split; auto; unfold output_of; rewrite lookup_singleton_eq; cbn.
  - rewrite lookup_insert_ne by discriminate.
    first [apply lookup_singleton_eq | apply lookup_insert_eq].
  - apply lookup_insert_eq.
Qed.

Lemma identity_head_logits (self : CategoricalMLP)
    (batch : gmap string (list IndexTensor)) (out : gmap string (gmap string Tensor)) :
  head self = Identity ->
  forward self batch = Ok out ->
  exists t, output_of self LOGITS out = Some t /\ output_of self FEATURES out = Some t.
Proof.
  intros Hh H. apply forward_Ok in H.
  destruct H as (ids & features & logits & _ & _ & Hf & Hl & Hfe).
  rewrite Hh in Hf. cbn in Hf. injection Hf as <-. eauto.
Qed.

Lemma forward_checked (self : CategoricalMLP)
    (batch : gmap string (list IndexTensor)) (ids : list IndexTensor) :
  batch !! categorical_key self = Some ids ->
  length ids = length (column_embeddings self) ->
  match forward self batch with
  | Ok _ => True
  | Raise e =>
      tensor_error e \/
      (e = ValueError /\ (column_embeddings self = [] \/ column_mlps self = []))
  end.
Proof.
  intros Hk Hlen. unfold forward.
  rewrite Hk.
  destruct (Nat.eqb_spec (length ids) (length (column_embeddings self))) as [_|];
    [|contradiction]. cbn [negb].
  destruct (for_each _ _) as [fs|e] eqn:E1; cbn.
  2:{ left. eapply (for_each_raises tensor_error); [|exact E1].
      intros [[cid embed] mlp] e'.
      destruct (Embedding_forward embed cid) as [x|e''] eqn:E; cbn.
      - apply runtime_raises.
      - intros [= <-]. eapply Embedding_forward_raises, E. }
  destruct (torch_cat_dim1 fs) as [cat|e] eqn:E2; cbn.
  2:{ destruct (torch_cat_dim1_raises _ _ E2) as [H | [-> ->]]; [left; exact H|].
      right. split; [reflexivity|].
      apply for_each_length in E1. symmetry in E1. apply length_zero_iff_nil in E1.
      exact (zip3_nil _ _ _ E1 Hlen). }
  destruct (runtime _) as [features|e] eqn:E3; cbn;
    [|left; eapply runtime_raises, E3].
  destruct (Head_forward (head self) features) as [logits|e] eqn:E4; cbn; [exact I|].
  left. destruct (head self); cbn in E4; [eapply Linear_forward_raises, E4|discriminate].
Qed.

(** ** The claims about the categorical encoder *)

(** C1, as the code has it.  For a cardinality [c >= 1] the width is the
    source's expression [int(size_factor * max(2, min(100, 1.6 * c**0.56)))]
    evaluated over the reals: the clamped value rounded down, between 2 and
    100; it is 2 for cardinality 1 and 100 as soon as [1.6 * c**0.56]
    exceeds 100; evaluating [1.6 * c**0.56] with a relative error of up to
    one millionth gives the same width; and the constructor gives every
    column's embedding this width. *)
Theorem embedding_width_truncated (c : Z) :
  1 <= c ->
  embedding_dim_formula c = embedding_dim_per_col c /\
  (IZR (embedding_dim_per_col c) <= size_factor * clamped_width c
     < IZR (embedding_dim_per_col c) + 1)%R /\
  2 <= embedding_dim_per_col c <= 100 /\
  (c = 1 -> embedding_dim_per_col c = 2) /\
  ((100 < raw_width c)%R -> embedding_dim_per_col c = 100) /\
  (forall y : R,
     (Rabs (y - raw_width c) <= raw_width c / 1000000)%R ->
     py_int (size_factor * py_max 2 (py_min (IZR max_embedding_dim) y)) =
       embedding_dim_per_col c) /\
  (forall (pre : string) (cats : list (string * Z)) (o : option Z) (hyper : Hyper)
          (nc : Z) (self : CategoricalMLP),
     CategoricalMLP_init pre cats o hyper nc = Ok self ->
     embedding_dim <$> column_embeddings self =
       (fun kv => embedding_dim_per_col kv.2) <$> cats).
Proof.
  intros Hc. assert (0 < c) by lia.
  split; [apply embedding_dim_formula_eq; assumption|].
  split; [apply embedding_dim_floor; assumption|].
  split; [apply embedding_dim_per_col_bounds|].
  split; [intros ->; vm_compute; reflexivity|].
  split; [intros Hr; apply embedding_dim_per_col_cap; [assumption|lra]|].
  split; [intros y Hy; apply embedding_dim_robust; assumption|].
  intros pre cats o hyper nc self Hinit.
  apply CategoricalMLP_init_columns in Hinit. tauto.
Qed.

(** C3.  For a constructed model and a forward pass that returns: with
    class count 0 the head is the identity and the logits returned are the
    features returned; with a positive class count the head is a linear
    layer with that many output features and the logits have exactly that
    many columns. *)
Theorem head_by_class_count (pre : string) (cats : list (string * Z))
    (o : option Z) (hyper : Hyper) (nc : Z) (self : CategoricalMLP)
    (batch : gmap string (list IndexTensor)) (out : gmap string (gmap string Tensor)) :
  CategoricalMLP_init pre cats o hyper nc = Ok self ->
  forward self batch = Ok out ->
  (nc = 0 ->
   head self = Identity /\
   exists t, output_of self LOGITS out = Some t /\ output_of self FEATURES out = Some t) /\
  (0 < nc ->
   (exists l, head self = LinearHead l /\ lin_out_features l = nc) /\
   exists t, output_of self LOGITS out = Some t /\
             Z.of_nat (ncols t) = nc /\
             Forall (fun r => Z.of_nat (length r) = nc) (rows t)).
Proof.
  intros Hinit Hfwd.
  apply CategoricalMLP_init_Ok in Hinit.
  destruct Hinit as (cols & ov & _ & _ & _ & _ & _ & _ & _ & Hhead).
  split.
  - intros ->. destruct Hhead as [[Hpos _]|[_ Hid]]; [lia|].
    split; [assumption|]. eapply identity_head_logits; eassumption.
  - intros Hpos. destruct Hhead as [[_ (l & Hl & Hhead)]|[Hle _]]; [|lia].
    apply nn_Linear_shape in Hl. destruct Hl as (Hnn & _ & Ho & Hw & Hb).
    split; [eauto|].
    apply forward_Ok in Hfwd.
    destruct Hfwd as (ids & features & logits & _ & _ & Hf & Hlog & _).
    rewrite Hhead in Hf. cbn in Hf.
    rewrite <- Ho in Hw, Hb.
    destruct (Linear_forward_shape l features logits Hw Hb Hf) as (Hc & _ & Hr).
    exists logits. split; [assumption|]. rewrite Ho in Hc, Hr.
    split; [lia|]. eapply Forall_impl; [exact Hr|]. intros r Hlen. cbv beta in *. lia.
Qed.

(** C5.  The forward pass raises [AssertionError] exactly when the batch
    has the list of index tensors and its length differs from the number of
    column embeddings, which is the number of columns given to the
    constructor; when the lengths agree nothing else is checked: whatever is
    raised then is raised by the tensor runtime, a [ValueError] only by
    [torch.cat] on a model without columns. *)
Theorem forward_assertion (self : CategoricalMLP)
    (batch : gmap string (list IndexTensor)) :
  (forward self batch = Raise AssertionError <->
   exists ids, batch !! categorical_key self = Some ids /\
               length ids <> length (column_embeddings self)) /\
  (forall ids, batch !! categorical_key self = Some ids ->
               length ids = length (column_embeddings self) ->
               match forward self batch with
               | Ok _ => True
               | Raise e =>
                   e = RuntimeError \/ e = IndexError \/
                   (e = ValueError /\
                    (column_embeddings self = [] \/ column_mlps self = []))
               end) /\
  (forall (pre : string) (cats : list (string * Z)) (o : option Z) (hyper : Hyper)
          (nc : Z),
     CategoricalMLP_init pre cats o hyper nc = Ok self ->
     length (column_embeddings self) = length cats).
Proof.
  split; [|split].
  - split.
    + intros H. destruct (batch !! categorical_key self) as [ids|] eqn:Hk.
      * exists ids. split; [reflexivity|]. intros Hlen.
        pose proof (forward_checked self batch ids Hk Hlen) as Hc.
        rewrite H in Hc. destruct Hc as [[Hc|Hc] | [Hc _]]; discriminate.
      * unfold forward in H. rewrite Hk in H. discriminate.
    + intros (ids & Hk & Hne). unfold forward. rewrite Hk.
      destruct (Nat.eqb_spec (length ids) (length (column_embeddings self)));
        [contradiction|reflexivity].
  - intros ids Hk Hlen. pose proof (forward_checked self batch ids Hk Hlen) as Hc.
    destruct (forward self batch) as [out|e]; [exact I|]. unfold tensor_error in Hc.
    tauto.
  - intros pre cats o hyper nc Hinit.
    apply CategoricalMLP_init_columns in Hinit. tauto.
Qed.

(** C10.  A constructed model whose class count is zero or negative has
    the identity as its head, and every forward pass that returns returns
    its features as its logits. *)
Theorem identity_head_nonpositive (pre : string) (cats : list (string * Z))
    (o : option Z) (hyper : Hyper) (nc : Z) (self : CategoricalMLP)
    (batch : gmap string (list IndexTensor)) (out : gmap string (gmap string Tensor)) :
  nc <= 0 ->
  CategoricalMLP_init pre cats o hyper nc = Ok self ->
  head self = Identity /\
  (forward self batch = Ok out ->
   exists t, output_of self LOGITS out = Some t /\ output_of self FEATURES out = Some t).
Proof.
  intros Hnc Hinit.
  apply CategoricalMLP_init_Ok in Hinit.
  destruct Hinit as (cols & ov & _ & _ & _ & _ & _ & _ & _ & Hhead).
  destruct Hhead as [[Hpos _]|[_ Hid]]; [lia|].
  split; [assumption|]. intros Hfwd. eapply identity_head_logits; eassumption.
Qed.

(** ** More about the embedding width *)

Lemma reaches_mono (c c' k : Z) :
  0 <= c <= c' -> reaches c k = true -> reaches c' k = true.
Proof.
  unfold reaches. intros Hc H. apply Z.leb_le in H. apply Z.leb_le.
  etransitivity; [exact H|]. apply Z.mul_le_mono_nonneg_l.
  - apply Z.pow_nonneg. lia.
  - apply Z.pow_le_mono_l. lia.
Qed.

(** X11.  The embedding width grows with the cardinality of the column: it
    is 2 for the cardinalities up to 3 and no other, and it is the cap 100
    exactly from the cardinality 1611 on. *)
Theorem embedding_dim_grows (c c' : Z) :
  0 <= c <= c' ->
  embedding_dim_per_col c <= embedding_dim_per_col c' /\
  (embedding_dim_per_col c = 2 <-> c <= 3) /\
  (embedding_dim_per_col c = max_embedding_dim <-> first_capped <= c).
Proof.
  assert (Hmono : forall a b, 0 <= a <= b ->
                              embedding_dim_per_col a <= embedding_dim_per_col b).
  { intros a b Hab. unfold embedding_dim_per_col.
    assert (H : forall n, largest_reached a n <= largest_reached b n).
    { induction n as [|n IH]; [reflexivity|]. cbn [largest_reached].
      destruct (reaches a (Z.of_nat (S n))) eqn:E.
      - rewrite (reaches_mono a b _ Hab E). reflexivity.
      - destruct (reaches b (Z.of_nat (S n))); [|exact IH].
        pose proof (largest_reached_bounds a n). lia. }
    specialize (H (Z.to_nat max_embedding_dim)). lia. }
  intros Hc. split; [apply Hmono, Hc|].
  pose proof (embedding_dim_per_col_bounds c) as Hb.
  assert (E3 : embedding_dim_per_col 3 = 2) by (vm_compute; reflexivity).
  assert (E4 : embedding_dim_per_col 4 = 3) by (vm_compute; reflexivity).
  assert (E1610 : embedding_dim_per_col 1610 = 99) by (vm_compute; reflexivity).
  assert (E1611 : embedding_dim_per_col 1611 = 100) by (vm_compute; reflexivity).
  unfold max_embedding_dim, first_capped. split; split.
  - intros E. destruct (Z.le_gt_cases c 3) as [|Hgt]; [assumption|].
    pose proof (Hmono 4 c ltac:(lia)). lia.
  - intros H3. pose proof (Hmono c 3 ltac:(lia)). lia.
  - intros E. destruct (Z.le_gt_cases 1611 c) as [|Hlt]; [assumption|].
    pose proof (Hmono c 1610 ltac:(lia)). lia.
  - intros H. pose proof (Hmono 1611 c ltac:(lia)). lia.
Qed.

(** ** When the constructor returns *)

Lemma for_each_succeeds {A B : Type} (f : A -> result B) (l : list A) :
  (exists bs, for_each f l = Ok bs) <-> Forall (fun a => exists b, f a = Ok b) l.
Proof.
  induction l as [|a l IH]; cbn.
  - split; [constructor | eauto].
  - split.
    + intros [bs H]. destruct (f a) as [b|e] eqn:E; cbn in H; [|discriminate].
      destruct (for_each f l) as [bs'|e] eqn:E'; cbn in H; [|discriminate].
      constructor; [eauto | apply IH; eauto].
    + intros H. apply Forall_cons in H as [[b Hb] Hl].
      apply IH in Hl as [bs Hbs]. rewrite Hb, Hbs. cbn. eauto.
Qed.

Lemma init_column_returns (o : option Z) (hyper : Hyper) (k : nat) (c : Z)
    (em : Embedding * MLP) :
  init_column o hyper (k, c) = Ok em ->
  0 <= c < float_overflow /\
  is_Some (MLP_new (mkMLPArgs (embedding_dim_per_col c) o o hyper)).
Proof.
  unfold init_column.
  destruct (Z.leb_spec float_overflow (Z.abs c)) as [|Habs]; [discriminate|].
  destruct (Z.ltb_spec c 0) as [|Hc]; [discriminate|].
  destruct (nn_Embedding _ _ _) as [emb|e]; cbn; [|discriminate].
  destruct (MLP_new _) as [m|]; cbn; [|discriminate].
  intros _. split; [lia | eauto].
Qed.

(** X12.  The constructor returns a model only if [out_features] is given,
    every cardinality is at least 0 and small enough for a [float], [MLP]
    accepts the arguments of every column and of the aggregator,
    [out_features] is not negative when there is a linear head, and
    [init_weights] raises nothing on the model.  In particular it never
    returns with [out_features=None], the default. *)
Theorem CategoricalMLP_init_returns_only_if (pre : string) (cats : list (string * Z))
    (o : option Z) (hyper : Hyper) (nc : Z) (self : CategoricalMLP) :
  CategoricalMLP_init pre cats o hyper nc = Ok self ->
  exists ov,
    o = Some ov /\
    Forall (fun kv =>
              0 <= kv.2 < float_overflow /\
              is_Some (MLP_new (mkMLPArgs (embedding_dim_per_col kv.2) o o hyper)))
           cats /\
    is_Some (MLP_new (mkMLPArgs (ov * Z.of_nat (length cats))
                                (Some (ov * Z.of_nat (length cats)))
                                (Some ov) hyper)) /\
    (0 < nc -> 0 <= ov) /\
    apply_init_weights self = None.
Proof.
  unfold CategoricalMLP_init. intros H.
  destruct (for_each _ _) as [cols|e] eqn:E; cbn in H; [|discriminate].
  destruct o as [ov|]; [|discriminate]. exists ov. split; [reflexivity|].
  split.
  { assert (Hall : exists cols, for_each (init_column (Some ov) hyper)
                     (imap (fun k kv => (k, kv.2)) cats) = Ok cols) by eauto.
    apply for_each_succeeds in Hall. rewrite Forall_lookup in Hall.
    apply Forall_lookup. intros i kv Hkv.
    destruct (Hall i (i, kv.2)) as [em Hem].
    - rewrite list_lookup_imap, Hkv. reflexivity.
    - exact (init_column_returns _ _ _ _ _ Hem). }
  destruct (MLP_new _) as [agg|]; cbn in H; [|discriminate].
  split; [eauto|].
  assert (Hov : 0 < nc -> 0 <= ov).
  { intros Hnc. destruct (Z.gtb_spec nc 0) as [_|]; [|lia].
    unfold nn_Linear in H. destruct (Z.ltb_spec ov 0); [discriminate H|lia]. }
  split; [exact Hov|].
  destruct (if nc >? 0 then _ else _) as [h|e]; cbn in H; [|discriminate].
  destruct (apply_init_weights _) as [e|] eqn:Ew; [discriminate|].
  injection H as <-. exact Ew.
Qed.

(** ** What [forward] asks of the batch *)

Lemma zip3_Forall {A B C : Type} (P : A -> B -> C -> Prop) (Q : A -> B -> Prop)
    (la : list A) (lb : list B) (lc : list C) :
  (forall a b c, P a b c -> Q a b) ->
  length la = length lb -> length lc = length lb ->
  Forall (fun abc => P abc.1.1 abc.1.2 abc.2) (zip3 la lb lc) ->
  Forall2 Q la lb.
Proof.
  intros HPQ. revert lb lc.
  induction la as [|a la IH]; intros [|b lb] [|c lc] Hab Hcb H;
    try discriminate; [constructor|].
  cbn [zip3] in H. apply Forall_cons in H as [Hh Ht].
  constructor; [exact (HPQ _ _ _ Hh)|].
  apply (IH lb lc); [injection Hab; auto | injection Hcb; auto | exact Ht].
Qed.

Lemma Embedding_forward_in_range (e : Embedding) (ids : IndexTensor) (x : Tensor) :
  Embedding_forward e ids = Ok x ->
  Forall (fun i => 0 <= i < num_embeddings e) ids /\
  length (rows x) = length ids.
Proof.
  unfold Embedding_forward.
  destruct (for_each _ ids) as [rs|err] eqn:E; cbn; [|discriminate].
  intros [= <-]. cbn [rows]. split; [|exact (for_each_length _ _ _ E)].
  apply for_each_Forall2 in E. clear -E.
  induction E as [|i r ids rs Hi _ IH]; constructor; [|exact IH].
  destruct (Z.leb_spec 0 i); destruct (Z.ltb_spec i (num_embeddings e));
    cbn in Hi; try discriminate Hi. lia.
Qed.

(** X13.  If the constructor built the model and [forward] returns, the
    batch has, under the key [<prefix>_categorical], one index tensor per
    column, and every index of the [k]-th tensor is a category of the
    [k]-th column: at least 0 and below its cardinality. *)
Theorem forward_indices_in_range (pre : string) (cats : list (string * Z))
    (o : option Z) (hyper : Hyper) (nc : Z) (self : CategoricalMLP)
    (batch : gmap string (list IndexTensor)) (out : gmap string (gmap string Tensor)) :
  CategoricalMLP_init pre cats o hyper nc = Ok self ->
  forward self batch = Ok out ->
  exists ids,
    batch !! (pre +:+ "_" +:+ CATEGORICAL) = Some ids /\
    Forall2 (fun idx kv => Forall (fun i => 0 <= i < kv.2) idx) ids cats.
Proof.
  intros Hinit Hfw.
  destruct (CategoricalMLP_init_columns _ _ _ _ _ _ Hinit) as (Hle & Hlm & _ & Hnum).
  destruct (CategoricalMLP_init_Ok _ _ _ _ _ _ Hinit)
    as (_ & _ & _ & _ & _ & _ & _ & Hpre & _).
  unfold forward, categorical_key in Hfw. rewrite Hpre in Hfw.
  destruct (batch !! (pre +:+ "_" +:+ CATEGORICAL)) as [ids|]; [|discriminate].
  destruct (Nat.eqb_spec (length ids) (length (column_embeddings self))) as [Hlen|];
    cbn [negb] in Hfw; [|discriminate].
  destruct (for_each _ _) as [fs|e] eqn:E; cbn in Hfw; [|discriminate].
  exists ids. split; [reflexivity|].
  assert (H : Forall2 (fun idx emb => Forall (fun i => 0 <= i < num_embeddings emb) idx)
                      ids (column_embeddings self)).
  { apply (zip3_Forall
             (fun idx emb (mlp : MLP) =>
                exists x, Embedding_forward emb idx = Ok x)
             _ ids (column_embeddings self) (column_mlps self)).
    - intros idx emb _ [x Hx]. apply (Embedding_forward_in_range _ _ _ Hx).
    - exact Hlen.
    - congruence.
    - apply for_each_Forall2 in E. clear -E.
      induction E as [|[[idx emb] mlp] f l fs Hf _ IH]; constructor; [|exact IH].
      cbn [fst snd].
      destruct (Embedding_forward emb idx) as [x|e]; [eauto|discriminate Hf]. }
  assert (H' : Forall2 (fun idx n => Forall (fun i => 0 <= i < n) idx) ids
                       (num_embeddings <$> column_embeddings self))
    by (apply Forall2_fmap_r; exact H).
  rewrite Hnum in H'. apply Forall2_fmap_r in H'. exact H'.
Qed.

(** X14.  [forward] raises [KeyError] exactly when the batch has no entry
    under the key [<prefix>_categorical], whatever else the batch holds;
    that check comes before the one on the number of columns; and [forward]
    never raises a [TypeError]. *)
Theorem forward_KeyError_iff (self : CategoricalMLP)
    (batch : gmap string (list IndexTensor)) :
  categorical_key self = prefix self +:+ "_" +:+ CATEGORICAL /\
  (forward self batch = Raise KeyError <->
   batch !! categorical_key self = None) /\
  forward self batch <> Raise TypeError.
Proof.
  split; [reflexivity|].
  destruct (batch !! categorical_key self) as [ids|] eqn:Hk.
  - assert (H : forall e, forward self batch = Raise e ->
                          e = AssertionError \/ tensor_error e \/ e = ValueError).
    { intros e He.
      destruct (Nat.eq_dec (length ids) (length (column_embeddings self))) as [Hl|Hl].
      - pose proof (forward_checked self batch ids Hk Hl) as Hc.
        rewrite He in Hc. tauto.
      - left. unfold forward in He. rewrite Hk in He.
        destruct (Nat.eqb_spec (length ids) (length (column_embeddings self)));
          [contradiction|]. cbn in He. congruence. }
    split.
    + split; [|discriminate]. intros He.
      destruct (H _ He) as [|[[|]|]]; discriminate.
    + intros He. destruct (H _ He) as [|[[|]|]]; discriminate.
  - unfold forward. rewrite Hk. split; [tauto | discriminate].
Qed.

(** X15.  If the constructor built the model and [forward] returns, the
    output has one entry, under the prefix; that entry has exactly the keys
    [logits] and [features]; the logits have as many rows as the features;
    and without a linear head they are the features. *)
Theorem forward_output_shape (pre : string) (cats : list (string * Z))
    (o : option Z) (hyper : Hyper) (nc : Z) (self : CategoricalMLP)
    (batch : gmap string (list IndexTensor)) (out : gmap string (gmap string Tensor)) :
  CategoricalMLP_init pre cats o hyper nc = Ok self ->
  forward self batch = Ok out ->
  exists features logits,
    out = {[ pre := <[FEATURES := features]> {[ LOGITS := logits ]} ]} /\
    dom out = {[ pre ]} /\
    dom (<[FEATURES := features]> ({[ LOGITS := logits ]} : gmap string Tensor)) =
      {[ LOGITS; FEATURES ]} /\
    length (rows logits) = length (rows features) /\
    (nc <= 0 -> logits = features).
Proof.
  intros Hinit Hfw.
  destruct (CategoricalMLP_init_Ok _ _ _ _ _ _ Hinit)
    as (_ & ov & _ & _ & _ & _ & _ & Hpre & _ & Hhead).
  unfold forward in Hfw.
  destruct (batch !! categorical_key self) as [ids|]; [|discriminate].
  destruct (negb _); [discriminate|].
  destruct (for_each _ _) as [fs|e]; cbn in Hfw; [|discriminate].
  destruct (torch_cat_dim1 fs) as [cat|e]; cbn in Hfw; [|discriminate].
  destruct (runtime _) as [features|e]; cbn in Hfw; [|discriminate].
  destruct (Head_forward (head self) features) as [logits|e] eqn:Eh;
    cbn in Hfw; [|discriminate].
  injection Hfw as <-. rewrite Hpre. exists features, logits.
  split; [reflexivity|]. split; [apply dom_singleton_L|].
  split; [rewrite dom_insert_L, dom_singleton_L; set_solver|].
  destruct Hhead as [(Hnc & l & Hl & Hh) | (Hnc & Hh)]; rewrite Hh in Eh; cbn in Eh.
  - destruct (nn_Linear_shape _ _ _ Hl) as (_ & _ & Ho & Hw & Hb).
    rewrite <- Ho in Hw, Hb.
    destruct (Linear_forward_shape _ _ _ Hw Hb Eh) as (_ & Hrows & _).
    split; [exact Hrows | lia].
  - injection Eh as <-. auto.
Qed.

(** ** Layer ids *)

(** A Python dict from names to ids, as the list of its items in insertion
    order.  [d[k] = v] overwrites the value of a key that is there, in its
    place, and appends a new key. *)
Definition dict_setitem (d : list (string * Z)) (k : string) (v : Z)
  : list (string * Z) :=
  if bool_decide (k ∈ d.*1)
  then (fun kv : string * Z => if bool_decide (kv.1 = k) then (k, v) else kv) <$> d
  else d ++ [(k, v)].

(** [CategoricalMLP.get_layer_ids], given the names that
    [self.named_parameters()] yields, in order. *)
Definition get_layer_ids (named_parameters : list string) : list (string * Z) :=
  fold_left (fun name_to_id n => dict_setitem name_to_id n 0) named_parameters [].

(** [[n for n, layer_id in self.name_to_id.items() if layer_id == 0]] *)
Definition head_layer_names (name_to_id : list (string * Z)) : list string :=
  (filter (fun kv : string * Z => kv.2 = 0) name_to_id).*1.

Lemma dict_setitem_keys (d : list (string * Z)) (k : string) (v : Z) :
  (dict_setitem d k v).*1 = if bool_decide (k ∈ d.*1) then d.*1 else d.*1 ++ [k].
Proof.
  unfold dict_setitem. case_bool_decide as Hin.
  - clear Hin. induction d as [|[k' v'] d IH]; [reflexivity|].
    cbn [fmap list_fmap fst]. cbn [fmap list_fmap] in IH. rewrite IH.
    case_bool_decide as Hk; cbn [fst] in *; congruence.
  - rewrite fmap_app. reflexivity.
Qed.

Lemma dict_setitem_values (P : Z -> Prop) (d : list (string * Z)) (k : string) (v : Z) :
  P v -> Forall (fun kv => P kv.2) d -> Forall (fun kv => P kv.2) (dict_setitem d k v).
Proof.
  intros Hv Hd. unfold dict_setitem. case_bool_decide.
  - apply Forall_fmap. eapply Forall_impl; [exact Hd|].
    intros kv Hkv. cbn. case_bool_decide; assumption.
  - apply Forall_app. split; [exact Hd|]. constructor; [exact Hv|constructor].
Qed.

(** X17.  [get_layer_ids] gives every parameter the id 0 and nothing else
    an id, each name once; so [head_layer_names] is the list of all names in
    [name_to_id], and, the names of the parameters of a module being
    distinct, it is the list of the parameter names in the order
    [named_parameters] yields them. *)
Theorem head_layer_names_all (named_parameters : list string) :
  Forall (fun kv => kv.2 = 0) (get_layer_ids named_parameters) /\
  NoDup (get_layer_ids named_parameters).*1 /\
  (forall n, n ∈ (get_layer_ids named_parameters).*1 <-> n ∈ named_parameters) /\
  head_layer_names (get_layer_ids named_parameters) =
    (get_layer_ids named_parameters).*1 /\
  (NoDup named_parameters ->
   head_layer_names (get_layer_ids named_parameters) = named_parameters).
Proof.
  assert (G : forall names acc,
    Forall (fun kv : string * Z => kv.2 = 0) acc -> NoDup acc.*1 ->
    Forall (fun kv : string * Z => kv.2 = 0)
      (fold_left (fun d n => dict_setitem d n 0) names acc) /\
    NoDup (fold_left (fun d n => dict_setitem d n 0) names acc).*1 /\
    (forall n, n ∈ (fold_left (fun d n => dict_setitem d n 0) names acc).*1 <->
               n ∈ acc.*1 \/ n ∈ names) /\
    (NoDup names -> (forall n, n ∈ names -> n ∉ acc.*1) ->
     (fold_left (fun d n => dict_setitem d n 0) names acc).*1 = acc.*1 ++ names)).
  { induction names as [|k names IH]; intros acc Hz Hnd; cbn [fold_left].
    - split; [exact Hz|]. split; [exact Hnd|]. split.
      + intros n. rewrite elem_of_nil. tauto.
      + intros _ _. rewrite app_nil_r. reflexivity.
    - assert (Hz' : Forall (fun kv : string * Z => kv.2 = 0) (dict_setitem acc k 0))
        by (apply (dict_setitem_values (fun v => v = 0)); [reflexivity | exact Hz]).
      assert (Hnd' : NoDup (dict_setitem acc k 0).*1).
      { rewrite dict_setitem_keys. case_bool_decide as Hin; [exact Hnd|].
        apply NoDup_app. split; [exact Hnd|]. split; [|apply NoDup_singleton].
        intros x Hx Hx'. apply list_elem_of_singleton in Hx'. subst x. contradiction. }
      destruct (IH _ Hz' Hnd') as (H1 & H2 & H3 & H4).
      split; [exact H1|]. split; [exact H2|]. split.
      + intros n. rewrite H3, dict_setitem_keys, elem_of_cons.
        case_bool_decide as Hin.
        * split; [tauto|]. intros [Hn | [Hn | Hn]]; subst; auto.
        * rewrite elem_of_app, list_elem_of_singleton. tauto.
      + intros Hnames Hfresh. apply NoDup_cons in Hnames as [Hk Hnames].
        rewrite H4.
        * rewrite dict_setitem_keys.
          case_bool_decide as Hin.
          -- exfalso. apply (Hfresh k); [apply elem_of_cons; auto | exact Hin].
          -- rewrite <- app_assoc. reflexivity.
        * exact Hnames.
        * intros n Hn. rewrite dict_setitem_keys.
          assert (n ∉ acc.*1) by (apply Hfresh, elem_of_cons; auto).
          case_bool_decide; [assumption|].
          rewrite elem_of_app, list_elem_of_singleton.
          intros [Hn' | Hn']; [contradiction|]. subst n.
          apply Hk. exact Hn. }
  destruct (G named_parameters [] ltac:(constructor) ltac:(constructor))
    as (H1 & H2 & H3 & H4).
  fold (get_layer_ids named_parameters) in H1, H2, H3, H4.
  assert (H5 : head_layer_names (get_layer_ids named_parameters) =
               (get_layer_ids named_parameters).*1).
  { unfold head_layer_names. f_equal. clear -H1.
    induction H1 as [|kv d Hkv _ IH]; [reflexivity|].
    rewrite filter_cons_True by exact Hkv. f_equal. exact IH. }
  split; [exact H1|]. split; [exact H2|]. split.
  - intros n. rewrite H3, elem_of_nil. tauto.
  - split; [exact H5|]. intros Hnd. rewrite H5. apply H4; [exact Hnd|].
    intros n _. apply not_elem_of_nil.
Qed.

End Model.

(** ** A small instance, for running the model on concrete inputs *)

Module Toy.

(** Tensor elements are integers; an [MLP] is its output width and maps
    every row to that many copies of the sum of the row. *)
Definition MLP_new (a : MLPArgs) : option nat :=
  match mlp_out_features a with
  | Some o => if (o <? 0) || (mlp_in_features a <? 0) then None else Some (Z.to_nat o)
  | None => None
  end.

Definition MLP_forward (m : nat) (x : @Tensor Z) : option (@Tensor Z) :=
  Some (mkTensor m (map (fun r => replicate m (fold_right Z.add 0 r)) (rows x))).

Definition hyper : Hyper := mkHyper 1 "gelu" (1 # 2)%Q "layer_norm".

Definition cats : list (string * Z) := [("brand"%string, 3); ("city"%string, 10)].

Definition head_weight (i j : nat) : Z := Z.of_nat (i + j).
Definition head_bias (i : nat) : Z := Z.of_nat i.
Definition embedding_weight (k i j : nat) : Z := Z.of_nat (k + i + j).

(** [init_weights] fails on a weight without entries in either dimension,
    which is what the aggregator of a model without columns has. *)
Definition apply_init_weights (self : @CategoricalMLP Z nat) : option exn :=
  match column_embeddings self with
  | [] => Some ZeroDivisionError
  | _ :: _ => None
  end.

Definition build (num_classes : Z) : result (@CategoricalMLP Z nat) :=
  CategoricalMLP_init MLP_new head_weight head_bias embedding_weight
    apply_init_weights "cat" cats (Some 4) hyper num_classes.

Definition run (self : @CategoricalMLP Z nat) (batch : gmap string (list IndexTensor))
  : result (gmap string (gmap string (@Tensor Z))) :=
  forward 0 Z.add Z.mul MLP_forward self batch.

Definition batch : gmap string (list IndexTensor) :=
  {[ "cat_categorical"%string := [[0; 1; 2]; [9; 0; 4]] ]}.

(** The forward pass of the built model returns, and its logits have one
    row per sample. *)
Definition runs (num_classes : Z) : bool :=
  match build num_classes with
  | Ok self =>
      match run self batch with
      | Ok out =>
          match output_of self LOGITS out with
          | Some t => Nat.eqb (length (rows t)) 3
          | None => false
          end
      | Raise _ => false
      end
  | Raise _ => false
  end.

End Toy.

Example embedding_dim_examples :
  map embedding_dim_per_col [1; 2; 3; 4; 10; 100; 1000; 1610; 1611; 1000000]
  = [2; 2; 2; 3; 5; 21; 76; 99; 100; 100].
Proof. vm_compute. reflexivity. Qed.

Example toy_embedding_dims :
  match Toy.build 0 with
  | Ok self => Some (map embedding_dim (column_embeddings self),
                     map num_embeddings (column_embeddings self))
  | Raise _ => None
  end = Some ([2; 5], [3; 10]).
Proof. vm_compute. reflexivity. Qed.

Example toy_wrong_length :
  match Toy.build 0 with
  | Ok self =>
      Some (Toy.run self {[ "cat_categorical"%string := [[0; 1; 2]] ]},
            Toy.run self ∅,
            Toy.run self {[ "cat_categorical"%string := [[0; 1; 2]; [0; 10; 1]] ]})
  | Raise _ => None
  end = Some (Raise AssertionError, Raise KeyError, Raise IndexError).
Proof. vm_compute. reflexivity. Qed.

Example toy_constructor_errors :
  (match CategoricalMLP_init Toy.MLP_new Toy.head_weight Toy.head_bias
           Toy.embedding_weight Toy.apply_init_weights
           "cat" [] (Some 4) Toy.hyper 0 with
   | Ok _ => None | Raise e => Some e end,
   match CategoricalMLP_init Toy.MLP_new Toy.head_weight Toy.head_bias
           Toy.embedding_weight Toy.apply_init_weights
           "cat" [("id"%string, 2 ^ 1024)] (Some 4) Toy.hyper 0 with
   | Ok _ => None | Raise e => Some e end,
   match CategoricalMLP_init Toy.MLP_new Toy.head_weight Toy.head_bias
           Toy.embedding_weight Toy.apply_init_weights
           "cat" [("id"%string, -3)] (Some 4) Toy.hyper 0 with
   | Ok _ => None | Raise e => Some e end,
   match CategoricalMLP_init Toy.MLP_new Toy.head_weight Toy.head_bias
           Toy.embedding_weight Toy.apply_init_weights
           "cat" [] None Toy.hyper 0 with
   | Ok _ => None | Raise e => Some e end)
  = (Some ZeroDivisionError, Some OverflowError, Some TypeError, Some TypeError).
Proof. vm_compute. reflexivity. Qed.

(** C1, as the specification words it, fails: at cardinality 10 the
    constructor's width is 5, and 5 is not [1.6 * 10**0.56] (about 5.81)
    rounded, also not when that value is computed with a relative error of
    up to one millionth. *)
Lemma embedding_width_not_rounded :
  embedding_dim_per_col 10 = 5 /\
  embedding_dim_formula 10 = 5 /\
  ~ is_round (size_factor * clamped_width 10) (embedding_dim_per_col 10) /\
  (forall y : R,
     (Rabs (y - raw_width 10) <= raw_width 10 / 1000000)%R ->
     ~ is_round (size_factor * py_max 2 (py_min (IZR max_embedding_dim) y))
                (embedding_dim_per_col 10)).
Proof.
  assert (E : embedding_dim_per_col 10 = 5) by (vm_compute; reflexivity).
  split; [exact E|]. split; [rewrite embedding_dim_formula_eq by lia; exact E|].
  rewrite E.
  assert (H : (IZR 57 <= IZR 10 * raw_width 10)%R).
  { apply raw_width_ge_iff; try lia. all: vm_compute; discriminate. }
  assert (H6 : (raw_width 10 < 6)%R).
  { destruct (Rlt_or_le (raw_width 10) 6) as [|Hge]; [assumption|].
    apply (reaches_iff 10 6) in Hge; try lia. vm_compute in Hge. discriminate. }
  assert (G : forall y : R,
             (Rabs (y - raw_width 10) <= raw_width 10 / 1000000)%R ->
             ~ is_round (size_factor * py_max 2 (py_min (IZR max_embedding_dim) y)) 5).
  { intros y Hy. unfold Rabs in Hy.
    unfold is_round, size_factor, max_embedding_dim, py_max, py_min.
    destruct (Rcase_abs (y - raw_width 10));
      (destruct (Rlt_dec y 100); [|lra]); (destruct (Rlt_dec 2 y); [|lra]);
      intros Hr; unfold Rabs in Hr; destruct (Rcase_abs _); lra. }
  split; [|exact G].
  apply G. unfold Rabs. destruct (Rcase_abs _); lra.
Qed.

Lemma embedding_width_truncated_witness :
  1 <= 1000 /\
  embedding_dim_formula 1000 = 76 /\
  (76 <= size_factor * clamped_width 1000 < 77)%R.
Proof.
  split; [lia|].
  pose proof (embedding_width_truncated 0 Z.add Z.mul Toy.MLP_new
                (fun _ _ => 0) (fun _ => 0) (fun _ _ _ => 0)
                (fun _ => None) 1000) as H.
  destruct H as (H1 & H2 & _); [lia|].
  replace (embedding_dim_per_col 1000) with 76 in H1, H2 by (vm_compute; reflexivity).
  split; [exact H1|]. replace (76 + 1)%R with 77%R in H2 by lra. exact H2.
Defined.

Lemma head_by_class_count_witness :
  exists self out t,
    Toy.build 3 = Ok self /\
    Toy.run self Toy.batch = Ok out /\
    output_of self LOGITS out = Some t /\
    Z.of_nat (ncols t) = 3 /\
    Forall (fun r => Z.of_nat (length r) = 3) (rows t) /\
    length (rows t) = 3%nat.
Proof.
  assert (Hruns : Toy.runs 3 = true) by (vm_compute; reflexivity).
  unfold Toy.runs in Hruns.
  destruct (Toy.build 3) as [self|e] eqn:E1; [|discriminate Hruns].
  destruct (Toy.run self Toy.batch) as [out|e] eqn:E2; [|discriminate Hruns].
  pose proof (head_by_class_count 0 Z.add Z.mul Toy.MLP_new Toy.MLP_forward
                Toy.head_weight Toy.head_bias Toy.embedding_weight
                Toy.apply_init_weights "cat" Toy.cats (Some 4) Toy.hyper 3 self Toy.batch out E1 E2) as [_ H].
  destruct (H ltac:(lia)) as (_ & t & Ht & Hc & Hr).
  exists self, out, t. split; [reflexivity|]. split; [exact E2|].
  split; [exact Ht|]. split; [exact Hc|]. split; [exact Hr|].
  rewrite Ht in Hruns. apply Nat.eqb_eq, Hruns.
Defined.

Lemma identity_head_nonpositive_witness :
  exists self out t,
    (-3 <= 0) /\
    Toy.build (-3) = Ok self /\
    Toy.run self Toy.batch = Ok out /\
    output_of self LOGITS out = Some t /\
    output_of self FEATURES out = Some t /\
    length (rows t) = 3%nat.
Proof.
  assert (Hruns : Toy.runs (-3) = true) by (vm_compute; reflexivity).
  unfold Toy.runs in Hruns.
  destruct (Toy.build (-3)) as [self|e] eqn:E1; [|discriminate Hruns].
  destruct (Toy.run self Toy.batch) as [out|e] eqn:E2; [|discriminate Hruns].
  pose proof (identity_head_nonpositive 0 Z.add Z.mul Toy.MLP_new Toy.MLP_forward
                Toy.head_weight Toy.head_bias Toy.embedding_weight
                Toy.apply_init_weights "cat" Toy.cats (Some 4) Toy.hyper (-3) self Toy.batch out
                ltac:(lia) E1) as [_ H].
  destruct (H E2) as (t & Hl & Hf).
  exists self, out, t. split; [lia|]. split; [reflexivity|]. split; [exact E2|].
  split; [exact Hl|]. split; [exact Hf|].
  rewrite Hl in Hruns. apply Nat.eqb_eq, Hruns.
Defined.

Lemma embedding_dim_grows_witness :
  0 <= 10 <= 1000 /\
  embedding_dim_per_col 10 <= embedding_dim_per_col 1000 /\
  (embedding_dim_per_col 10 = 2 <-> 10 <= 3).
Proof.
  split; [lia|].
  pose proof (embedding_dim_grows 10 1000) as H.
  destruct H as (H1 & H2 & _); [lia|]. split; [exact H1 | exact H2].
Defined.

Lemma CategoricalMLP_init_returns_only_if_witness :
  exists self,
    Toy.build 3 = Ok self /\
    Forall (fun kv : string * Z =>
              0 <= kv.2 < float_overflow /\
              is_Some (Toy.MLP_new (mkMLPArgs (embedding_dim_per_col kv.2)
                                              (Some 4) (Some 4) Toy.hyper)))
           Toy.cats /\
    Toy.apply_init_weights self = None.
Proof.
  assert (Hruns : Toy.runs 3 = true) by (vm_compute; reflexivity).
  unfold Toy.runs in Hruns.
  destruct (Toy.build 3) as [self|e] eqn:E1; [|discriminate Hruns].
  pose proof (CategoricalMLP_init_returns_only_if Toy.MLP_new Toy.head_weight
                Toy.head_bias Toy.embedding_weight Toy.apply_init_weights
                "cat" Toy.cats (Some 4) Toy.hyper 3 self E1) as H.
  destruct H as (ov & Ho & Hcats & _ & _ & Hw).
  exists self. split; [reflexivity|]. split; [exact Hcats | exact Hw].
Defined.

Lemma forward_indices_in_range_witness :
  exists self out ids,
    Toy.build 3 = Ok self /\
    Toy.run self Toy.batch = Ok out /\
    Toy.batch !! ("cat" +:+ "_" +:+ CATEGORICAL) = Some ids /\
    Forall2 (fun idx kv => Forall (fun i => 0 <= i < kv.2) idx) ids Toy.cats.
Proof.
  assert (Hruns : Toy.runs 3 = true) by (vm_compute; reflexivity).
  unfold Toy.runs in Hruns.
  destruct (Toy.build 3) as [self|e] eqn:E1; [|discriminate Hruns].
  destruct (Toy.run self Toy.batch) as [out|e] eqn:E2; [|discriminate Hruns].
  pose proof (forward_indices_in_range 0 Z.add Z.mul Toy.MLP_new Toy.MLP_forward
                Toy.head_weight Toy.head_bias Toy.embedding_weight
                Toy.apply_init_weights "cat" Toy.cats (Some 4) Toy.hyper 3 self Toy.batch out E1 E2) as H.
  destruct H as (ids & Hk & Hr).
  exists self, out, ids. split; [reflexivity|]. split; [exact E2|].
  split; [exact Hk | exact Hr].
Defined.

Lemma forward_output_shape_witness :
  exists self out features logits,
    Toy.build 3 = Ok self /\
    Toy.run self Toy.batch = Ok out /\
    out = {[ "cat"%string := <[FEATURES := features]> {[ LOGITS := logits ]} ]} /\
    length (rows logits) = length (rows features).
Proof.
  assert (Hruns : Toy.runs 3 = true) by (vm_compute; reflexivity).
  unfold Toy.runs in Hruns.
  destruct (Toy.build 3) as [self|e] eqn:E1; [|discriminate Hruns].
  destruct (Toy.run self Toy.batch) as [out|e] eqn:E2; [|discriminate Hruns].
  pose proof (forward_output_shape 0 Z.add Z.mul Toy.MLP_new Toy.MLP_forward
                Toy.head_weight Toy.head_bias Toy.embedding_weight
                Toy.apply_init_weights "cat" Toy.cats (Some 4) Toy.hyper 3 self Toy.batch out E1 E2) as H.
  destruct H as (features & logits & Ho & _ & _ & Hr & _).
  exists self, out, features, logits. split; [reflexivity|]. split; [exact E2|].
  split; [exact Ho | exact Hr].
Defined.

End CategoricalMLP.
